(** * multidown: segment planning, resume state and fetch workers

    A shallow embedding of [main.go] (the segmented, resumable HTTP
    downloader) and the properties of its segment plan, its progress file
    and its worker loop.

    Conventions of the embedding:
    - Go's [int64] is [Z] with two's-complement wrap-around written out
      ([Int64.wrap]); Go's [int] is taken to be 64 bits wide.
    - A run-time panic (integer division by zero, [make] with a negative
      length) is the [Panic] outcome; [os.Exit(1)] is a separate, explicit
      result of the functions that call it.
    - A file is the list of its bytes; an open file ([handle]) also says
      whether it was opened with [O_APPEND]. On a file opened without
      [O_APPEND], [WriteAt] is the positioned write of the [os] package
      (the gap between the end of the file and the offset reads as zero
      bytes); on a file opened with [O_APPEND] it returns an error and
      writes nothing, and the program does not look at what it returns.
      The program opens the output file, and on a resume the progress
      file, with [O_APPEND].
    - [encoding/gob] is an interface ([GobCodec]) with the two facts the
      program relies on; a codec written after gob's wire format for the
      header struct (module [Gob]) is shown to meet it.
    - The workers run as an interleaving of whole iterations of their
      loop; they share the instruction channel and the two files. *)

From Stdlib Require Import ZArith Lia Bool.
From Stdlib.Strings Require Import Byte.
From stdpp Require Import base tactics option list strings.
From Equations Require Import Equations.
From Equations.Prop Require Import Logic.

Local Open Scope Z_scope.

(** ** Machine integers *)

Module Int64.
Definition min_int : Z := - 2 ^ 63.
Definition max_int : Z := 2 ^ 63 - 1.
Definition in_range (z : Z) : Prop := min_int <= z <= max_int.

Definition wrap (z : Z) : Z := (z + 2 ^ 63) mod 2 ^ 64 - 2 ^ 63.

Definition add (a b : Z) : Z := wrap (a + b).
Definition sub (a b : Z) : Z := wrap (a - b).
Definition mul (a b : Z) : Z := wrap (a * b).
(** Go's [/] truncates towards zero; the divisor is checked by the caller. *)
Definition quo (a b : Z) : Z := wrap (Z.quot a b).
End Int64.

(** ** Outcomes: a value, or a run-time panic *)

Inductive outcome (A : Type) : Type :=
| Ret (a : A)
| Panic (msg : string).
Arguments Ret {A} a.
Arguments Panic {A} msg.

Definition obind {A B} (k : A -> outcome B) (m : outcome A) : outcome B :=
  match m with
  | Ret a => k a
  | Panic msg => Panic msg
  end.

Notation "'let!' x ':=' m 'in' k" := (obind (fun x => k) m)
  (at level 10, x name, m at level 100, k at level 200).
Notation "'let!' ' p ':=' m 'in' k" :=
  (obind (fun x => match x with p => k end) m)
  (at level 10, p pattern, m at level 100, k at level 200).

(** ** Data *)

#[global] Instance byte_eq_dec : EqDecision byte := Byte.byte_eq_dec.


Record Download := mkDownload {
  position : Z;
  size : Z;
  segmentNum : Z
}.

Record ProgressUpdate := mkProgressUpdate {
  threadnum : Z;
  downloaded : Z
}.

Record ProgressInfo := mkProgressInfo {
  Length : Z;
  SegmentSize : Z;
  segments : list bool
}.

Definition maxSegments : Z := 50000.
Definition finishedSegment : byte := Byte.x59.
Definition baseOffset : Z := 256.

(** The segment size [download] passes to [setupProgressFile]. *)
Definition defaultSegmentSize : Z := 1000000.

(** ** The segment plan *)

(** [findSegmentCount]: [(length + segmentSize - 1) / segmentSize]. *)
Definition findSegmentCount (length segmentSize : Z) : outcome Z :=
  if segmentSize =? 0 then Panic "integer divide by zero"
  else Ret (Int64.quo (Int64.sub (Int64.add length segmentSize) 1) segmentSize).

(** [make([]bool, n)]. *)
Definition makeBools (n : Z) : outcome (list bool) :=
  if n <? 0 then Panic "makeslice: len out of range"
  else Ret (replicate (Z.to_nat n) false).

(** The state [setupProgressFile] builds on a clean start. *)
Definition freshInfo (length segmentSize : Z) : outcome ProgressInfo :=
  let! segmentCount := findSegmentCount length segmentSize in
  let! segs := makeBools segmentCount in
  Ret (mkProgressInfo length segmentSize segs).

(** The body of the enqueue loop of [download] for one pending segment. *)
Definition segmentInstruction (info : ProgressInfo) (seg : Z) : Download :=
  let left := SegmentSize info in
  let pos := Int64.mul seg (SegmentSize info) in
  let left :=
    if Int64.add pos (SegmentSize info) >? Length info
    then Int64.sub (Length info) pos else left in
  mkDownload pos left seg.

(** The enqueue loop, [seg] running over the indices of [info.segments]. *)
Fixpoint enqueueFrom (info : ProgressInfo) (seg : Z) (segs : list bool)
  : list Download :=
  match segs with
  | [] => []
  | done :: rest =>
      if done then enqueueFrom info (seg + 1) rest
      else segmentInstruction info seg :: enqueueFrom info (seg + 1) rest
  end.

Definition enqueueSegments (info : ProgressInfo) : list Download :=
  enqueueFrom info 0 (segments info).

(** The item that stops a worker. *)
Definition poison (info : ProgressInfo) : Download :=
  mkDownload (Length info) 0 0.

(** Everything [download] sends on the instruction channel. *)
Definition instructionsSent (info : ProgressInfo) (numThreads : nat)
  : list Download :=
  enqueueSegments info ++ replicate numThreads (poison info).

(** Segment [i] as the plan of the specification describes it. *)
Definition segmentSpec (totalLength segmentSize i : Z) : Download :=
  mkDownload (i * segmentSize)
             (Z.min ((i + 1) * segmentSize) totalLength - i * segmentSize)
             i.

(** A list of work items covers [[start, stop)] piece by piece, in order. *)
Fixpoint tiles (start : Z) (l : list Download) (stop : Z) : Prop :=
  match l with
  | [] => start = stop
  | d :: rest =>
      position d = start /\ 0 < size d /\ tiles (start + size d) rest stop
  end.

(** ** Files *)

(** The size of the buffers: [make([]byte, 8192)], [var buf [8192]byte]. *)
Definition bufSize : nat := Z.to_nat 8192.

(** [Read(buf[:n])] at offset [off]: what is there, at most [n] bytes; the
    empty list is the read that returns [0, io.EOF]. *)
Definition fileRead (f : list byte) (off : Z) (n : nat) : list byte :=
  take n (drop (Z.to_nat off) f).

(** [WriteAt(data, off)] on a file opened without [O_APPEND]. A negative
    offset is an error of the call, which the program does not look at;
    writing nothing changes nothing. *)
Definition writeAt (f : list byte) (off : Z) (data : list byte) : list byte :=
  if off <? 0 then f
  else match data with
       | [] => f
       | _ =>
           let o := Z.to_nat off in
           take o f ++ replicate (o - length f)%nat Byte.x00
                  ++ data ++ drop (o + length data)%nat f
       end.

(** [os.Create] yields an empty file; [WriteString] and the encoder
    append to it. *)
Definition magic : list byte := String.list_byte_of_string "MULD".

(** ** The gob encoding of the header

    [encoding/gob] is not part of the repository. The program uses it for the
    two exported fields of [ProgressInfo] ([segments] is unexported and so
    not encoded), and relies on decoding what it encoded and on the header
    ending before [baseOffset]. *)
Class GobCodec := {
  gobEncode : Z -> Z -> list byte;
  (** decoding reads from the start of the stream and ignores what follows
      the value *)
  gobDecode : list byte -> option (Z * Z);
  gob_decode_encode : forall l s rest,
    Int64.in_range l -> Int64.in_range s ->
    gobDecode (gobEncode l s ++ rest) = Some (l, s);
  gob_header_fits : forall l s,
    Int64.in_range l -> Int64.in_range s ->
    (length magic + length (gobEncode l s) <= Z.to_nat baseOffset)%nat
}.

(** The three places the program touches on disk. [writable] says whether
    creating a file or opening one for writing succeeds. *)
Record disk := mkDisk {
  outputFile : option (list byte);
  progressFile : option (list byte);
  writable : bool
}.

Section ResumeStore.
Context `{codec : GobCodec}.

(** [beginProgressFile]: the new content of the progress file, or the
    error of [os.Create]. *)
Definition beginProgressFile (canCreate : bool) (length segmentSize : Z)
  : list byte + string :=
  if canCreate then inl (magic ++ gobEncode length segmentSize)
  else inr "open: permission denied"%string.

(** The inner loop of [readProgressInfo]:
    [for j := 0; j < numRead && i+j < segmentCount; j++]. *)
Fixpoint storeFlags (segmentCount i : Z) (chunk : list byte)
  (segs : list bool) : list bool :=
  match chunk with
  | [] => segs
  | b :: rest =>
      if i <? segmentCount
      then storeFlags segmentCount (i + 1) rest
             (<[Z.to_nat i := Byte.eqb b finishedSegment]> segs)
      else segs
  end.

(** The outer loop of [readProgressInfo], after [Seek(baseOffset)]: the
    read position is [baseOffset + i] throughout. [i] is below
    [segmentCount <= maxSegments] when [numRead <= 8192] is added. *)
Equations? readSegments (f : list byte) (segmentCount i : Z)
  (segs : list bool) : list bool
  by wf (Z.to_nat (segmentCount - i)) lt :=
  readSegments f segmentCount i segs with decide (i < segmentCount) := {
    | right _ := segs
    | left _ with inspect (fileRead f (baseOffset + i) bufSize) := {
        | exist _ nil _ := segs
        | exist _ (cons b bs) _ :=
            readSegments f segmentCount (i + Z.of_nat (length (b :: bs)))
              (storeFlags segmentCount i (b :: bs) segs)
      }
  }.
Proof. simpl. lia. Qed.

Definition zeroInfo : ProgressInfo := mkProgressInfo 0 0 [].

(** [readProgressInfo]: the returned [info] and [err]. (With a decode
    error the fields of [info] are whatever the decoder left; the caller
    overwrites them all, and they are given as zero here.) *)
Definition readProgressInfo (stored : option (list byte))
  : outcome (ProgressInfo * option string) :=
  match stored with
  | None => Ret (zeroInfo, Some "open: no such file or directory"%string)
  | Some f =>
      if negb (bool_decide (fileRead f 0 4%nat = magic))
      then Ret (zeroInfo, Some "invalid magic number"%string)
      else
        match gobDecode (drop 4 f) with
        | None => Ret (zeroInfo, Some "gob: decoding failed"%string)
        | Some (l, s) =>
            let! segmentCount := findSegmentCount l s in
            if segmentCount >? maxSegments
            then Ret (mkProgressInfo l s [], Some "too many segments"%string)
            else
              let! segs := makeBools segmentCount in
              Ret (mkProgressInfo l s (readSegments f segmentCount 0 segs),
                   None)
        end
  end.

(** What [setupProgressFile] returns, and the progress file it leaves. *)
Record setupResult := mkSetupResult {
  sr_progress : option (list byte);
  sr_info : ProgressInfo;
  sr_clean : bool;
  sr_err : option string
}.

Definition setupProgressFile (d : disk) (length segmentSize : Z)
  (forceClean : bool) : outcome setupResult :=
  let! '(info, clean) :=
    (if negb forceClean then
       let! '(info, err) := readProgressInfo (progressFile d) in
       match err with
       | Some _ => Ret (info, true)
       | None =>
           if negb (length =? Length info) then Ret (info, true)
           else
             let! c := findSegmentCount length (SegmentSize info) in
             Ret (info, negb (c =? Z.of_nat (List.length (segments info))))
       end
     else Ret (zeroInfo, true)) in
  if (clean : bool) then
    let! segmentCount := findSegmentCount length segmentSize in
    match beginProgressFile (writable d) length segmentSize with
    | inr e => Ret (mkSetupResult (progressFile d) info clean (Some e))
    | inl f =>
        let! segs := makeBools segmentCount in
        Ret (mkSetupResult (Some f)
               (mkProgressInfo length segmentSize segs) clean None)
    end
  else
    if writable d
    then Ret (mkSetupResult (progressFile d) info clean None)
    else Ret (mkSetupResult (progressFile d) info clean
                (Some "open: permission denied"%string)).
End ResumeStore.

(** ** The fetch worker: [download_segments] *)

(** What [client.Do] gives back: an error, or a status and a body. The body
    is the list of what the successive [resp.Body.Read(buf)] calls return
    (each at most [bufSize] bytes, possibly none with a nil error); after
    the list the read returns [0] and an error (end of stream). *)
Inductive response :=
| TransportError
| Response (status : Z) (body : list (list byte)).

Definition wfBody (body : list (list byte)) : Prop :=
  Forall (fun chunk => (length chunk <= bufSize)%nat) body.

(** What a worker does that the rest of the system can see. *)
Inductive event :=
| EvRecv (d : Download)                   (* down = <-instructions *)
| EvGet (first last : Z)                  (* Range: bytes=first-last *)
| EvWrite (off : Z) (data : list byte)    (* file.WriteAt *)
| EvUpdate (u : ProgressUpdate)           (* updates <- ProgressUpdate{..} *)
| EvMark (off : Z) (b : byte)     (* progressFile.WriteAt(buf[:1], off) *)
| EvExit.                                 (* os.Exit(1) *)

(** The local variables of [download_segments] that live across
    iterations of its loop. *)
Record worker := mkWorker {
  finished : bool;
  down : Download;
  total : Z;
  errorCount : Z
}.

Definition initWorker : worker := mkWorker true (mkDownload 0 0 0) 0 0.

(** [err != nil || (resp.StatusCode != 206 && resp.StatusCode != 200)] *)
Definition failedAttempt (r : response) : bool :=
  match r with
  | TransportError => true
  | Response status _ => negb (status =? 206) && negb (status =? 200)
  end.

(** The same test in the second variant of the program:
    [err != nil || resp.StatusCode != 206]. *)
Definition failedAttemptStrict (r : response) : bool :=
  match r with
  | TransportError => true
  | Response status _ => negb (status =? 206)
  end.

Definition bodyOf (r : response) : list (list byte) :=
  match r with
  | TransportError => []
  | Response _ body => body
  end.

(** The loop [for read < down.size]: the final [read] and [total], and the
    writes and progress updates on the way. *)
Fixpoint readBody (tn : Z) (d : Download) (body : list (list byte))
  (read total : Z) : Z * Z * list event :=
  match body with
  | [] => (read, total, [])
  | chunk :: rest =>
      if read <? size d then
        let n := Z.of_nat (length chunk) in
        let total' := Int64.add total n in
        let '(r, t, evs) := readBody tn d rest (Int64.add read n) total' in
        (r, t,
         EvWrite (Int64.add (position d) read) chunk
           :: EvUpdate (mkProgressUpdate tn total') :: evs)
      else (read, total, [])
  end.

(** One iteration of the outer loop. *)
Inductive iterResult :=
| Continue (w : worker) (channel : list Download) (evs : list event)
| Stopped (channel : list Download) (evs : list event)   (* break *)
| Exited (evs : list event)                              (* os.Exit(1) *)
| Blocked.                          (* nothing to receive on the channel *)

Section Worker.
(** The thread number, whether [http.NewRequest] accepts the URL, and
    which responses count as failed. *)
Variable tn : Z.
Variable urlOk : bool.
Variable failed : response -> bool.

(** From [req, err := http.NewRequest] to the end of the loop body, for
    the item [d] in flight. *)
Definition attempt (w : worker) (d : Download) (channel : list Download)
  (evs0 : list event) (resp : response) : iterResult :=
  if negb urlOk then Exited (evs0 ++ [EvExit])
  else
    let evs1 :=
      evs0 ++ [EvGet (position d)
                 (Int64.sub (Int64.add (position d) (size d)) 1)] in
    if failed resp then
      let errorCount' := Int64.add (errorCount w) 1 in
      if errorCount' >? 3 then Exited (evs1 ++ [EvExit])
      else Continue (mkWorker false d (total w) errorCount') channel evs1
    else
      let '(read, total', evs2) := readBody tn d (bodyOf resp) 0 (total w) in
      if read >=? size d then
        Continue (mkWorker true d total' 0) channel
          (evs1 ++ evs2
             ++ [EvMark (Int64.add baseOffset (segmentNum d))
                   finishedSegment])
      else
        Continue
          (mkWorker false
             (mkDownload (Int64.add (position d) read)
                (Int64.sub (size d) read) (segmentNum d))
             total' 0)
          channel (evs1 ++ evs2).

Definition workerIter (w : worker) (channel : list Download)
  (resp : response) : iterResult :=
  if finished w then
    match channel with
    | [] => Blocked
    | d :: channel' =>
        if size d =? 0 then Stopped channel' [EvRecv d]
        else attempt w d channel' [EvRecv d] resp
    end
  else attempt w (down w) channel [] resp.

(** [download_segments]: the loop, for a worker alone on the channel that
    is answered by [script] in order; [Running] when the script ends
    first. *)
Inductive runEnd :=
| Running (w : worker) (channel : list Download)
| RunStopped (channel : list Download)
| RunExited
| RunBlocked.

Fixpoint download_segments (w : worker) (channel : list Download)
  (script : list response) : list event * runEnd :=
  match script with
  | [] => ([], Running w channel)
  | resp :: script' =>
      match workerIter w channel resp with
      | Continue w' channel' evs =>
          let '(evs', e) := download_segments w' channel' script' in
          (evs ++ evs', e)
      | Stopped channel' evs => (evs, RunStopped channel')
      | Exited evs => (evs, RunExited)
      | Blocked => ([], RunBlocked)
      end
  end.
End Worker.

(** An open file: its bytes, and whether it was opened with [O_APPEND].
    [WriteAt] on a file opened with [O_APPEND] returns an error and writes
    nothing; the program does not look at what [WriteAt] returns. *)
Record handle := mkHandle {
  h_bytes : list byte;
  h_append : bool
}.

Definition handleWriteAt (h : handle) (off : Z) (data : list byte) : handle :=
  if h_append h then h
  else mkHandle (writeAt (h_bytes h) off data) (h_append h).

(** The events of a trace applied to the two open files, the output file
    and the progress file. *)
Definition applyEvent (files : handle * handle) (e : event)
  : handle * handle :=
  match e with
  | EvWrite off data => (handleWriteAt files.1 off data, files.2)
  | EvMark off b => (files.1, handleWriteAt files.2 off [b])
  | _ => files
  end.

Definition applyEvents (files : handle * handle) (evs : list event)
  : handle * handle :=
  foldl applyEvent files evs.

(** The [file.WriteAt] calls of [evs] done one after the other as
    positioned writes on [f], and the [progressFile.WriteAt] calls
    likewise: what they make of a file opened without [O_APPEND]. *)
Definition writesTo (f : list byte) (evs : list event) : list byte :=
  foldl (fun f e =>
           match e with EvWrite off data => writeAt f off data | _ => f end)
    f evs.

Definition marksTo (f : list byte) (evs : list event) : list byte :=
  foldl (fun f e =>
           match e with EvMark off b => writeAt f off [b] | _ => f end)
    f evs.

(** What a worker writes when a segment is complete:
    [buf[0] = finishedSegment] and
    [progressFile.WriteAt(buf[:1], baseOffset+int64(down.segmentNum))]. *)
Definition markSegment (f : list byte) (segmentNum : Z) : list byte :=
  writeAt f (Int64.add baseOffset segmentNum) [finishedSegment].

(** ** The pool of workers

    The goroutines started by [download] share the instruction channel and
    the two files. A step of the pool is one loop iteration of one worker
    that is still running, answered by some response; [os.Exit] in any
    worker stops them all. *)
Record pool := mkPool {
  channel : list Download;
  workers : list (option worker);         (* [None]: the worker has returned *)
  trace : list (nat * event);             (* who did what, oldest first *)
  exited : bool
}.

Definition initPool (sent : list Download) (numThreads : nat) : pool :=
  mkPool sent (replicate numThreads (Some initWorker)) [] false.

Definition tag (t : nat) (evs : list event) : list (nat * event) :=
  map (fun e => (t, e)) evs.

Inductive poolStep (urlOk : bool) (p : pool) : pool -> Prop :=
| StepContinue t w resp w' channel' evs :
    exited p = false -> wfBody (bodyOf resp) ->
    workers p !! t = Some (Some w) ->
    workerIter (Z.of_nat t) urlOk failedAttempt w (channel p) resp
      = Continue w' channel' evs ->
    poolStep urlOk p
      (mkPool channel' (<[t := Some w']> (workers p))
         (trace p ++ tag t evs) false)
| StepStopped t w resp channel' evs :
    exited p = false -> wfBody (bodyOf resp) ->
    workers p !! t = Some (Some w) ->
    workerIter (Z.of_nat t) urlOk failedAttempt w (channel p) resp
      = Stopped channel' evs ->
    poolStep urlOk p
      (mkPool channel' (<[t := None]> (workers p))
         (trace p ++ tag t evs) false)
| StepExited t w resp evs :
    exited p = false -> wfBody (bodyOf resp) ->
    workers p !! t = Some (Some w) ->
    workerIter (Z.of_nat t) urlOk failedAttempt w (channel p) resp
      = Exited evs ->
    poolStep urlOk p
      (mkPool (channel p) (workers p) (trace p ++ tag t evs) true).

Inductive poolReach (urlOk : bool) (p : pool) : pool -> Prop :=
| ReachRefl : poolReach urlOk p p
| ReachStep q r :
    poolReach urlOk p q -> poolStep urlOk q r -> poolReach urlOk p r.

(** The step in which worker [t] is answered by [resp], as a function; the
    pool stays as it is when the worker cannot take that step. *)
Definition poolDo (p : pool) (t : nat) (resp : response) : pool :=
  match exited p, workers p !! t with
  | false, Some (Some w) =>
      match workerIter (Z.of_nat t) true failedAttempt w (channel p) resp with
      | Continue w' channel' evs =>
          mkPool channel' (<[t := Some w']> (workers p))
            (trace p ++ tag t evs) false
      | Stopped channel' evs =>
          mkPool channel' (<[t := None]> (workers p))
            (trace p ++ tag t evs) false
      | Exited evs =>
          mkPool (channel p) (workers p) (trace p ++ tag t evs) true
      | Blocked => p
      end
  | _, _ => p
  end.

(** The events of worker [t] in a trace of the pool. *)
Definition eventsOf (t : nat) (tr : list (nat * event)) : list event :=
  map snd (filter (fun te => te.1 = t) tr).

(** ** The supervisor: [download] *)

(** The answer to [client.Head(url)]. *)
Inductive headResponse :=
| HeadError
| HeadResponse (status contentLength : Z).

(** [findFileLength]: the length, or [None] for [os.Exit(1)]. With
    [err != nil] the message it prints reads [resp.Status] of a nil
    response. *)
Definition findFileLength (h : headResponse) : outcome (option Z) :=
  match h with
  | HeadError => Panic "invalid memory address or nil pointer dereference"
  | HeadResponse status contentLength =>
      if negb (status =? 200) || (contentLength =? -1) then Ret None
      else Ret (Some contentLength)
  end.

Inductive downloadResult :=
| ProbeFailed                                  (* os.Exit(1) *)
| AlreadyDownloaded (d : disk)                 (* return, nothing started *)
| SetupFailed (d : disk)                       (* os.Exit(1) *)
| OpenFailed (d : disk)                        (* os.Exit(1) *)
| Started (d : disk) (info : ProgressInfo) (truncate : bool)
    (sent : list Download).

Section Supervisor.
Context `{codec : GobCodec}.

(** [os.Stat(filename)] followed by [fileinfo.Size() == length]. *)
Definition sizeIs (f : option (list byte)) (length : Z) : bool :=
  match f with
  | Some bytes => Z.of_nat (List.length bytes) =? length
  | None => false
  end.

(** [os.OpenFile(filename, O_RDWR|O_APPEND|O_CREATE [|O_TRUNC], 0666)]:
    the content of the output file once it is open. *)
Definition openOutput (d : disk) (truncate : bool) : option (list byte) :=
  if writable d then
    Some (if truncate then [] else default [] (outputFile d))
  else None.

(** [defer os.Remove(progressFilename)], run when [download] returns. *)
Definition removeProgress (d : disk) : disk :=
  mkDisk (outputFile d) None (writable d).

(** [download], up to the point where everything has been sent on the
    instruction channel. [Started d info truncate sent]: the workers were
    started on the disk [d] and are sent [sent]. *)
Definition download (h : headResponse) (d : disk) (numThreads : nat)
  : outcome downloadResult :=
  let! probed := findFileLength h in
  match probed with
  | None => Ret ProbeFailed
  | Some length =>
      let statFailed := negb (bool_decide (is_Some (outputFile d))) in
      let progMissing := negb (bool_decide (is_Some (progressFile d))) in
      if negb statFailed && sizeIs (outputFile d) length && progMissing
      then Ret (AlreadyDownloaded (removeProgress d))
      else
        let! r := setupProgressFile d length defaultSegmentSize statFailed in
        match sr_err r with
        | Some _ => Ret (SetupFailed (mkDisk (outputFile d) (sr_progress r)
                                        (writable d)))
        | None =>
            let truncate := sr_clean r in
            match openOutput d truncate with
            | None => Ret (OpenFailed (mkDisk (outputFile d) (sr_progress r)
                                         (writable d)))
            | Some out =>
                Ret (Started (mkDisk (Some out) (sr_progress r) (writable d))
                       (sr_info r) truncate
                       (instructionsSent (sr_info r) numThreads))
            end
        end
  end.
End Supervisor.

(** The workers [download] has started, if any. *)
Definition startedPool (r : downloadResult) (numThreads : nat) : option pool :=
  match r with
  | Started _ _ _ sent => Some (initPool sent numThreads)
  | _ => None
  end.

(** The two files as [download] hands them to the workers: the output
    file from [os.OpenFile(filename, O_RDWR|O_APPEND|O_CREATE [|O_TRUNC])];
    the progress file from [os.Create] on a clean start and from
    [os.OpenFile(filename, O_WRONLY|O_APPEND)] on a resume. *)
Definition openedFiles (r : downloadResult) : option (handle * handle) :=
  match r with
  | Started d _ truncate _ =>
      Some (mkHandle (default [] (outputFile d)) true,
            mkHandle (default [] (progressFile d)) (negb truncate))
  | _ => None
  end.

(** ** A gob codec for the header

    The wire format of [encoding/gob] for a struct with two [int64] fields
    named [Length] and [SegmentSize] in a type named [ProgressInfo]: a
    message defining the type, then a message with the value, in which
    fields that are zero are left out. *)
Module Gob.
Definition byteOfZ (z : Z) : byte :=
  default Byte.x00 (Byte.of_N (Z.to_N z)).
Definition zOfByte (b : byte) : Z := Z.of_N (Byte.to_N b).

(** Big-endian bytes of a positive number, without leading zeros. *)
Fixpoint bigEndian (fuel : nat) (z : Z) : list byte :=
  match fuel with
  | O => []
  | S k => if z =? 0 then []
           else bigEndian k (z / 256) ++ [byteOfZ (z mod 256)]
  end.

(** An unsigned integer: below 128 one byte; otherwise the negated byte
    count in one byte, then the bytes. *)
Definition encodeUint (u : Z) : list byte :=
  if u <? 128 then [byteOfZ u]
  else let bs := bigEndian 8 u in
       byteOfZ (256 - Z.of_nat (length bs)) :: bs.

(** A signed integer: bit 0 says whether to complement, the rest is the
    value or its complement, [(^i << 1) | 1] or [i << 1]. *)
Definition encodeInt (i : Z) : list byte :=
  encodeUint (if i <? 0 then 2 * (- i - 1) + 1 else 2 * i).

Definition fromBigEndian (bs : list byte) : Z :=
  foldl (fun acc b => acc * 256 + zOfByte b) 0 bs.

Definition decodeUint (bs : list byte) : option (Z * list byte) :=
  match bs with
  | [] => None
  | b :: rest =>
      if zOfByte b <? 128 then Some (zOfByte b, rest)
      else
        let n := Z.to_nat (256 - zOfByte b) in
        if (8 <? n)%nat || (length rest <? n)%nat then None
        else Some (fromBigEndian (take n rest), drop n rest)
  end.

Definition decodeInt (bs : list byte) : option (Z * list byte) :=
  match decodeUint bs with
  | None => None
  | Some (u, rest) =>
      Some (if Z.odd u then - (u / 2) - 1 else u / 2, rest)
  end.

Definition ascii (s : string) : list byte := String.list_byte_of_string s.

(** The message that defines type 65 as the struct [ProgressInfo]. *)
Definition typeDescriptor : list byte :=
  [Byte.x35; Byte.xff; Byte.x81; Byte.x03; Byte.x01; Byte.x01; Byte.x0c]
    ++ ascii "ProgressInfo"
    ++ [Byte.x01; Byte.xff; Byte.x82; Byte.x00; Byte.x01; Byte.x02;
        Byte.x01; Byte.x06] ++ ascii "Length"
    ++ [Byte.x01; Byte.x04; Byte.x00; Byte.x01; Byte.x0b]
    ++ ascii "SegmentSize"
    ++ [Byte.x01; Byte.x04; Byte.x00; Byte.x00; Byte.x00].

(** The fields of the value: a field number delta, then the value. *)
Definition encodeFields (l s : Z) : list byte :=
  (if l =? 0 then [] else Byte.x01 :: encodeInt l)
    ++ (if s =? 0 then []
        else (if l =? 0 then Byte.x02 else Byte.x01) :: encodeInt s)
    ++ [Byte.x00].

Definition encode (l s : Z) : list byte :=
  let value := [Byte.xff; Byte.x82] ++ encodeFields l s in
  typeDescriptor ++ encodeUint (Z.of_nat (length value)) ++ value.

(** The fields of a value, from field number [field] on. *)
Fixpoint decodeFields (fuel : nat) (field : Z) (acc : Z * Z)
  (bs : list byte) : option (Z * Z) :=
  match fuel with
  | O => None
  | S k =>
      match decodeUint bs with
      | None => None
      | Some (delta, rest) =>
          if delta =? 0 then Some acc
          else
            let field' := field + delta in
            match decodeInt rest with
            | None => None
            | Some (v, rest') =>
                if field' =? 0 then decodeFields k field' (v, acc.2) rest'
                else if field' =? 1
                     then decodeFields k field' (acc.1, v) rest'
                     else None
            end
      end
  end.

Definition decode (bs : list byte) : option (Z * Z) :=
  let n := length typeDescriptor in
  if negb (bool_decide (take n bs = typeDescriptor)) then None
  else
    match decodeUint (drop n bs) with
    | None => None
    | Some (len, rest) =>
        if (length rest <? Z.to_nat len)%nat then None
        else
          match take (Z.to_nat len) rest with
          | b1 :: b2 :: fields =>
              if bool_decide (b1 = Byte.xff) && bool_decide (b2 = Byte.x82)
              then decodeFields 3 (-1) (0, 0) fields
              else None
          | _ => None
          end
    end.
End Gob.

(** ** The statements of the specification, and what the proofs need *)

(** The number of segments of the specification. *)
Definition ceilDiv (a b : Z) : Z := (a + b - 1) / b.

(** The plan claimed by the specification for [(totalLength, segmentSize)]:
    a clean start builds a state, and what is enqueued from it is segment
    [0] to segment [ceil(totalLength/segmentSize) - 1], each as specified,
    tiling [[0, totalLength)]. *)
Definition planClaim (totalLength segmentSize : Z) : Prop :=
  exists info,
    freshInfo totalLength segmentSize = Ret info
    /\ enqueueSegments info
       = map (segmentSpec totalLength segmentSize)
           (seqZ 0 (ceilDiv totalLength segmentSize))
    /\ length (enqueueSegments info)
       = Z.to_nat (ceilDiv totalLength segmentSize)
    /\ tiles 0 (enqueueSegments info) totalLength.

(** Whether the byte of segment [k] says "done". *)
Definition doneAt (f : list byte) (k : nat) : bool :=
  bool_decide (f !! (Z.to_nat baseOffset + k)%nat = Some finishedSegment).

(** The round trip claimed by the specification: the progress file created
    for [(totalLength, segmentSize)], with the segments [marks] marked done,
    reads back as the same lengths and the bitmap that is true exactly at
    [marks]. *)
Definition roundTripClaim `{GobCodec} (totalLength segmentSize : Z)
  (marks : list Z) : Prop :=
  exists f0,
    beginProgressFile true totalLength segmentSize = inl f0
    /\ readProgressInfo (Some (foldl markSegment f0 marks))
       = Ret (mkProgressInfo totalLength segmentSize
                (map (fun k => bool_decide (k ∈ marks))
                   (seqZ 0 (ceilDiv totalLength segmentSize))),
              None).

(** *** The discipline of a worker

    What a worker has in hand: nothing, or an item of which the first [got]
    bytes have been written. *)
Inductive flight :=
| Idle
| InFlight (d : Download) (got : Z).

(** One event, checked against what the worker has in hand: an item is
    received only when idle; a range request asks for exactly the unwritten
    rest of the item; a write continues where the last one ended, and only
    while the item is incomplete; the mark is the byte [finishedSegment] at
    the item's place in the bitmap, and only once the item is complete. *)
Definition checkEvent (fl : flight) (e : event) : option flight :=
  match e, fl with
  | EvRecv d, Idle => Some (if size d =? 0 then Idle else InFlight d 0)
  | EvGet a b, InFlight d got =>
      if (got <? size d) && (a =? position d + got)
         && (b =? position d + size d - 1)
      then Some fl else None
  | EvWrite off data, InFlight d got =>
      if (got <? size d) && (off =? position d + got)
      then Some (InFlight d (got + Z.of_nat (length data))) else None
  | EvMark off b, InFlight d got =>
      if (size d <=? got) && (off =? baseOffset + segmentNum d)
         && bool_decide (b = finishedSegment)
      then Some Idle else None
  | EvUpdate _, _ => Some fl
  | EvExit, _ => Some fl
  | _, _ => None
  end.

Fixpoint checkEvents (fl : flight) (evs : list event) : option flight :=
  match evs with
  | [] => Some fl
  | e :: rest =>
      match checkEvent fl e with
      | Some fl' => checkEvents fl' rest
      | None => None
      end
  end.

(** Every byte of [[lo, hi)] lies in a write of [evs]. *)
Definition coveredBy (evs : list event) (lo hi : Z) : Prop :=
  forall x, lo <= x < hi ->
    exists off data,
      EvWrite off data ∈ evs /\ off <= x < off + Z.of_nat (length data).

Definition isRecv (e : event) : bool :=
  match e with EvRecv _ => true | _ => false end.

Definition isMark (e : event) : bool :=
  match e with EvMark _ _ => true | _ => false end.

Definition isMarkAt (off : Z) (e : event) : bool :=
  match e with EvMark o _ => o =? off | _ => false end.

(** No item is received and none is marked in [evs]. *)
Definition quiet (evs : list event) : bool :=
  forallb (fun e => negb (isRecv e || isMark e)) evs.

(** Every mark in [evs] is the mark of the item received last before it,
    and the writes between the two cover the item. *)
Definition marksAfterWrites (evs : list event) : Prop :=
  forall pre off b post,
    evs = pre ++ EvMark off b :: post ->
    exists pre' d mid,
      pre = pre' ++ EvRecv d :: mid
      /\ quiet mid = true
      /\ off = baseOffset + segmentNum d
      /\ b = finishedSegment
      /\ coveredBy mid (position d) (position d + size d).

(** An item of the plan: a range inside [int64] with room for one more
    buffer, and a segment number whose place in the bitmap is an [int64]. *)
Definition wfItem (d : Download) : Prop :=
  0 <= position d /\ 0 < size d
  /\ position d + size d + Z.of_nat bufSize <= Int64.max_int
  /\ 0 <= segmentNum d /\ baseOffset + segmentNum d <= Int64.max_int.

(** What is sent to the workers: items of the plan, no segment twice, and
    poison. *)
Definition wfSent (sent : list Download) : Prop :=
  Forall (fun d => size d = 0 \/ wfItem d) sent
  /\ NoDup (map segmentNum (filter (fun d => size d <> 0) sent)).

(** The item [d] with its first [got] bytes taken off: what the worker
    keeps in [down] after a short read. *)
Definition shrink (d : Download) (got : Z) : Download :=
  mkDownload (position d + got) (size d - got) (segmentNum d).

(** The worker's variables agree with what it has in hand. *)
Definition couple (w : worker) (fl : flight) : Prop :=
  match fl with
  | Idle => finished w = true
  | InFlight d got =>
      finished w = false /\ wfItem d /\ 0 <= got < size d
      /\ down w = shrink d got
  end.

(** The number of bytes a body delivers. *)
Definition bodyLength (body : list (list byte)) : Z :=
  foldr (fun chunk n => Z.of_nat (length chunk) + n) 0 body.

(** The items received in a list of events. *)
Definition recvItems (evs : list event) : list Download :=
  omap (fun e => match e with EvRecv d => Some d | _ => None end) evs.

(** Whether [d] is an item (not poison) whose place in the bitmap is
    [off]. *)
Definition itemAt (off : Z) (d : Download) : bool :=
  negb (size d =? 0) && (baseOffset + segmentNum d =? off).

Definition b2n (b : bool) : nat := if b then 1%nat else 0%nat.

Definition count {A} (f : A -> bool) (l : list A) : nat :=
  sum_list_with (fun a => b2n (f a)) l.

Definition inflightAt (off : Z) (fl : flight) : bool :=
  match fl with
  | Idle => false
  | InFlight d _ => baseOffset + segmentNum d =? off
  end.


(** Every mark writes [finishedSegment]. *)
Definition marksFinished (evs : list event) : Prop :=
  Forall (fun e => forall off b, e = EvMark off b -> b = finishedSegment) evs.

Definition isPoison (d : Download) : bool := size d =? 0.

Definition hasReturned (o : option worker) : bool :=
  match o with None => true | Some _ => false end.

(** What holds of every pool that can be reached: [flights] says what
    each worker has in hand. *)
Record poolInv (sent : list Download) (p : pool) (flights : list flight)
  : Prop := mkPoolInv {
  inv_len : length flights = length (workers p);
  inv_check : forall t fl,
    flights !! t = Some fl ->
    checkEvents Idle (eventsOf t (trace p)) = Some fl;
  inv_none : forall t,
    (length (workers p) <= t)%nat -> eventsOf t (trace p) = [];
  inv_couple : exited p = false ->
    forall t fl o,
      flights !! t = Some fl -> workers p !! t = Some o ->
      match o with
      | Some w => couple w fl
      | None => fl = Idle
      end;
  inv_count : forall off,
    (count (isMarkAt off) (map snd (trace p))
     + sum_list_with (fun fl => b2n (inflightAt off fl)) flights
     = count (itemAt off) (recvItems (map snd (trace p))))%nat;
  inv_chan : exists rest,
    recvItems (map snd (trace p)) ++ rest = sent
    /\ (exited p = false -> rest = channel p);
  inv_stop : exited p = false ->
    count isPoison (recvItems (map snd (trace p)))
    = count hasReturned (workers p);
  inv_marks : marksFinished (map snd (trace p))
}.

(** What the specification says of the mark calls, for a pool [p] reached
    from the start with the work items [items] and then the poison on the
    channel:
    - a worker marks an item only after receiving it and issuing writes
      that cover all of it;
    - no place of the bitmap is marked twice;
    - when every worker has returned, every item has been marked once. *)
Definition markCalls (items : list Download) (p : pool) : Prop :=
  (forall t, marksAfterWrites (eventsOf t (trace p)))
  /\ (forall off, (count (isMarkAt off) (map snd (trace p)) <= 1)%nat)
  /\ (exited p = false -> Forall (fun o => o = None) (workers p) ->
      forall d, d ∈ items ->
        count (isMarkAt (baseOffset + segmentNum d)) (map snd (trace p))
        = 1%nat).

(** The range request for the item [d]. *)
Definition getOf (d : Download) : event :=
  EvGet (position d) (Int64.sub (Int64.add (position d) (size d)) 1).

(** What it is for an attempt to count as failed: the retry counter goes up
    by one, nothing is read or written, and past three the process exits. *)
Definition countedAsFailed (tn : Z) (failed : response -> bool) (w : worker)
  (d : Download) (ch : list Download) (evs : list event) (resp : response)
  : Prop :=
  attempt tn true failed w d ch evs resp
  = if Int64.add (errorCount w) 1 >? 3
    then Exited ((evs ++ [getOf d]) ++ [EvExit])
    else Continue (mkWorker false d (total w) (Int64.add (errorCount w) 1))
           ch (evs ++ [getOf d]).

(** The claim of the specification on failed attempts: every response
    other than a 206 counts as failed. *)
Definition fetchFailureClaim (failed : response -> bool) : Prop :=
  forall tn w d ch evs resp,
    (forall body, resp <> Response 206 body) ->
    countedAsFailed tn failed w d ch evs resp.

(** The retry budget of the specification, for a worker that takes the
    item [d] from the channel and is answered by [script], all failures:
    up to three answers leave the item in hand with the failures counted;
    the fourth ends the process, and the item has not been marked. *)
Definition retryBudget (tn : Z) (failed : response -> bool) (w : worker)
  (d : Download) (ch : list Download) (script : list response) : Prop :=
  download_segments tn true failed w (d :: ch) script
  = if decide (length script < 4)%nat
    then (EvRecv d :: replicate (length script) (getOf d),
          Running (mkWorker false d (total w) (Z.of_nat (length script))) ch)
    else (EvRecv d :: replicate 4 (getOf d) ++ [EvExit], RunExited).




(** The clean start of the specification for a remote length: a fresh
    progress file, an empty output file, a state with every segment
    pending, and every segment of the plan sent, then the poison. *)
Definition cleanStart `{GobCodec} (length : Z) (numThreads : nat)
  : downloadResult :=
  let info :=
    mkProgressInfo length defaultSegmentSize
      (replicate (Z.to_nat (ceilDiv length defaultSegmentSize)) false) in
  Started
    (mkDisk (Some []) (Some (magic ++ gobEncode length defaultSegmentSize))
       true)
    info true
    (map (segmentSpec length defaultSegmentSize)
       (seqZ 0 (ceilDiv length defaultSegmentSize))
     ++ replicate numThreads (poison info)).

(** A disk to try things on: a progress file written for 5 bytes in
    segments of 2, with segment 0 marked. *)
Definition exampleStored `{GobCodec} : list byte :=
  markSegment (magic ++ gobEncode 5 2) 0.

(** A run to try things on: one worker, one item of two bytes that comes
    in one piece, then the poison. *)
Definition exampleSent : list Download :=
  [mkDownload 0 2 0; mkDownload 2 0 0].

Definition examplePool : pool :=
  poolDo
    (poolDo (initPool exampleSent 1) 0
       (Response 206 [[Byte.x41; Byte.x42]]))
    0 TransportError.

(** ** More of the program *)

(** [countTrue]: how many entries of the bitmap are done. The count never
    passes the length of the slice. *)
Definition countTrue (arr : list bool) : Z :=
  foldl (fun count b => if b : bool then count + 1 else count) 0 arr.

(** *** [print_progress]

    The updates the printer will find on its channel are a list. What it
    shows is formatted from floating-point numbers and is left out; its
    integer state is kept: [counts] per thread and [total]. *)
Record printer := mkPrinter {
  counts : list Z;
  shown : Z                       (* [total] *)
}.

Inductive printEnd :=
| PrintReturned (st : printer)    (* the loop was left *)
| PrintWaiting (st : printer).    (* nothing more on the channel *)

(** The loop that prints: [break] on a negative count, otherwise
    [total += update.downloaded - counts[update.threadnum]] and
    [counts[update.threadnum] = update.downloaded]. The thread number is
    a [uint], never negative. *)
Fixpoint printLoop (st : printer) (updates : list ProgressUpdate)
  : outcome printEnd :=
  match updates with
  | [] => Ret (PrintWaiting st)
  | update :: rest =>
      if downloaded update <? 0 then Ret (PrintReturned st)
      else
        match counts st !! Z.to_nat (threadnum update) with
        | None => Panic "index out of range"
        | Some c =>
            printLoop
              (mkPrinter
                 (<[Z.to_nat (threadnum update) := downloaded update]>
                    (counts st))
                 (Int64.add (shown st) (Int64.sub (downloaded update) c)))
              rest
        end
  end.

(** The loop of the quiet mode, which only reads:
    [for update := <-updates; update.downloaded >= 0; { update = <-updates }]. *)
Fixpoint quietLoop (st : printer) (updates : list ProgressUpdate)
  : outcome printEnd :=
  match updates with
  | [] => Ret (PrintWaiting st)
  | update :: rest =>
      if downloaded update >=? 0 then quietLoop st rest
      else Ret (PrintReturned st)
  end.

Definition print_progress (updates : list ProgressUpdate) (numThreads : nat)
  (quiet : bool) : outcome printEnd :=
  if quiet then quietLoop (mkPrinter [] 0) updates
  else printLoop (mkPrinter (replicate numThreads 0) 0) updates.

(** The updates of a trace, in the order they were sent. *)
Definition updatesOf (evs : list event) : list ProgressUpdate :=
  omap (fun e => match e with EvUpdate u => Some u | _ => None end) evs.

(** The bytes handed to [file.WriteAt] in a list of events: the sum of the
    [n] of the worker's loop. Whether they reach the file is up to the
    open file (see [handleWriteAt]). *)
Definition bytesHanded (evs : list event) : Z :=
  foldr (fun e n =>
           match e with
           | EvWrite _ data => Z.of_nat (length data) + n
           | _ => n
           end) 0 evs.

(** *** The second variant of the program

    The repository holds an older variant of the same program. Its
    [findFileLength], [beginProgressFile] and [readProgressInfo] do what
    those above do ([readProgressInfo] returns the three fields one by
    one); its [setupProgressFile] and [download] are written differently,
    and follow. *)
Module Variant.

(** What [setupProgressFile] returns, and the progress file it leaves. *)
Record setup := mkSetup {
  su_progress : option (list byte);
  su_segmentSize : Z;
  su_segmentCount : Z;
  su_segments : list bool;
  su_err : option string
}.

(** [for seg := int64(0); seg < segmentCount; seg++ { if segments[seg]
    { finishedSegments++ } }], with [fuel] iterations to go. *)
Fixpoint countFinished (segments : list bool) (seg : Z) (fuel : nat)
  (finishedSegments : Z) : outcome Z :=
  match fuel with
  | O => Ret finishedSegments
  | S fuel' =>
      match segments !! Z.to_nat seg with
      | None => Panic "index out of range"
      | Some b =>
          countFinished segments (seg + 1) fuel'
            (if b : bool then finishedSegments + 1 else finishedSegments)
      end
  end.

(** The enqueue loop, [for seg := int64(0); seg < segmentCount; seg++],
    which reads [segments[seg]]; its body is that of the loop above. *)
Fixpoint enqueueLoop (info : ProgressInfo) (seg : Z) (fuel : nat)
  : outcome (list Download) :=
  match fuel with
  | O => Ret []
  | S fuel' =>
      match segments info !! Z.to_nat seg with
      | None => Panic "index out of range"
      | Some b =>
          let! rest := enqueueLoop info (seg + 1) fuel' in
          Ret (if b : bool then rest else segmentInstruction info seg :: rest)
      end
  end.

Section Supervisor.
Context `{codec : GobCodec}.

Definition setupProgressFile (d : disk) (length increment : Z)
  (forceClean : bool) : outcome setup :=
  let! '(segs, segmentSize, clean) :=
    (if negb forceClean then
       let! '(info, err) := readProgressInfo (progressFile d) in
       match err with
       | Some _ => Ret ([], increment, true)
       | None =>
           if negb (length =? Length info) then Ret ([], increment, true)
           else Ret (segments info, SegmentSize info, false)
       end
     else Ret ([], increment, true)) in
  let! segmentCount := findSegmentCount length segmentSize in
  if (clean : bool) then
    match beginProgressFile (writable d) length segmentSize with
    | inr e =>
        Ret (mkSetup (progressFile d) segmentSize segmentCount segs (Some e))
    | inl f =>
        let! segs' := makeBools segmentCount in
        Ret (mkSetup (Some f) segmentSize segmentCount segs' None)
    end
  else
    let! _ := countFinished segs 0 (Z.to_nat segmentCount) 0 in
    if writable d
    then Ret (mkSetup (progressFile d) segmentSize segmentCount segs None)
    else Ret (mkSetup (progressFile d) segmentSize segmentCount segs
                (Some "open: permission denied"%string)).

(** [download]: the output file is opened without [O_TRUNC] whatever
    [setupProgressFile] decided. The state the workers are started on is
    given as a [ProgressInfo] to compare. *)
Definition download (h : headResponse) (d : disk) (numThreads : nat)
  : outcome downloadResult :=
  let! probed := findFileLength h in
  match probed with
  | None => Ret ProbeFailed
  | Some length =>
      let statFailed := negb (bool_decide (is_Some (outputFile d))) in
      let progMissing := negb (bool_decide (is_Some (progressFile d))) in
      if negb statFailed && sizeIs (outputFile d) length && progMissing
      then Ret (AlreadyDownloaded (removeProgress d))
      else
        let! r := setupProgressFile d length defaultSegmentSize statFailed in
        match su_err r with
        | Some _ => Ret (SetupFailed (mkDisk (outputFile d) (su_progress r)
                                        (writable d)))
        | None =>
            match openOutput d false with
            | None => Ret (OpenFailed (mkDisk (outputFile d) (su_progress r)
                                         (writable d)))
            | Some out =>
                let info :=
                  mkProgressInfo length (su_segmentSize r) (su_segments r) in
                let! items :=
                  enqueueLoop info 0 (Z.to_nat (su_segmentCount r)) in
                Ret (Started (mkDisk (Some out) (su_progress r) (writable d))
                       info false
                       (items ++ replicate numThreads (mkDownload length 0 0)))
            end
        end
  end.
End Supervisor.
End Variant.

(** A result of [download] with the output file left untruncated: what
    the second variant makes of the same start. *)
Definition keepOutput (d : disk) (r : downloadResult) : downloadResult :=
  match r with
  | Started d' info _ sent =>
      Started (mkDisk (Some (default [] (outputFile d))) (progressFile d')
                 (writable d'))
        info false sent
  | _ => r
  end.

(** *** More on the pool *)

(** The events of one iteration, however it ends. *)
Definition iterEvents (r : iterResult) : list event :=
  match r with
  | Continue _ _ evs | Stopped _ evs | Exited evs => evs
  | Blocked => []
  end.

(** A write of at most one buffer. *)
Definition smallWrite (e : event) : Prop :=
  match e with
  | EvWrite _ data => (length data <= bufSize)%nat
  | _ => True
  end.

(** The item a worker asks the server for in its next iteration: the one
    it holds, or the one it is about to receive. *)
Definition nextItem (w : worker) (ch : list Download) : option Download :=
  if finished w then head ch else Some (down w).

(** A server that holds [resource] and answers a range request with bytes
    of the resource from the first byte asked for on, in any number of
    pieces, stopping where it likes (a connection may drop) and at the end
    of the resource at the latest. *)
Definition honestBody (resource : list byte) (d : Download)
  (body : list (list byte)) : Prop :=
  concat body `prefix_of` drop (Z.to_nat (position d)) resource.

Definition honest (resource : list byte) (w : worker) (ch : list Download)
  (resp : response) : Prop :=
  failedAttempt resp = true
  \/ forall d, nextItem w ch = Some d -> honestBody resource d (bodyOf resp).

(** The pools reached when every answer is honest. *)
Inductive honestReach (resource : list byte) (p : pool) : pool -> Prop :=
| HonestRefl : honestReach resource p p
| HonestStep q t w resp :
    honestReach resource p q ->
    workers q !! t = Some (Some w) ->
    wfBody (bodyOf resp) -> honest resource w (channel q) resp ->
    honestReach resource p (poolDo q t resp).

(** A write that puts bytes of [resource] where they belong. *)
Definition honestWrite (resource : list byte) (e : event) : Prop :=
  match e with
  | EvWrite off data =>
      0 <= off
      /\ forall (i : nat) b,
           data !! i = Some b -> resource !! (Z.to_nat off + i)%nat = Some b
  | _ => True
  end.

(** The state [print_progress] ends in, and the sum of its counts. *)
Definition printerOf (e : printEnd) : printer :=
  match e with PrintReturned st | PrintWaiting st => st end.

Definition sumZ (l : list Z) : Z := foldr Z.add 0 l.

(** The printer has followed the pool [p]: having read every update of
    the trace it waits for more, its [total] is the number of bytes the
    workers have read and handed to [file.WriteAt], its count for each
    thread is the number of bytes that thread has handed over, and so is
    the [total] variable of each worker still running. *)
Definition printerFollows (numThreads : nat) (p : pool) : Prop :=
  exists st,
    print_progress (updatesOf (map snd (trace p))) numThreads false
    = Ret (PrintWaiting st)
    /\ length (counts st) = numThreads
    /\ shown st = bytesHanded (map snd (trace p))
    /\ (forall t, (t < numThreads)%nat ->
          counts st !! t = Some (bytesHanded (eventsOf t (trace p))))
    /\ (forall t w, workers p !! t = Some (Some w) ->
          total w = bytesHanded (eventsOf t (trace p))).

(** Whether [evs] holds a mark call at the place of segment [k]. *)
Definition markedIn (evs : list event) (k : nat) : bool :=
  existsb (isMarkAt (baseOffset + Z.of_nat k)) evs.

(** A mark of the byte [finishedSegment] at a place of the bitmap. *)
Definition markInBitmap (e : event) : Prop :=
  forall off b,
    e = EvMark off b ->
    b = finishedSegment /\ baseOffset <= off <= Int64.max_int.

(** A resumed run to try things on: five bytes in segments of two, the
    first segment done; one worker fetches the other two. *)
Definition exampleResource : list byte :=
  [Byte.x41; Byte.x42; Byte.x43; Byte.x44; Byte.x45].

Definition exampleResumed : pool :=
  poolDo
    (poolDo
       (poolDo
          (initPool
             (instructionsSent (mkProgressInfo 5 2 [true; false; false]) 1) 1)
          0 (Response 206 [[Byte.x43; Byte.x44]]))
       0 (Response 206 [[Byte.x45]]))
    0 TransportError.

(** *** Runs of [download] *)

(** An answer that brings all of the item [d] from [resource], byte by
    byte. *)
Definition fullAnswer (resource : list byte) (d : Download) : response :=
  Response 206
    (map (fun b => [b])
       (take (Z.to_nat (size d)) (drop (Z.to_nat (position d)) resource))).

(** The run in which the first worker fetches every item, each in one
    answer, and then every worker takes its poison. *)
Fixpoint serveAll (resource : list byte) (p : pool) (items : list Download)
  : pool :=
  match items with
  | [] => p
  | d :: rest => serveAll resource (poolDo p 0 (fullAnswer resource d)) rest
  end.

Fixpoint stopAll (p : pool) (k : nat) : pool :=
  match k with
  | O => p
  | S k' => poolDo (stopAll p k') k' TransportError
  end.

Definition completeRun (resource : list byte) (items : list Download)
  (psn : Download) (numThreads : nat) : pool :=
  stopAll
    (serveAll resource
       (initPool (items ++ replicate numThreads psn) numThreads) items)
    numThreads.

(** A worker that is running with nothing in hand. *)
Definition idleWorker (o : option worker) : Prop :=
  exists w, o = Some w /\ finished w = true.

(** The pool can run to the end: every worker returns and none ends the
    process. *)
Definition canComplete (sent : list Download) (numThreads : nat) : Prop :=
  exists q,
    poolReach true (initPool sent numThreads) q
    /\ exited q = false /\ Forall (fun o => o = None) (workers q).

(** The same against an honest server that holds [resource]. *)
Definition completes (resource : list byte) (sent : list Download)
  (numThreads : nat) : Prop :=
  exists q,
    honestReach resource (initPool sent numThreads) q
    /\ exited q = false /\ Forall (fun o => o = None) (workers q).

(** The done entries of the progress file during the run that led to [p],
    on the two files [files] that were opened clean ([truncate]) or for a
    resume, after the first [m] events, for every [m]:
    - on a clean start the entry of segment [k] says "done" exactly when a
      mark call for [k] is among the events so far; on a resume the
      progress file is what it was;
    - an entry that says "done" keeps saying so;
    - on a clean start, when every worker has returned, every entry of the
      bitmap says "done";
    - the output file is what it was when it was opened. *)
Definition doneEntries (truncate : bool) (info : ProgressInfo)
  (files : handle * handle) (p : pool) : Prop :=
  (forall m k,
     if truncate
     then doneAt (h_bytes (applyEvents files
                             (take m (map snd (trace p)))).2) k
          = markedIn (take m (map snd (trace p))) k
     else h_bytes (applyEvents files (take m (map snd (trace p)))).2
          = h_bytes files.2)
  /\ (forall m m' k, (m <= m')%nat ->
        doneAt (h_bytes (applyEvents files
                           (take m (map snd (trace p)))).2) k = true ->
        doneAt (h_bytes (applyEvents files
                           (take m' (map snd (trace p)))).2) k = true)
  /\ (truncate = true -> exited p = false ->
      Forall (fun o => o = None) (workers p) ->
      forall k : nat,
        Z.of_nat k < ceilDiv (Length info) (SegmentSize info) ->
        doneAt (h_bytes (applyEvents files (map snd (trace p))).2) k = true)
  /\ (forall m,
        h_bytes (applyEvents files (take m (map snd (trace p)))).1
        = h_bytes files.1).

(** Two workers, one item: the first worker has fetched the item, the
    second has taken its poison. *)
Definition examplePair : pool :=
  poolDo
    (poolDo
       (initPool [mkDownload 0 2 0; mkDownload 2 0 0; mkDownload 2 0 0] 2)
       0 (Response 206 [[Byte.x41; Byte.x42]]))
    1 TransportError.

(** The disk of a resume: two bytes of the output file, and the progress
    file [exampleStored]. *)
Definition exampleDisk `{GobCodec} : disk :=
  mkDisk (Some [Byte.x41; Byte.x42]) (Some exampleStored) true.

(** The state and the disk [download] starts the workers on for a resource
    of two bytes when nothing is on disk, and the state it resumes from
    [exampleDisk]. *)
Definition exampleFresh : ProgressInfo :=
  mkProgressInfo 2 defaultSegmentSize [false].

Definition exampleFreshDisk `{GobCodec} : disk :=
  mkDisk (Some []) (Some (magic ++ gobEncode 2 defaultSegmentSize)) true.

Definition exampleInfo : ProgressInfo :=
  mkProgressInfo 5 2 [true; false; false].

(** * Properties *)

(** ** Machine arithmetic *)

Lemma wrap_id z : Int64.in_range z -> Int64.wrap z = z.
Proof.
  unfold Int64.in_range, Int64.min_int, Int64.max_int, Int64.wrap. intros H.
  rewrite Z.mod_small; lia.
Qed.

Lemma wrap_in_range z : Int64.in_range (Int64.wrap z).
Proof.
  unfold Int64.in_range, Int64.min_int, Int64.max_int, Int64.wrap.
  pose proof (Z.mod_pos_bound (z + 2 ^ 63) (2 ^ 64)). lia.
Qed.

Lemma max_int_val : Int64.max_int = 9223372036854775807.
Proof. reflexivity. Qed.

Lemma min_int_val : Int64.min_int = -9223372036854775808.
Proof. reflexivity. Qed.

Lemma wrap_wrap_add a b : Int64.wrap (Int64.wrap a + b) = Int64.wrap (a + b).
Proof.
  unfold Int64.wrap. f_equal.
  replace ((a + 2 ^ 63) mod 2 ^ 64 - 2 ^ 63 + b + 2 ^ 63)
    with ((a + 2 ^ 63) mod 2 ^ 64 + b) by lia.
  rewrite Zplus_mod_idemp_l. f_equal. lia.
Qed.

Lemma sub_add_wrap a b c :
  Int64.sub (Int64.add a b) c = Int64.wrap (a + b - c).
Proof.
  unfold Int64.sub, Int64.add.
  replace (Int64.wrap (a + b) - c) with (Int64.wrap (a + b) + - c) by lia.
  rewrite wrap_wrap_add. f_equal; lia.
Qed.

Ltac in_range_solver :=
  unfold Int64.in_range; rewrite ?max_int_val, ?min_int_val in *;
  unfold baseOffset, bufSize in *;
  first [lia | nia].

(** Rewrites [wrap z] to [z] wherever [z] is seen to be in range. *)
Ltac unwrap :=
  unfold Int64.add, Int64.sub, Int64.mul, Int64.quo;
  repeat match goal with
         | |- context [Int64.wrap ?z] =>
             rewrite (wrap_id z) by in_range_solver
         end.

(** ** The segment plan *)

Lemma ceilDiv_spec a b :
  0 <= a -> 0 < b ->
  0 <= ceilDiv a b /\ (ceilDiv a b - 1) * b < a <= ceilDiv a b * b.
Proof.
  intros Ha Hb. unfold ceilDiv.
  pose proof (Z.div_mod (a + b - 1) b ltac:(lia)) as Hdm.
  pose proof (Z.mod_pos_bound (a + b - 1) b Hb) as Hm.
  assert (0 <= (a + b - 1) / b) by (apply Z.div_pos; lia).
  nia.
Qed.

Lemma ceilDiv_unique a b n :
  0 < b -> (n - 1) * b < a <= n * b -> n = ceilDiv a b.
Proof.
  intros Hb Hn. unfold ceilDiv.
  apply Z.div_unique with (r := a + b - 1 - b * n); lia.
Qed.

Lemma findSegmentCount_exact length segmentSize :
  0 <= length -> 0 < segmentSize ->
  length + segmentSize - 1 <= Int64.max_int ->
  findSegmentCount length segmentSize = Ret (ceilDiv length segmentSize).
Proof.
  intros Hl Hs Hmax. rewrite max_int_val in Hmax.
  unfold findSegmentCount, ceilDiv.
  destruct (Z.eqb_spec segmentSize 0) as [->|_]; [lia|].
  f_equal. rewrite <- Z.quot_div_nonneg by lia.
  assert (0 <= (length + segmentSize - 1) ÷ segmentSize
            <= length + segmentSize - 1).
  { split; [apply Z.quot_pos; lia|].
    apply Z.quot_le_upper_bound; nia. }
  rewrite sub_add_wrap. unwrap. done.
Qed.

Lemma freshInfo_exact length segmentSize :
  0 <= length -> 0 < segmentSize ->
  length + segmentSize - 1 <= Int64.max_int ->
  freshInfo length segmentSize
  = Ret (mkProgressInfo length segmentSize
           (replicate (Z.to_nat (ceilDiv length segmentSize)) false)).
Proof.
  intros Hl Hs Hmax. unfold freshInfo.
  rewrite findSegmentCount_exact by done. simpl.
  unfold makeBools.
  pose proof (ceilDiv_spec length segmentSize Hl Hs) as [Hn _].
  destruct (Z.ltb_spec (ceilDiv length segmentSize) 0); [lia|done].
Qed.

Lemma enqueueFrom_all_pending info (k : nat) seg :
  enqueueFrom info seg (replicate k false)
  = map (segmentInstruction info) (seqZ seg (Z.of_nat k)).
Proof.
  revert seg. induction k as [|k IH]; intros seg; [done|].
  rewrite seqZ_cons by lia. simpl replicate. simpl enqueueFrom.
  rewrite IH. simpl. do 3 f_equal; lia.
Qed.

Lemma segmentInstruction_spec length segmentSize segs i :
  0 <= length -> 0 < segmentSize ->
  length + segmentSize - 1 <= Int64.max_int ->
  0 <= i -> i * segmentSize < length ->
  segmentInstruction (mkProgressInfo length segmentSize segs) i
  = segmentSpec length segmentSize i.
Proof.
  intros Hl Hs Hmax Hi Hlt. rewrite max_int_val in Hmax.
  unfold segmentInstruction, segmentSpec. simpl.
  unwrap.
  destruct (Z.gtb_spec (i * segmentSize + segmentSize) length).
  - unwrap. f_equal. lia.
  - f_equal. lia.
Qed.

Lemma tiles_segmentSpec length segmentSize (k : nat) i :
  0 < segmentSize -> 0 <= i ->
  (i + Z.of_nat k - 1) * segmentSize < length
    <= (i + Z.of_nat k) * segmentSize ->
  tiles (Z.min (i * segmentSize) length)
    (map (segmentSpec length segmentSize) (seqZ i (Z.of_nat k))) length.
Proof.
  intros Hs. revert i. induction k as [|k IH]; intros i Hi Hn.
  - simpl. lia.
  - rewrite seqZ_cons by lia. simpl.
    assert (i * segmentSize <= (i + Z.of_nat (S k) - 1) * segmentSize)
      by (apply Z.mul_le_mono_nonneg_r; lia).
    split_and!; [lia|lia|].
    replace (Z.pred (Z.of_nat (S k))) with (Z.of_nat k) by lia.
    replace (Z.min (i * segmentSize) length
             + (Z.min ((i + 1) * segmentSize) length - i * segmentSize))
      with (Z.min (Z.succ i * segmentSize) length) by lia.
    apply IH; [lia|].
    replace (Z.succ i + Z.of_nat k) with (i + Z.of_nat (S k)) by lia. done.
Qed.

Lemma enqueueSegments_fresh length segmentSize :
  0 <= length -> 0 < segmentSize ->
  length + segmentSize - 1 <= Int64.max_int ->
  enqueueSegments
    (mkProgressInfo length segmentSize
       (replicate (Z.to_nat (ceilDiv length segmentSize)) false))
  = map (segmentSpec length segmentSize)
      (seqZ 0 (ceilDiv length segmentSize)).
Proof.
  intros Hl Hs Hmax.
  pose proof (ceilDiv_spec length segmentSize Hl Hs) as [Hn Hc].
  unfold enqueueSegments. simpl segments.
  rewrite enqueueFrom_all_pending, Z2Nat.id by done.
  apply list_eq_Forall2, Forall2_fmap, Forall2_same_length_lookup_2; [done|].
  intros k i i' Hi Hi'. rewrite Hi in Hi'. inversion Hi'; subst i'.
  apply lookup_seqZ in Hi as [-> Hk].
  apply segmentInstruction_spec; try done; try lia.
  assert ((0 + Z.of_nat k) * segmentSize
          <= (ceilDiv length segmentSize - 1) * segmentSize)
    by (apply Z.mul_le_mono_nonneg_r; lia).
  lia.
Qed.

(** C1 (as amended): for every [totalLength >= 0] and [segmentSize > 0]
    whose sum less one is an [int64], a clean start enqueues exactly
    [ceil(totalLength/segmentSize)] segments, segment [i] starting at
    [i*segmentSize] with length
    [min((i+1)*segmentSize, totalLength) - i*segmentSize], and the segments
    tile [[0, totalLength)] in order, without gap or overlap. *)
Theorem plan_tiles_in_range (totalLength segmentSize : Z) :
  0 <= totalLength -> 0 < segmentSize ->
  totalLength + segmentSize - 1 <= Int64.max_int ->
  planClaim totalLength segmentSize.
Proof.
  intros Hl Hs Hmax.
  pose proof (ceilDiv_spec totalLength segmentSize Hl Hs) as [Hn Hc].
  eexists. split; [by apply freshInfo_exact|].
  rewrite enqueueSegments_fresh by done.
  split_and!; [done| |].
  - rewrite length_fmap, length_seqZ. done.
  - pose proof (tiles_segmentSpec totalLength segmentSize
                  (Z.to_nat (ceilDiv totalLength segmentSize)) 0 Hs) as Ht.
    rewrite Z2Nat.id in Ht by done.
    replace (Z.min (0 * segmentSize) totalLength) with 0 in Ht by lia.
    apply Ht; lia.
Qed.

Lemma plan_tiles_in_range_witness : planClaim 2500000 1000000.
Proof.
  apply (plan_tiles_in_range 2500000 1000000);
    [lia | lia | unfold Int64.max_int; lia].
Defined.

(** The example of the specification: 2,500,000 bytes in segments of
    1,000,000. *)
Example plan_example :
  (let! info := freshInfo 2500000 1000000 in Ret (enqueueSegments info))
  = Ret [mkDownload 0 1000000 0; mkDownload 1000000 1000000 1;
         mkDownload 2000000 500000 2].
Proof. reflexivity. Qed.

(** C1 as stated fails where [totalLength + segmentSize - 1] leaves
    [int64]: for a content length of [2^63 - 1] and the segment size
    [download] uses, [findSegmentCount] is negative and [make] panics. *)
Lemma plan_overflow_counterexample :
  0 <= 9223372036854775807 /\ 0 < defaultSegmentSize
  /\ Int64.in_range 9223372036854775807
  /\ findSegmentCount 9223372036854775807 defaultSegmentSize
     = Ret (-9223372036853)
  /\ ~ planClaim 9223372036854775807 defaultSegmentSize.
Proof.
  split_and!;
    [lia | done
    | unfold Int64.in_range; rewrite max_int_val, min_int_val; lia
    | by vm_compute |].
  intros (info & Hfresh & _). vm_compute in Hfresh. discriminate.
Qed.

(** ** The gob codec decodes what it encodes *)

Module GobFacts.
Import Gob.

Lemma zOfByte_byteOfZ z : 0 <= z < 256 -> zOfByte (byteOfZ z) = z.
Proof.
  intros Hz. unfold zOfByte, byteOfZ.
  destruct (Byte.of_N (Z.to_N z)) as [b|] eqn:E; simpl.
  - apply Byte.to_of_N in E. lia.
  - apply Byte.of_N_None_iff in E. lia.
Qed.

Lemma fromBigEndian_snoc bs b :
  fromBigEndian (bs ++ [b]) = fromBigEndian bs * 256 + zOfByte b.
Proof. unfold fromBigEndian. by rewrite foldl_app. Qed.

Lemma bigEndian_length fuel z : (length (bigEndian fuel z) <= fuel)%nat.
Proof.
  revert z. induction fuel as [|k IH]; intros z; simpl; [lia|].
  destruct (z =? 0); simpl; [lia|].
  rewrite length_app. simpl. specialize (IH (z / 256)). lia.
Qed.

Lemma bigEndian_nonempty fuel z :
  0 < z -> (0 < length (bigEndian (S fuel) z))%nat.
Proof.
  intros Hz. simpl. destruct (Z.eqb_spec z 0); [lia|].
  rewrite length_app. simpl. lia.
Qed.

Lemma fromBigEndian_bigEndian fuel z :
  0 <= z < 256 ^ Z.of_nat fuel -> fromBigEndian (bigEndian fuel z) = z.
Proof.
  revert z. induction fuel as [|k IH]; intros z Hz.
  - simpl in *. unfold fromBigEndian. simpl. lia.
  - simpl bigEndian. destruct (Z.eqb_spec z 0) as [->|Hnz]; [done|].
    rewrite fromBigEndian_snoc, IH.
    + rewrite zOfByte_byteOfZ by (apply Z.mod_pos_bound; lia).
      pose proof (Z.div_mod z 256 ltac:(lia)). lia.
    + rewrite Nat2Z.inj_succ, Z.pow_succ_r in Hz by lia.
      split; [apply Z.div_pos; lia|].
      apply Z.div_lt_upper_bound; lia.
Qed.

Lemma encodeUint_length u : (length (encodeUint u) <= 9)%nat.
Proof.
  unfold encodeUint. destruct (u <? 128); [simpl; lia|].
  pose proof (bigEndian_length 8 u). cbn [length]. lia.
Qed.

Lemma decodeUint_encodeUint u rest :
  0 <= u < 2 ^ 64 -> decodeUint (encodeUint u ++ rest) = Some (u, rest).
Proof.
  intros Hu. unfold encodeUint.
  destruct (Z.ltb_spec u 128) as [Hlt|Hge].
  - simpl. rewrite zOfByte_byteOfZ by lia.
    destruct (Z.ltb_spec u 128); [done|lia].
  - pose proof (bigEndian_length 8 u) as Hlen.
    pose proof (bigEndian_nonempty 7 u ltac:(lia)) as Hpos.
    set (bs := bigEndian 8 u) in *.
    cbn [app decodeUint].
    rewrite zOfByte_byteOfZ by lia.
    destruct (Z.ltb_spec (256 - Z.of_nat (length bs)) 128); [lia|].
    replace (Z.to_nat (256 - (256 - Z.of_nat (length bs))))
      with (length bs) by lia.
    destruct (Nat.ltb_spec 8 (length bs)); [lia|].
    destruct (Nat.ltb_spec (length (bs ++ rest)) (length bs)) as [Hl|_].
    { rewrite length_app in Hl. lia. }
    simpl. rewrite take_app_length, drop_app_length.
    subst bs. rewrite fromBigEndian_bigEndian; [done|].
    change (256 ^ Z.of_nat 8) with (2 ^ 64). lia.
Qed.

Lemma encodeInt_length i : (length (encodeInt i) <= 9)%nat.
Proof. apply encodeUint_length. Qed.

Lemma decodeInt_encodeInt i rest :
  Int64.in_range i -> decodeInt (encodeInt i ++ rest) = Some (i, rest).
Proof.
  unfold Int64.in_range. rewrite max_int_val, min_int_val. intros Hi.
  unfold decodeInt, encodeInt.
  rewrite decodeUint_encodeUint
    by (destruct (Z.ltb_spec i 0);
        change (2 ^ 64) with 18446744073709551616; lia).
  f_equal. f_equal.
  destruct (Z.ltb_spec i 0).
  - replace (2 * (- i - 1) + 1) with (1 + 2 * (- i - 1)) by lia.
    rewrite Z.odd_add_mul_2. cbn [Z.odd].
    replace (1 + 2 * (- i - 1)) with (1 + (- i - 1) * 2) by lia.
    rewrite Z.div_add by lia. change (1 / 2) with 0. lia.
  - rewrite Z.odd_mul, andb_false_l.
    rewrite Z.mul_comm, Z.div_mul; lia.
Qed.

Lemma decodeFields_encodeFields l s :
  Int64.in_range l -> Int64.in_range s ->
  decodeFields 3 (-1) (0, 0) (encodeFields l s) = Some (l, s).
Proof.
  intros Hl Hs. unfold encodeFields.
  destruct (Z.eqb_spec l 0) as [->|Hl0], (Z.eqb_spec s 0) as [->|Hs0];
    cbn [app decodeFields].
  - done.
  - change (decodeUint (Byte.x02 :: ?r)) with (Some (2, r)).
    cbn [Z.eqb]. rewrite decodeInt_encodeInt by done. done.
  - change (decodeUint (Byte.x01 :: ?r)) with (Some (1, r)).
    cbn [Z.eqb]. rewrite <- ?app_assoc, decodeInt_encodeInt by done. done.
  - change (decodeUint (Byte.x01 :: ?r)) with (Some (1, r)).
    cbn [Z.eqb]. rewrite <- ?app_assoc, decodeInt_encodeInt by done.
    cbn -[decodeInt encodeInt].
    change (decodeUint (Byte.x01 :: ?r)) with (Some (1, r)).
    cbn -[decodeInt encodeInt]. rewrite decodeInt_encodeInt by done. done.
Qed.

Lemma encodeFields_length l s : (length (encodeFields l s) <= 21)%nat.
Proof.
  unfold encodeFields.
  pose proof (encodeInt_length l). pose proof (encodeInt_length s).
  destruct (l =? 0), (s =? 0); rewrite ?length_app; simpl; lia.
Qed.
End GobFacts.

Lemma gob_decode_encode_ok l s rest :
  Int64.in_range l -> Int64.in_range s ->
  Gob.decode (Gob.encode l s ++ rest) = Some (l, s).
Proof.
  intros Hl Hs. unfold Gob.decode, Gob.encode.
  pose proof (GobFacts.encodeFields_length l s) as Hlen.
  set (value := [Byte.xff; Byte.x82] ++ Gob.encodeFields l s).
  assert (Hv : (length value <= 23)%nat) by (subst value; simpl; lia).
  generalize Gob.typeDescriptor as td. intros td.
  rewrite <- !app_assoc, take_app_length, drop_app_length.
  rewrite bool_decide_eq_true_2 by done. cbn [negb].
  rewrite GobFacts.decodeUint_encodeUint
    by (change (2 ^ 64) with 18446744073709551616; lia).
  rewrite Nat2Z.id.
  destruct (Nat.ltb_spec (length (value ++ rest)) (length value)) as [H|_].
  { rewrite length_app in H. lia. }
  rewrite take_app_length. subst value. cbn [app].
  rewrite !bool_decide_eq_true_2 by done. cbn [andb].
  by apply GobFacts.decodeFields_encodeFields.
Qed.

Lemma gob_encode_length l s : (length (Gob.encode l s) <= 78)%nat.
Proof.
  unfold Gob.encode.
  pose proof (GobFacts.encodeFields_length l s) as Hlen.
  set (value := [Byte.xff; Byte.x82] ++ Gob.encodeFields l s).
  assert (Hv : (length value <= 23)%nat) by (subst value; simpl; lia).
  rewrite !length_app.
  change (length Gob.typeDescriptor) with 54%nat.
  unfold Gob.encodeUint.
  destruct (Z.ltb_spec (Z.of_nat (length value)) 128); [simpl; lia|lia].
Qed.

Lemma gob_header_fits_ok l s :
  Int64.in_range l -> Int64.in_range s ->
  (length magic + length (Gob.encode l s) <= Z.to_nat baseOffset)%nat.
Proof.
  intros _ _. pose proof (gob_encode_length l s).
  change (length magic) with 4%nat.
  change (Z.to_nat baseOffset) with (200 + 56)%nat. lia.
Qed.

(** The codec of the program. *)
#[global] Instance gobCodec : GobCodec :=
  Build_GobCodec Gob.encode Gob.decode
    gob_decode_encode_ok gob_header_fits_ok.

(** ** The progress file *)

Lemma writeAt_byte_length f off b :
  0 <= off ->
  length (writeAt f off [b]) = (length f `max` S (Z.to_nat off))%nat.
Proof.
  intros Hoff. unfold writeAt.
  destruct (Z.ltb_spec off 0); [lia|].
  rewrite !length_app, length_take, length_replicate, length_drop. simpl. lia.
Qed.

Lemma writeAt_byte_lookup f off b (j : nat) :
  0 <= off ->
  writeAt f off [b] !! j
  = if decide (j = Z.to_nat off) then Some b
    else if decide (j < length f)%nat then f !! j
    else if decide (j < Z.to_nat off)%nat then Some Byte.x00
    else None.
Proof.
  intros Hoff. unfold writeAt.
  destruct (Z.ltb_spec off 0); [lia|].
  generalize (Z.to_nat off) as o. intros o.
  assert (Hlt : (length (take o f) = o `min` length f)%nat)
    by apply length_take.
  destruct (decide (j < o `min` length f)%nat) as [Hj|Hj].
  { rewrite lookup_app_l by lia.
    rewrite lookup_take_lt by lia. repeat case_decide; try lia; done. }
  rewrite lookup_app_r by lia. rewrite Hlt.
  destruct (decide (j < o)%nat) as [Hjo|Hjo].
  { rewrite lookup_app_l by (rewrite length_replicate; lia).
    rewrite lookup_replicate_2 by lia.
    repeat case_decide; try lia; done. }
  rewrite lookup_app_r by (rewrite length_replicate; lia).
  rewrite length_replicate.
  destruct (decide (j = o)) as [->|Hne].
  { replace (o - o `min` length f - (o - length f))%nat with 0%nat by lia.
    done. }
  rewrite lookup_app_r by (simpl; lia). rewrite lookup_drop.
  replace (o + length [b] + (j - o `min` length f - (o - length f)
                             - length [b]))%nat with j by (simpl; lia).
  destruct (decide (j < length f)%nat); [done|].
  apply lookup_ge_None. lia.
Qed.

Lemma writeAt_byte_prefix f0 rest off b :
  (length f0 <= Z.to_nat off)%nat -> 0 <= off ->
  exists rest', writeAt (f0 ++ rest) off [b] = f0 ++ rest'.
Proof.
  intros Hlen Hoff. unfold writeAt.
  destruct (Z.ltb_spec off 0); [lia|].
  rewrite take_app_ge by done.
  rewrite <- app_assoc. eauto.
Qed.

Lemma eqb_finished b :
  Byte.eqb b finishedSegment = bool_decide (b = finishedSegment).
Proof.
  destruct (Byte.eqb b finishedSegment) eqn:E.
  - apply Byte.byte_dec_bl in E. by rewrite bool_decide_eq_true_2.
  - apply Byte.eqb_false in E. by rewrite bool_decide_eq_false_2.
Qed.

Lemma storeFlags_length segmentCount i chunk segs :
  length (storeFlags segmentCount i chunk segs) = length segs.
Proof.
  revert i segs. induction chunk as [|b rest IH]; intros i segs; [done|].
  simpl. destruct (i <? segmentCount); [|done].
  by rewrite IH, length_insert.
Qed.

Lemma storeFlags_lookup segmentCount i chunk segs (k : nat) :
  0 <= i -> length segs = Z.to_nat segmentCount ->
  storeFlags segmentCount i chunk segs !! k
  = if decide ((Z.to_nat i <= k < Z.to_nat i + length chunk)%nat
               /\ Z.of_nat k < segmentCount)
    then (fun b => Byte.eqb b finishedSegment) <$> chunk !! (k - Z.to_nat i)%nat
    else segs !! k.
Proof.
  revert i segs. induction chunk as [|b rest IH]; intros i segs Hi Hlen.
  { simpl. case_decide; [lia|done]. }
  simpl storeFlags. cbn [length].
  destruct (Z.ltb_spec i segmentCount) as [Hlt|Hge].
  - rewrite IH by (rewrite ?length_insert; lia). clear IH.
    replace (Z.to_nat (i + 1)) with (S (Z.to_nat i)) by lia.
    destruct (decide (k = Z.to_nat i)) as [->|Hne].
    + rewrite list_lookup_insert_eq by lia.
      rewrite Nat.sub_diag. simpl.
      repeat case_decide; try lia; done.
    + rewrite list_lookup_insert_ne by lia.
      repeat case_decide; try lia; try done.
      replace (k - Z.to_nat i)%nat with (S (k - S (Z.to_nat i))) by lia.
      done.
  - clear IH. case_decide; [lia|done].
Qed.

Lemma fileRead_lookup f off n (j : nat) :
  0 <= off -> (j < length (fileRead f off n))%nat ->
  fileRead f off n !! j = f !! (Z.to_nat off + j)%nat.
Proof.
  intros Hoff Hj. unfold fileRead in *.
  rewrite length_take in Hj.
  rewrite lookup_take_lt by lia. by rewrite lookup_drop.
Qed.

Lemma fileRead_nil f off n :
  fileRead f off n = [] -> 0 <= off -> (0 < n)%nat ->
  (length f <= Z.to_nat off)%nat.
Proof.
  intros Hnil Hoff Hn. apply (f_equal length) in Hnil.
  unfold fileRead in Hnil.
  rewrite length_take, length_drop in Hnil. simpl in Hnil. lia.
Qed.

Lemma fileRead_length f off n :
  length (fileRead f off n) = (n `min` (length f - Z.to_nat off))%nat.
Proof. unfold fileRead. by rewrite length_take, length_drop. Qed.

Lemma readSegments_length f segmentCount i segs :
  length (readSegments f segmentCount i segs) = length segs.
Proof.
  funelim (readSegments f segmentCount i segs); try done.
  match goal with IH : length (readSegments _ _ _ _) = _ |- _ => rewrite IH end.
  apply storeFlags_length.
Qed.

Lemma readSegments_lookup f segmentCount i segs (k : nat) :
  0 <= i -> length segs = Z.to_nat segmentCount ->
  readSegments f segmentCount i segs !! k
  = if decide ((Z.to_nat i <= k)%nat /\ Z.of_nat k < segmentCount
               /\ (Z.to_nat baseOffset + k < length f)%nat)
    then Some (doneAt f k)
    else segs !! k.
Proof.
  funelim (readSegments f segmentCount i segs); intros Hi Hlen;
    repeat match goal with
           | H : decide _ = _ |- _ => clear H
           | H : _ = readSegments _ _ _ _ |- _ => clear H
           | H : inspect _ = _ |- _ => clear H
           | H : sigmaI _ _ _ = _ |- _ => clear H
           end.
  - case_decide; [lia|done].
  - case_decide as Hc; [|done].
    match goal with
    | E : fileRead _ _ _ = _ |- _ =>
        apply fileRead_nil in E; [|unfold baseOffset; lia|unfold bufSize; lia]
    end.
    unfold baseOffset in *. lia.
  - match goal with
    | IH : forall _, _ -> _ -> readSegments _ _ _ _ !! _ = _ |- _ =>
        rewrite IH by (rewrite ?storeFlags_length; lia)
    end.
    rewrite storeFlags_lookup by lia.
    match goal with
    | E : fileRead _ _ _ = ?b :: ?bs |- _ =>
        pose proof (fileRead_length f (baseOffset + i) bufSize) as Hfl;
        pose proof (fun j => fileRead_lookup f (baseOffset + i) bufSize j
                               ltac:(unfold baseOffset; lia)) as Hlk;
        rewrite E in Hfl, Hlk
    end.
    unfold baseOffset in *.
    destruct (decide ((Z.to_nat i <= k < Z.to_nat i + length (b :: bs))%nat
                      /\ Z.of_nat k < segmentCount)) as [[Hk Hkc]|Hk].
    + rewrite decide_False by lia.
      rewrite decide_True by lia.
      rewrite Hlk by lia. unfold doneAt, baseOffset.
      replace (Z.to_nat (256 + i) + (k - Z.to_nat i))%nat
        with (Z.to_nat 256 + k)%nat by lia.
      assert (is_Some (f !! (Z.to_nat 256 + k)%nat)) as [x Hx]
        by (apply lookup_lt_is_Some; lia).
      rewrite Hx. simpl. rewrite eqb_finished. f_equal.
      apply bool_decide_ext. split; congruence.
    + repeat case_decide; try lia; done.
Qed.

Lemma doneAt_short f k :
  (length f <= Z.to_nat baseOffset + k)%nat -> doneAt f k = false.
Proof.
  intros Hlen. unfold doneAt.
  rewrite (lookup_ge_None_2 f) by done. by rewrite bool_decide_eq_false_2.
Qed.

(** Reading a bitmap of [segmentCount] entries into a fresh slice: entry
    [k] is whether byte [baseOffset + k] of the file is [finishedSegment];
    past the end of the file it stays [false]. *)
Lemma readSegments_fresh f segmentCount :
  0 <= segmentCount ->
  readSegments f segmentCount 0 (replicate (Z.to_nat segmentCount) false)
  = map (doneAt f) (seq 0 (Z.to_nat segmentCount)).
Proof.
  intros Hc. apply list_eq. intros k.
  rewrite readSegments_lookup by (rewrite ?length_replicate; lia).
  rewrite list_lookup_fmap.
  destruct (decide (k < Z.to_nat segmentCount)%nat) as [Hk|Hk].
  - rewrite lookup_seq_lt by done. cbn [fmap option_fmap option_map Nat.add].
    case_decide; [done|].
    rewrite lookup_replicate_2 by done.
    rewrite doneAt_short by lia. done.
  - rewrite lookup_seq_ge by lia. cbn [fmap option_fmap option_map].
    case_decide; [lia|]. apply lookup_replicate_None. lia.
Qed.

Lemma markSegment_doneAt f i k :
  0 <= i -> baseOffset + i <= Int64.max_int ->
  doneAt (markSegment f i) k = bool_decide (Z.of_nat k = i) || doneAt f k.
Proof.
  intros Hi Hmax. unfold markSegment, doneAt.
  rewrite max_int_val in Hmax. unfold baseOffset in *. unwrap.
  rewrite writeAt_byte_lookup by lia.
  destruct (decide ((Z.to_nat 256 + k)%nat = Z.to_nat (256 + i))) as [He|Hne].
  { rewrite (bool_decide_eq_true_2 (Z.of_nat k = i)) by lia.
    by rewrite bool_decide_eq_true_2. }
  rewrite (bool_decide_eq_false_2 (Z.of_nat k = i)) by lia. cbn [orb].
  destruct (decide (Z.to_nat 256 + k < length f)%nat) as [Hlt|Hge]; [done|].
  rewrite (lookup_ge_None_2 f) by lia.
  case_decide; by rewrite !bool_decide_eq_false_2.
Qed.

Lemma markSegment_prefix f0 rest i :
  (length f0 <= Z.to_nat baseOffset)%nat ->
  0 <= i -> baseOffset + i <= Int64.max_int ->
  exists rest', markSegment (f0 ++ rest) i = f0 ++ rest'.
Proof.
  intros Hlen Hi Hmax. unfold markSegment.
  rewrite max_int_val in Hmax. unfold baseOffset in *. unwrap.
  apply writeAt_byte_prefix; lia.
Qed.

Lemma foldl_markSegment_doneAt marks f k :
  Forall (fun i => 0 <= i /\ baseOffset + i <= Int64.max_int) marks ->
  doneAt (foldl markSegment f marks) k
  = doneAt f k || bool_decide (Z.of_nat k ∈ marks).
Proof.
  intros Hm. revert f. induction Hm as [|i marks [Hi Hmax] _ IH]; intros f.
  { cbn [foldl]. rewrite bool_decide_eq_false_2 by apply not_elem_of_nil.
    by rewrite orb_false_r. }
  cbn [foldl]. rewrite IH, markSegment_doneAt by done.
  destruct (doneAt f k); [by rewrite orb_true_r|]. rewrite orb_false_r.
  cbn [orb]. destruct (decide (Z.of_nat k = i)) as [<-|Hne].
  - rewrite bool_decide_eq_true_2 by done. cbn [orb].
    symmetry. apply bool_decide_eq_true_2. left.
  - rewrite bool_decide_eq_false_2 by done. cbn [orb].
    apply bool_decide_ext. rewrite elem_of_cons.
    split; [by right | intros [?|?]; done].
Qed.

Lemma foldl_markSegment_prefix marks f0 rest :
  (length f0 <= Z.to_nat baseOffset)%nat ->
  Forall (fun i => 0 <= i /\ baseOffset + i <= Int64.max_int) marks ->
  exists rest', foldl markSegment (f0 ++ rest) marks = f0 ++ rest'.
Proof.
  intros Hlen Hm. revert rest.
  induction Hm as [|i marks [Hi Hmax] _ IH]; intros rest; [by eexists|].
  simpl. destruct (markSegment_prefix f0 rest i Hlen Hi Hmax) as [r' ->].
  apply IH.
Qed.

(** C2 (as amended): when the segment count is computed inside [int64] and
    is at most [maxSegments], the progress file created for
    [(totalLength, segmentSize)], after any segments of the plan have been
    marked done (byte [0x59] at [256 + index]), reads back as the same
    [totalLength], the same [segmentSize] and the bitmap that is true
    exactly at the marked indices. *)
Theorem progress_round_trip `{GobCodec} (totalLength segmentSize : Z)
  (marks : list Z) :
  0 <= totalLength -> 0 < segmentSize <= Int64.max_int ->
  totalLength + segmentSize - 1 <= Int64.max_int ->
  ceilDiv totalLength segmentSize <= maxSegments ->
  Forall (fun i => 0 <= i < ceilDiv totalLength segmentSize) marks ->
  roundTripClaim totalLength segmentSize marks.
Proof.
  intros Hl [Hs Hsmax] Hmax Hcap Hmarks.
  pose proof (ceilDiv_spec totalLength segmentSize Hl Hs) as [Hn _].
  assert (Hr : Int64.in_range totalLength /\ Int64.in_range segmentSize)
    by (unfold Int64.in_range; rewrite max_int_val, min_int_val in *; lia).
  destruct Hr as [Hrl Hrs].
  assert (Hm : Forall (fun i => 0 <= i /\ baseOffset + i <= Int64.max_int)
                 marks).
  { eapply Forall_impl; [exact Hmarks|]. simpl. intros i Hi.
    rewrite max_int_val. unfold baseOffset, maxSegments in *. lia. }
  exists (magic ++ gobEncode totalLength segmentSize). split; [done|].
  pose proof (gob_header_fits totalLength segmentSize Hrl Hrs) as Hfit.
  destruct (foldl_markSegment_prefix marks
              (magic ++ gobEncode totalLength segmentSize) [])
    as [rest Hpre]; [by rewrite length_app | done |].
  rewrite app_nil_r in Hpre.
  unfold readProgressInfo.
  assert (Hmagic : fileRead (foldl markSegment
                     (magic ++ gobEncode totalLength segmentSize) marks)
                     0 4%nat = magic).
  { rewrite Hpre. unfold fileRead. change (Z.to_nat 0) with 0%nat.
    rewrite drop_0, <- app_assoc. by rewrite (take_app_length' magic). }
  rewrite Hmagic, bool_decide_eq_true_2 by done. cbn [negb].
  assert (Hdec : gobDecode (drop 4 (foldl markSegment
                   (magic ++ gobEncode totalLength segmentSize) marks))
                 = Some (totalLength, segmentSize)).
  { rewrite Hpre, <- app_assoc. rewrite (drop_app_length' magic) by done.
    by apply gob_decode_encode. }
  rewrite Hdec, findSegmentCount_exact by done. cbn [obind].
  destruct (Z.gtb_spec (ceilDiv totalLength segmentSize) maxSegments);
    [lia|].
  unfold makeBools.
  destruct (Z.ltb_spec (ceilDiv totalLength segmentSize) 0); [lia|].
  cbn [obind]. rewrite readSegments_fresh by done.
  do 3 f_equal. unfold seqZ. rewrite <- list_fmap_compose.
  apply list_fmap_ext. intros _ k _. unfold compose.
  rewrite foldl_markSegment_doneAt by done.
  rewrite doneAt_short by (rewrite length_app; lia).
  cbn [orb]. by rewrite Z.add_0_r.
Qed.

Lemma progress_round_trip_witness :
  @roundTripClaim gobCodec 2500000 1000000 [0; 2].
Proof.
  apply (@progress_round_trip gobCodec 2500000 1000000 [0; 2]).
  - lia.
  - unfold Int64.max_int. lia.
  - unfold Int64.max_int. lia.
  - by vm_compute.
  - repeat constructor; by vm_compute.
Defined.

(** The same round trip, evaluated: segments 0 and 2 of 3 marked. *)
Example round_trip_example :
  readProgressInfo
    (Some (foldl markSegment (magic ++ gobEncode 2500000 1000000) [0; 2]))
  = Ret (mkProgressInfo 2500000 1000000 [true; false; true], None).
Proof. reflexivity. Qed.

(** C2 as stated fails above the cap: the progress file the program creates
    for 50,000,000,001 bytes (50001 segments of 1,000,000), with segment 0
    marked, does not read back; [readProgressInfo] returns the error
    "too many segments" and no bitmap. *)
Lemma round_trip_cap_counterexample :
  readProgressInfo
    (Some (foldl markSegment
             (magic ++ gobEncode 50000000001 defaultSegmentSize) [0]))
  = Ret (mkProgressInfo 50000000001 defaultSegmentSize [],
         Some "too many segments"%string)
  /\ ~ @roundTripClaim gobCodec 50000000001 defaultSegmentSize [0].
Proof.
  assert (Hread :
    readProgressInfo
      (Some (foldl markSegment
               (magic ++ gobEncode 50000000001 defaultSegmentSize) [0]))
    = Ret (mkProgressInfo 50000000001 defaultSegmentSize [],
           Some "too many segments"%string)) by (by vm_compute).
  split; [exact Hread|].
  intros (f0 & Hbegin & Hback).
  assert (f0 = magic ++ gobEncode 50000000001 defaultSegmentSize) as ->
    by (unfold beginProgressFile in Hbegin; congruence).
  rewrite Hread in Hback.
  pose proof (f_equal (fun o : outcome (ProgressInfo * option string) =>
                         match o with
                         | Ret (_, e) => e
                         | Panic _ => None
                         end) Hback) as Herr.
  cbv beta iota in Herr. discriminate Herr.
Qed.

(** ** Opening the resume store: [setupProgressFile] *)

Section SetupFacts.
Context `{codec : GobCodec}.

(** A state that is read back has a bitmap of the length its own header
    gives. *)
Lemma readProgressInfo_consistent stored info :
  readProgressInfo stored = Ret (info, None) ->
  findSegmentCount (Length info) (SegmentSize info)
  = Ret (Z.of_nat (length (segments info)))
  /\ Z.of_nat (length (segments info)) <= maxSegments.
Proof.
  unfold readProgressInfo. intros Hread.
  destruct stored as [f|]; [|done].
  destruct (negb _); [done|].
  destruct (gobDecode (drop 4 f)) as [[l s]|]; [|done].
  destruct (findSegmentCount l s) as [c|] eqn:Hc; [|done].
  cbn [obind] in Hread.
  destruct (Z.gtb_spec c maxSegments); [done|].
  unfold makeBools in Hread.
  destruct (Z.ltb_spec c 0); [done|].
  cbn [obind] in Hread. injection Hread as <-.
  cbn [Length SegmentSize segments].
  rewrite readSegments_length, length_replicate, Z2Nat.id by done.
  done.
Qed.

(** The errors of [readProgressInfo] are the four of the specification:
    no file, a bad magic number, a header that does not decode, more
    than [maxSegments] segments. *)
Lemma readProgressInfo_error stored info e :
  readProgressInfo stored = Ret (info, Some e) ->
  stored = None
  \/ (exists f, stored = Some f /\ fileRead f 0 4%nat <> magic)
  \/ (exists f, stored = Some f /\ gobDecode (drop 4 f) = None)
  \/ (exists f l s c, stored = Some f /\ gobDecode (drop 4 f) = Some (l, s)
                      /\ findSegmentCount l s = Ret c /\ maxSegments < c).
Proof.
  unfold readProgressInfo. intros Hread.
  destruct stored as [f|]; [|by left]. right.
  destruct (decide (fileRead f 0 4%nat = magic)) as [Hm|Hm];
    [|left; eauto].
  right.
  destruct (gobDecode (drop 4 f)) as [[l s]|] eqn:Hd; [|left; eauto].
  right. rewrite bool_decide_eq_true_2 in Hread by done.
  cbn [negb] in Hread.
  destruct (findSegmentCount l s) as [c|] eqn:Hc; [|done].
  cbn [obind] in Hread.
  destruct (Z.gtb_spec c maxSegments); [by eauto 10|].
  unfold makeBools in Hread.
  destruct (c <? 0); done.
Qed.

(** What [setupProgressFile] does when nothing panics and the progress
    file can be written: it starts clean exactly when told to, or when
    reading the stored state fails, or when the stored length differs;
    a clean start yields the fresh state and the fresh file, anything
    else the stored state and the file as it is. *)
Lemma setupProgressFile_decides d length segmentSize forceClean info err :
  writable d = true ->
  0 <= length -> 0 < segmentSize ->
  length + segmentSize - 1 <= Int64.max_int ->
  (forceClean = false ->
   readProgressInfo (progressFile d) = Ret (info, err)) ->
  exists r,
    setupProgressFile d length segmentSize forceClean = Ret r
    /\ sr_err r = None
    /\ (sr_clean r = true
        <-> forceClean = true \/ is_Some err \/ Length info <> length
            \/ findSegmentCount length (SegmentSize info)
               <> Ret (Z.of_nat (List.length (segments info))))
    /\ (sr_clean r = true ->
        sr_info r
        = mkProgressInfo length segmentSize
            (replicate (Z.to_nat (ceilDiv length segmentSize)) false)
        /\ sr_progress r = Some (magic ++ gobEncode length segmentSize))
    /\ (sr_clean r = false ->
        sr_info r = info /\ sr_progress r = progressFile d).
Proof.
  intros Hw Hl Hs Hmax Hread.
  pose proof (ceilDiv_spec length segmentSize Hl Hs) as [Hn _].
  assert (Hclean : forall i0,
    (let! segmentCount := findSegmentCount length segmentSize in
     match beginProgressFile (writable d) length segmentSize with
     | inr e => Ret (mkSetupResult (progressFile d) i0 true (Some e))
     | inl f =>
         let! segs := makeBools segmentCount in
         Ret (mkSetupResult (Some f)
                (mkProgressInfo length segmentSize segs) true None)
     end)
    = Ret (mkSetupResult (Some (magic ++ gobEncode length segmentSize))
             (mkProgressInfo length segmentSize
                (replicate (Z.to_nat (ceilDiv length segmentSize)) false))
             true None)).
  { intros i0. rewrite findSegmentCount_exact by done. cbn [obind].
    rewrite Hw. cbn [beginProgressFile]. unfold makeBools.
    destruct (Z.ltb_spec (ceilDiv length segmentSize) 0); [lia|done]. }
  unfold setupProgressFile.
  destruct forceClean; cbn [negb].
  { cbn [obind]. rewrite Hclean. eexists. split; [done|].
    cbn [sr_err sr_clean sr_info sr_progress].
    split_and!; [done|naive_solver|done|done]. }
  rewrite (Hread eq_refl). cbn [obind].
  destruct err as [e|].
  { cbn [obind]. rewrite Hclean. eexists. split; [done|].
    cbn [sr_err sr_clean sr_info sr_progress].
    split_and!; [done|naive_solver|done|done]. }
  destruct (Z.eqb_spec length (Length info)) as [Heq|Hne]; cbn [negb].
  - destruct (readProgressInfo_consistent _ _ (Hread eq_refl)) as [Hc _].
    rewrite Heq, Hc. cbn [obind]. rewrite Z.eqb_refl. cbn [negb].
    rewrite Hw. eexists. split; [done|].
    cbn [sr_err sr_clean sr_info sr_progress].
    split_and!; [done| |done|done].
    split; [done|]. intros [?|[[? ?]|[?|?]]]; done.
  - cbn [obind]. rewrite Hclean. eexists. split; [done|].
    cbn [sr_err sr_clean sr_info sr_progress].
    split_and!; [done|naive_solver|done|done].
Qed.

(** C4: a stored header whose segment size is zero is not a valid prior
    state, yet [setupProgressFile] does not fall back to a clean start:
    [readProgressInfo] divides by the stored segment size before any
    check, and the run ends in a panic. *)
Theorem setupProgressFile_zero_segment_size out length :
  Int64.in_range length ->
  setupProgressFile
    (mkDisk out (Some (magic ++ gobEncode length 0)) true)
    length defaultSegmentSize false
  = Panic "integer divide by zero".
Proof.
  intros Hl. unfold setupProgressFile. cbn [negb progressFile].
  unfold readProgressInfo.
  assert (Hm : fileRead (magic ++ gobEncode length 0) 0 4%nat = magic).
  { unfold fileRead. change (Z.to_nat 0) with 0%nat.
    by rewrite drop_0, (take_app_length' magic). }
  rewrite Hm, bool_decide_eq_true_2 by done. cbn [negb].
  rewrite (drop_app_length' magic) by done.
  assert (H0 : Int64.in_range 0) by (by vm_compute).
  pose proof (gob_decode_encode length 0 [] Hl H0) as Hd.
  rewrite app_nil_r in Hd. rewrite Hd. done.
Qed.
End SetupFacts.

Lemma setupProgressFile_zero_segment_size_witness :
  @setupProgressFile gobCodec
    (mkDisk (Some []) (Some (magic ++ gobEncode 10 0)) true)
    10 defaultSegmentSize false
  = Panic "integer divide by zero".
Proof.
  apply (@setupProgressFile_zero_segment_size gobCodec (Some []) 10).
  by vm_compute.
Defined.

(** ** The worker *)

Lemma coveredBy_nil lo : coveredBy [] lo lo.
Proof. intros x Hx. lia. Qed.

Lemma coveredBy_write off data evs hi :
  coveredBy evs (off + Z.of_nat (length data)) hi ->
  coveredBy (EvWrite off data :: evs) off hi.
Proof.
  intros Hc x Hx.
  destruct (decide (x < off + Z.of_nat (length data))) as [Hlt|Hge].
  - exists off, data. split; [left|lia].
  - destruct (Hc x ltac:(lia)) as (o & dt & Hin & Hr).
    exists o, dt. split; [by right|done].
Qed.

Lemma coveredBy_skip e evs lo hi :
  coveredBy evs lo hi -> coveredBy (e :: evs) lo hi.
Proof.
  intros Hc x Hx. destruct (Hc x Hx) as (o & dt & Hin & Hr).
  exists o, dt. split; [by right|done].
Qed.

Lemma coveredBy_app evs1 evs2 lo mid hi :
  coveredBy evs1 lo mid -> coveredBy evs2 mid hi ->
  coveredBy (evs1 ++ evs2) lo hi.
Proof.
  intros H1 H2 x Hx.
  destruct (decide (x < mid)) as [Hlt|Hge].
  - destruct (H1 x ltac:(lia)) as (o & dt & Hin & Hr).
    exists o, dt. split; [|done]. apply elem_of_app. by left.
  - destruct (H2 x ltac:(lia)) as (o & dt & Hin & Hr).
    exists o, dt. split; [|done]. apply elem_of_app. by right.
Qed.

Lemma coveredBy_weaken evs lo hi hi' :
  hi' <= hi -> coveredBy evs lo hi -> coveredBy evs lo hi'.
Proof. intros Hle Hc x Hx. apply Hc. lia. Qed.

Lemma checkEvents_app fl evs1 evs2 :
  checkEvents fl (evs1 ++ evs2)
  = match checkEvents fl evs1 with
    | Some fl' => checkEvents fl' evs2
    | None => None
    end.
Proof.
  revert fl. induction evs1 as [|e evs1 IH]; intros fl; [done|].
  simpl. destruct (checkEvent fl e); [apply IH|done].
Qed.

Lemma bodyLength_nonneg body : 0 <= bodyLength body.
Proof. induction body; simpl; lia. Qed.

(** The read loop writes what it reads, one chunk after the other, from
    where the item stands; it stops at the end of the body or once the item
    is complete. *)
Lemma readBody_discipline tn d0 got0 body read total :
  wfItem d0 -> 0 <= got0 -> 0 <= read <= Int64.max_int -> wfBody body ->
  exists r t evs,
    readBody tn (shrink d0 got0) body read total = (r, t, evs)
    /\ read <= r <= Int64.max_int
    /\ checkEvents (InFlight d0 (got0 + read)) evs
       = Some (InFlight d0 (got0 + r))
    /\ quiet evs = true
    /\ coveredBy evs (position d0 + got0 + read) (position d0 + got0 + r)
    /\ (r < size d0 - got0 -> r = read + bodyLength body)
    /\ r <= read + bodyLength body.
Proof.
  intros (Hpos & Hsize & Hmax & _) Hgot Hread Hwf.
  rewrite max_int_val in *.
  revert read total Hread.
  induction Hwf as [|chunk body Hchunk _ IH]; intros read total Hread.
  { exists read, total, []. simpl. split_and!; try done; try lia.
    apply coveredBy_nil. }
  cbn [readBody]. cbn [shrink size position].
  destruct (Z.ltb_spec read (size d0 - got0)) as [Hlt|Hge].
  - assert (Hn : 0 <= Z.of_nat (length chunk) <= Z.of_nat bufSize) by lia.
    destruct (IH (Int64.add read (Z.of_nat (length chunk)))
                (Int64.add total (Z.of_nat (length chunk))))
      as (r & t & evs & Hrb & Hr & Hck & Hq & Hcov & Hlen & Hle).
    { unwrap. lia. }
    cbn [shrink] in Hrb. rewrite Hrb. revert Hr Hck Hcov Hlen Hle. unwrap.
    intros Hr Hck Hcov Hlen Hle.
    eexists r, t, _. split; [done|]. split; [lia|].
    split_and!.
    + cbn [checkEvents checkEvent]. unwrap.
      destruct (Z.ltb_spec (got0 + read) (size d0)); [|lia].
      replace (position d0 + got0 + read)
        with (position d0 + (got0 + read)) by lia.
      rewrite Z.eqb_refl. cbn [andb].
      rewrite <- Hck. f_equal. f_equal. lia.
    + done.
    + replace (position d0 + got0 + read)
        with (position d0 + (got0 + read)) by lia.
      apply coveredBy_write, coveredBy_skip.
      replace (position d0 + (got0 + read) + Z.of_nat (length chunk))
        with (position d0 + got0 + (read + Z.of_nat (length chunk))) by lia.
      done.
    + intros Hrlt. rewrite Hlen by done. simpl. lia.
    + simpl. lia.
  - exists read, total, []. simpl.
    pose proof (bodyLength_nonneg body).
    split_and!; try done; try lia.
    apply coveredBy_nil.
Qed.

Lemma recvItems_app evs1 evs2 :
  recvItems (evs1 ++ evs2) = recvItems evs1 ++ recvItems evs2.
Proof. unfold recvItems. apply omap_app. Qed.

Lemma recvItems_quiet evs : quiet evs = true -> recvItems evs = [].
Proof.
  induction evs as [|e evs IH]; [done|].
  cbn [quiet forallb]. intros [He Hq]%andb_true_iff.
  destruct e; try done; apply (IH Hq).
Qed.

(** One attempt for the item in hand keeps the discipline. *)
Lemma attempt_discipline tn failed w d0 got0 ch evs0 resp :
  wfItem d0 -> 0 <= got0 < size d0 -> wfBody (bodyOf resp) ->
  match attempt tn true failed w (shrink d0 got0) ch evs0 resp with
  | Continue w' ch' evs =>
      ch' = ch
      /\ exists evs1 fl',
           evs = evs0 ++ evs1
           /\ checkEvents (InFlight d0 got0) evs1 = Some fl'
           /\ couple w' fl' /\ recvItems evs1 = []
  | Exited evs =>
      exists evs1 fl',
        evs = evs0 ++ evs1
        /\ checkEvents (InFlight d0 got0) evs1 = Some fl'
        /\ recvItems evs1 = []
  | _ => False
  end.
Proof.
  intros Hwf Hgot Hbody.
  pose proof Hwf as (Hpos & Hsize & Hmax & Hseg & Hsegmax).
  rewrite max_int_val in *.
  unfold attempt. cbn [negb shrink position size segmentNum].
  rewrite sub_add_wrap.
  replace (position d0 + got0 + (size d0 - got0) - 1)
    with (position d0 + size d0 - 1) by lia.
  rewrite (wrap_id (position d0 + size d0 - 1)) by in_range_solver.
  assert (Hget : checkEvent (InFlight d0 got0)
                   (EvGet (position d0 + got0) (position d0 + size d0 - 1))
                 = Some (InFlight d0 got0)).
  { cbn [checkEvent]. destruct (Z.ltb_spec got0 (size d0)); [|lia].
    by rewrite !Z.eqb_refl. }
  destruct (failed resp).
  - destruct (Int64.add (errorCount w) 1 >? 3).
    + eexists _, _. rewrite <- app_assoc. split; [done|].
      cbn [app checkEvents]. rewrite Hget. cbn [checkEvents checkEvent].
      done.
    + split; [done|]. eexists _, _. split; [done|].
      cbn [checkEvents]. rewrite Hget. split; [done|].
      split; [|done]. cbn [couple]. done.
  - destruct (readBody_discipline tn d0 got0 (bodyOf resp) 0 (total w))
      as (r & t & evs & Hrb & Hr & Hck & Hq & Hcov & _);
      [done|lia|rewrite max_int_val; lia|done|].
    cbn [shrink] in Hrb. rewrite Hrb. rewrite Z.add_0_r in Hck.
    pose proof (recvItems_quiet evs Hq) as Hrecv.
    destruct (Z.geb_spec r (size d0 - got0)) as [Hge|Hlt].
    + split; [done|]. eexists _, Idle. rewrite <- app_assoc.
      split; [done|].
      cbn [app checkEvents]. rewrite Hget, checkEvents_app, Hck.
      cbn [checkEvents checkEvent]. unwrap.
      destruct (Z.leb_spec (size d0) (got0 + r)); [|lia].
      rewrite Z.eqb_refl, bool_decide_eq_true_2 by done.
      split; [done|]. split; [done|].
      change (EvGet ?a ?b :: ?l) with ([EvGet a b] ++ l).
      rewrite !recvItems_app, Hrecv. done.
    + split; [done|]. eexists _, (InFlight d0 (got0 + r)).
      rewrite <- app_assoc. split; [done|].
      cbn [app checkEvents]. rewrite Hget, Hck.
      split; [done|]. split; [|done].
      cbn [couple finished down]. split_and!; try done; try lia.
      unfold shrink. unwrap. f_equal; lia.
Qed.

Lemma shrink_0 d : shrink d 0 = d.
Proof. destruct d. unfold shrink. simpl. f_equal; lia. Qed.

(** One iteration of the worker keeps the discipline, and takes what it
    receives from the head of the channel. *)
Lemma workerIter_discipline tn failed w fl ch resp :
  couple w fl -> Forall (fun d => size d = 0 \/ wfItem d) ch ->
  wfBody (bodyOf resp) ->
  match workerIter tn true failed w ch resp with
  | Continue w' ch' evs =>
      exists fl',
        checkEvents fl evs = Some fl' /\ couple w' fl'
        /\ recvItems evs ++ ch' = ch
        /\ Forall (fun d => size d <> 0) (recvItems evs)
  | Stopped ch' evs =>
      fl = Idle /\ checkEvents fl evs = Some Idle
      /\ exists d, size d = 0 /\ evs = [EvRecv d] /\ ch = d :: ch'
  | Exited evs =>
      exists fl' ch',
        checkEvents fl evs = Some fl' /\ recvItems evs ++ ch' = ch
        /\ Forall (fun d => size d <> 0) (recvItems evs)
  | Blocked => True
  end.
Proof.
  intros Hc Hch Hbody. unfold workerIter.
  destruct fl as [|d0 got]; cbn [couple] in Hc.
  - rewrite Hc. destruct ch as [|d ch']; [done|].
    apply Forall_cons in Hch as [Hd Hch].
    destruct (Z.eqb_spec (size d) 0) as [Hz|Hnz].
    + split; [done|]. split; [|by eauto].
      cbn [checkEvents checkEvent]. by rewrite Hz.
    + destruct Hd as [?|Hd]; [done|].
      pose proof (attempt_discipline tn failed w d 0 ch' [EvRecv d] resp Hd)
        as Hat.
      rewrite shrink_0 in Hat.
      destruct Hd as (_ & Hsz & _).
      specialize (Hat ltac:(lia) Hbody).
      destruct (attempt tn true failed w d ch' [EvRecv d] resp)
        as [w' c' evs|?|evs|]; try done.
      * destruct Hat as (-> & evs1 & fl' & -> & Hck & Hcp & Hrv).
        exists fl'. cbn [app checkEvents checkEvent].
        destruct (Z.eqb_spec (size d) 0); [done|].
        split_and!; try done.
        -- change (EvRecv d :: evs1) with ([EvRecv d] ++ evs1).
           rewrite recvItems_app, Hrv. done.
        -- change (EvRecv d :: evs1) with ([EvRecv d] ++ evs1).
           rewrite recvItems_app, Hrv. by repeat constructor.
      * destruct Hat as (evs1 & fl' & -> & Hck & Hrv).
        exists fl', ch'. cbn [app checkEvents checkEvent].
        destruct (Z.eqb_spec (size d) 0); [done|].
        split_and!; try done.
        -- change (EvRecv d :: evs1) with ([EvRecv d] ++ evs1).
           rewrite recvItems_app, Hrv. done.
        -- change (EvRecv d :: evs1) with ([EvRecv d] ++ evs1).
           rewrite recvItems_app, Hrv. by repeat constructor.
  - destruct Hc as (Hf & Hwf & Hgot & Hdown). rewrite Hf, Hdown.
    pose proof (attempt_discipline tn failed w d0 got ch [] resp Hwf Hgot Hbody)
      as Hat.
    destruct (attempt tn true failed w (shrink d0 got) ch [] resp)
      as [w' c' evs|?|evs|]; try done.
    + destruct Hat as (-> & evs1 & fl' & -> & Hck & Hcp & Hrv).
      exists fl'. cbn [app]. rewrite Hrv. by split_and!.
    + destruct Hat as (evs1 & fl' & -> & Hck & Hrv).
      exists fl', ch. cbn [app]. rewrite Hrv. by split_and!.
Qed.

(** ** What the discipline gives *)

Lemma count_app {A} (f : A -> bool) l1 l2 :
  count f (l1 ++ l2) = (count f l1 + count f l2)%nat.
Proof. unfold count. apply sum_list_with_app. Qed.

Lemma checkEvent_counts off fl e fl' :
  checkEvent fl e = Some fl' ->
  (count (isMarkAt off) [e] + b2n (inflightAt off fl')
   = count (itemAt off) (recvItems [e]) + b2n (inflightAt off fl))%nat.
Proof.
  unfold count, recvItems.
  destruct e as [d|a c|o data|u|o b|], fl as [|d0 got]; cbn [checkEvent];
    intros Hck; try discriminate Hck.
  - injection Hck as <-. unfold itemAt. cbn.
    destruct (size d =? 0); cbn; [lia|].
    destruct (_ =? off); cbn; lia.
  - destruct (_ && _); [|discriminate Hck]. injection Hck as <-. cbn. lia.
  - destruct (_ && _); [|discriminate Hck]. injection Hck as <-. cbn. lia.
  - injection Hck as <-. cbn. lia.
  - injection Hck as <-. cbn. lia.
  - destruct (size d0 <=? got); [|discriminate Hck].
    destruct (Z.eqb_spec o (baseOffset + segmentNum d0)) as [->|Hne].
    + cbn in Hck. destruct (bool_decide _); [|discriminate Hck].
      injection Hck as <-. cbn.
      destruct (_ =? off); cbn; lia.
    + discriminate Hck.
  - injection Hck as <-. cbn. lia.
  - injection Hck as <-. cbn. lia.
Qed.

(** Marks and items in hand add up to the items received. *)
Lemma checkEvents_counts off evs fl fl' :
  checkEvents fl evs = Some fl' ->
  (count (isMarkAt off) evs + b2n (inflightAt off fl')
   = count (itemAt off) (recvItems evs) + b2n (inflightAt off fl))%nat.
Proof.
  revert fl. induction evs as [|e evs IH]; intros fl Hck.
  { cbn in Hck. injection Hck as <-. done. }
  cbn [checkEvents] in Hck.
  destruct (checkEvent fl e) as [fl1|] eqn:He; [|done].
  pose proof (checkEvent_counts off _ _ _ He) as H1.
  pose proof (IH _ Hck) as H2.
  change (e :: evs) with ([e] ++ evs).
  rewrite recvItems_app, !count_app. lia.
Qed.

Lemma checkEvents_marksFinished evs fl fl' :
  checkEvents fl evs = Some fl' -> marksFinished evs.
Proof.
  revert fl. induction evs as [|e evs IH]; intros fl Hck; [constructor|].
  cbn [checkEvents] in Hck.
  destruct (checkEvent fl e) as [fl1|] eqn:He; [|done].
  constructor; [|by eapply IH].
  intros off b ->. destruct fl as [|d got]; cbn in He; [done|].
  destruct (decide (b = finishedSegment)) as [|Hne]; [done|].
  rewrite (bool_decide_eq_false_2 _ Hne), andb_false_r in He. done.
Qed.

Lemma checkEvents_marks evs fl fl' :
  checkEvents fl evs = Some fl' ->
  forall pre off b post,
    evs = pre ++ EvMark off b :: post ->
    (exists pre' d mid,
       pre = pre' ++ EvRecv d :: mid /\ quiet mid = true
       /\ off = baseOffset + segmentNum d /\ b = finishedSegment
       /\ coveredBy mid (position d) (position d + size d))
    \/ (quiet pre = true
        /\ exists d got,
             fl = InFlight d got /\ off = baseOffset + segmentNum d
             /\ b = finishedSegment
             /\ coveredBy pre (position d + got) (position d + size d)).
Proof.
  revert fl. induction evs as [|e evs IH]; intros fl Hck pre off b post Heq.
  { by destruct pre. }
  cbn [checkEvents] in Hck.
  destruct (checkEvent fl e) as [fl1|] eqn:He; [|done].
  destruct pre as [|e' pre]; cbn [app] in Heq;
    injection Heq as -> ->.
  - right. split; [done|].
    destruct fl as [|d got]; cbn in He; [done|].
    destruct (Z.leb_spec (size d) got); [|done].
    destruct (Z.eqb_spec off (baseOffset + segmentNum d)); [|done].
    destruct (decide (b = finishedSegment)) as [Hb|Hne];
      [|rewrite (bool_decide_eq_false_2 _ Hne) in He; done].
    exists d, got. split_and!; try done.
    intros x Hx. lia.
  - destruct (IH _ Hck pre off b post eq_refl)
      as [(pre' & d & mid & -> & Hq & Hoff & Hb & Hcov)
         |(Hq & d & got & -> & Hoff & Hb & Hcov)].
    { left. exists (e' :: pre'), d, mid. by split_and!. }
    destruct e' as [d'| a c |o data|u|o' b'|], fl as [|d0 got0];
      cbn [checkEvent] in He; try discriminate He.
    + destruct (size d' =? 0); [discriminate He|].
      injection He as <- <-.
      left. exists [], d', pre.
      rewrite Z.add_0_r in Hcov. by split_and!.
    + destruct (_ && _); [|discriminate He]. injection He as <- <-.
      right. split; [done|]. eexists _, _. split_and!; try done.
      by apply coveredBy_skip.
    + destruct (Z.ltb_spec got0 (size d0)); [|done].
      destruct (Z.eqb_spec o (position d0 + got0)) as [->|]; [|done].
      cbn in He. injection He as <- <-.
      right. split; [done|]. eexists _, _. split_and!; try done.
      apply coveredBy_write.
      by rewrite Z.add_assoc in Hcov.
    + injection He as <- <-.
      right. split; [done|]. eexists _, _. split_and!; try done.
      by apply coveredBy_skip.
    + destruct (_ && _); inversion He.
    + injection He as <- <-.
      right. split; [done|]. eexists _, _. split_and!; try done.
      by apply coveredBy_skip.
Qed.

(** A worker that keeps the discipline marks an item only after it has
    written all of it. *)
Lemma checkEvents_marksAfterWrites evs fl' :
  checkEvents Idle evs = Some fl' -> marksAfterWrites evs.
Proof.
  intros Hck pre off b post Heq.
  destruct (checkEvents_marks _ _ _ Hck pre off b post Heq)
    as [H|(_ & d & got & ? & _)]; [done|done].
Qed.

(** ** The pool *)

Lemma eventsOf_app t tr1 tr2 :
  eventsOf t (tr1 ++ tr2) = eventsOf t tr1 ++ eventsOf t tr2.
Proof. unfold eventsOf. by rewrite filter_app, fmap_app. Qed.

Lemma eventsOf_tag_same t evs : eventsOf t (tag t evs) = evs.
Proof.
  unfold eventsOf, tag. induction evs as [|e evs IH]; [done|].
  cbn [map]. rewrite filter_cons_True by done. cbn. by f_equal.
Qed.

Lemma eventsOf_tag_other t t' evs : t <> t' -> eventsOf t (tag t' evs) = [].
Proof.
  intros Hne. unfold eventsOf, tag. induction evs as [|e evs IH]; [done|].
  cbn [map]. rewrite filter_cons_False by (cbn; congruence). done.
Qed.

Lemma map_snd_tag t evs : map snd (tag t evs) = evs.
Proof.
  unfold tag. induction evs as [|e evs IH]; [done|]. cbn. by f_equal.
Qed.

Lemma sum_list_with_insert {A} (f : A -> nat) (l : list A) i x y :
  l !! i = Some y ->
  (sum_list_with f (<[i := x]> l) + f y = sum_list_with f l + f x)%nat.
Proof.
  revert i. induction l as [|a l IH]; intros i Hi; [done|].
  destruct i as [|i]; simpl in *.
  - injection Hi as ->. lia.
  - specialize (IH i Hi). lia.
Qed.

Lemma count_insert {A} (f : A -> bool) (l : list A) i x y :
  l !! i = Some y ->
  (count f (<[i := x]> l) + b2n (f y) = count f l + b2n (f x))%nat.
Proof.
  intros Hi. unfold count.
  by apply (sum_list_with_insert (fun a => b2n (f a)) l i x y).
Qed.

Lemma marksFinished_app evs1 evs2 :
  marksFinished evs1 -> marksFinished evs2 -> marksFinished (evs1 ++ evs2).
Proof. unfold marksFinished. intros. by apply Forall_app. Qed.

Lemma sum_list_with_replicate_0 {A} (f : A -> nat) n x :
  f x = 0%nat -> sum_list_with f (replicate n x) = 0%nat.
Proof. intros Hx. induction n as [|n IH]; simpl; [done|]. lia. Qed.

Lemma poolInv_init sent numThreads :
  poolInv sent (initPool sent numThreads) (replicate numThreads Idle).
Proof.
  constructor; cbn [initPool workers trace exited channel].
  - by rewrite !length_replicate.
  - intros t fl [-> _]%lookup_replicate. done.
  - done.
  - intros _ t fl o [-> _]%lookup_replicate [-> _]%lookup_replicate. done.
  - intros off. by rewrite sum_list_with_replicate_0.
  - exists sent. done.
  - intros _. unfold count at 2. by rewrite sum_list_with_replicate_0.
  - constructor.
Qed.

(** One worker does [evs], which its discipline allows, and the pool goes
    on as [q]. *)
Lemma poolInv_act sent p flights t w fl fl' evs ch' o' q :
  poolInv sent p flights -> exited p = false ->
  workers p !! t = Some (Some w) -> flights !! t = Some fl ->
  checkEvents fl evs = Some fl' ->
  recvItems evs ++ ch' = channel p ->
  trace q = trace p ++ tag t evs ->
  workers q = <[t := o']> (workers p) ->
  (exited q = false ->
   channel q = ch'
   /\ match o' with Some w' => couple w' fl' | None => fl' = Idle end
   /\ count isPoison (recvItems evs) = b2n (hasReturned o')) ->
  poolInv sent q (<[t := fl']> flights).
Proof.
  intros [Hlen Hck Hnone Hcp Hcnt (rest & Hsent & Hrest) Hstop Hmk]
    Hex Hw Hfl Hevs Hrecv Htr Hws Hq.
  specialize (Hrest Hex). subst rest.
  assert (Ht : (t < length (workers p))%nat) by (by eapply lookup_lt_Some).
  constructor.
  - by rewrite Hws, !length_insert.
  - intros t0 fl0 Hl. rewrite Htr, eventsOf_app.
    destruct (decide (t0 = t)) as [->|Hne].
    + rewrite list_lookup_insert_eq in Hl by lia. injection Hl as <-.
      rewrite eventsOf_tag_same, checkEvents_app, (Hck _ _ Hfl). done.
    + rewrite list_lookup_insert_ne in Hl by done.
      rewrite eventsOf_tag_other, app_nil_r by done. by apply Hck.
  - intros t0 Ht0. rewrite Hws, length_insert in Ht0.
    rewrite Htr, eventsOf_app, Hnone by done.
    rewrite eventsOf_tag_other by lia. done.
  - intros Hexq t0 fl0 o Hl Ho. rewrite Hws in Ho.
    destruct (Hq Hexq) as (_ & Ho' & _).
    destruct (decide (t0 = t)) as [->|Hne].
    + rewrite list_lookup_insert_eq in Hl by lia.
      rewrite list_lookup_insert_eq in Ho by lia.
      injection Hl as <-. injection Ho as <-. done.
    + rewrite list_lookup_insert_ne in Hl by done.
      rewrite list_lookup_insert_ne in Ho by done.
      by apply (Hcp Hex t0).
  - intros off. rewrite Htr, map_app, map_snd_tag, recvItems_app, !count_app.
    pose proof (Hcnt off) as H1.
    pose proof (checkEvents_counts off _ _ _ Hevs) as H2.
    pose proof (sum_list_with_insert
                  (fun fl => b2n (inflightAt off fl)) flights t fl' fl Hfl)
      as H3.
    cbv beta in H3. lia.
  - exists ch'. rewrite Htr, map_app, map_snd_tag, recvItems_app.
    rewrite <- app_assoc, Hrecv. split; [done|].
    intros Hexq. by destruct (Hq Hexq) as (-> & _).
  - intros Hexq. destruct (Hq Hexq) as (_ & _ & Hp).
    rewrite Htr, map_app, map_snd_tag, recvItems_app, count_app, Hws.
    pose proof (count_insert hasReturned (workers p) t o' (Some w) Hw) as H1.
    cbn [hasReturned b2n] in H1. specialize (Hstop Hex). lia.
  - rewrite Htr, map_app, map_snd_tag. apply marksFinished_app; [done|].
    by eapply checkEvents_marksFinished.
Qed.

Lemma Forall_app_r {A} (P : A -> Prop) l1 l2 :
  Forall P (l1 ++ l2) -> Forall P l2.
Proof. by intros [_ ?]%Forall_app. Qed.

(** A step of the pool keeps the invariant. *)
Lemma poolInv_step sent p flights q :
  wfSent sent -> poolInv sent p flights -> poolStep true p q ->
  exists flights', poolInv sent q flights'.
Proof.
  intros [Hwf _] Hinv Hstep.
  assert (Hchan : exited p = false ->
                  Forall (fun d => size d = 0 \/ wfItem d) (channel p)).
  { intros Hex. destruct (inv_chan _ _ _ Hinv) as (rest & Hsent & Hrest).
    rewrite <- (Hrest Hex), <- Hsent in *. by eapply Forall_app_r. }
  assert (Hfl : forall t w, exited p = false ->
                  workers p !! t = Some (Some w) ->
                  exists fl, flights !! t = Some fl /\ couple w fl).
  { intros t w Hex Hw.
    destruct (lookup_lt_is_Some_2 flights t) as [fl Hfl].
    { rewrite (inv_len _ _ _ Hinv). by eapply lookup_lt_Some. }
    exists fl. split; [done|].
    by apply (inv_couple _ _ _ Hinv Hex t fl (Some w)). }
  destruct Hstep as [t w resp w' ch' evs Hex Hbody Hw Hit
                    |t w resp ch' evs Hex Hbody Hw Hit
                    |t w resp evs Hex Hbody Hw Hit];
    destruct (Hfl t w Hex Hw) as (fl & Hflt & Hcp);
    pose proof (workerIter_discipline (Z.of_nat t) failedAttempt w fl
                  (channel p) resp Hcp (Hchan Hex) Hbody) as Hd;
    rewrite Hit in Hd.
  - destruct Hd as (fl' & Hck & Hcp' & Hrecv & Hnp).
    exists (<[t := fl']> flights).
    eapply (poolInv_act sent p flights t w fl fl' evs ch' (Some w'));
      try done.
    intros _. split_and!; try done.
    cbn [hasReturned b2n]. clear -Hnp. unfold count.
    induction Hnp as [|d l Hd _ IH]; [done|]. simpl. rewrite IH.
    unfold isPoison. by destruct (Z.eqb_spec (size d) 0).
  - destruct Hd as (-> & Hck & d & Hd & -> & Hch).
    exists (<[t := Idle]> flights).
    eapply (poolInv_act sent p flights t w Idle Idle [EvRecv d] ch' None);
      try done.
    intros _. split_and!; try done.
    unfold count, isPoison. simpl. by rewrite Hd.
  - destruct Hd as (fl' & ch' & Hck & Hrecv & Hnp).
    exists (<[t := fl']> flights).
    eapply (poolInv_act sent p flights t w fl fl' evs ch' (Some w));
      try done.
    cbn [workers]. by rewrite list_insert_id.
Qed.

Lemma poolInv_reach sent numThreads p :
  wfSent sent -> poolReach true (initPool sent numThreads) p ->
  exists flights, poolInv sent p flights.
Proof.
  intros Hwf Hreach. induction Hreach as [|q r _ [flights IH] Hstep].
  - eexists. apply poolInv_init.
  - by eapply poolInv_step.
Qed.

Lemma count_itemAt_elem off l :
  (0 < count (itemAt off) l)%nat ->
  off - baseOffset ∈ map segmentNum (filter (fun d => size d <> 0) l).
Proof.
  induction l as [|d l IH]; [cbn; lia|].
  unfold count. cbn [sum_list_with]. fold (count (itemAt off) l).
  unfold itemAt at 1.
  destruct (Z.eqb_spec (size d) 0) as [Hz|Hnz]; cbn [negb andb b2n].
  - rewrite filter_cons_False by (intros ?; done). intros H. apply IH. lia.
  - rewrite filter_cons_True by done. cbn [map].
    destruct (Z.eqb_spec (baseOffset + segmentNum d) off) as [<-|Hne];
      cbn [b2n]; intros H.
    + replace (baseOffset + segmentNum d - baseOffset) with (segmentNum d)
        by lia. left.
    + right. apply IH. lia.
Qed.

Lemma count_itemAt_NoDup off l :
  NoDup (map segmentNum (filter (fun d => size d <> 0) l)) ->
  (count (itemAt off) l <= 1)%nat.
Proof.
  induction l as [|d l IH]; [cbn; lia|].
  unfold count. cbn [sum_list_with]. fold (count (itemAt off) l).
  unfold itemAt at 1.
  destruct (Z.eqb_spec (size d) 0) as [Hz|Hnz]; cbn [negb andb b2n].
  - rewrite filter_cons_False by (intros ?; done). intros H.
    specialize (IH H). lia.
  - rewrite filter_cons_True by done. cbn [map].
    intros [Hnin Hnd]%NoDup_cons. specialize (IH Hnd).
    destruct (Z.eqb_spec (baseOffset + segmentNum d) off) as [<-|Hne];
      cbn [b2n]; [|lia].
    destruct (count (itemAt (baseOffset + segmentNum d)) l) eqn:Hc; [lia|].
    exfalso. apply Hnin.
    pose proof (count_itemAt_elem (baseOffset + segmentNum d) l) as He.
    rewrite Hc in He.
    replace (baseOffset + segmentNum d - baseOffset) with (segmentNum d)
      in He by lia.
    apply He. lia.
Qed.

Lemma count_itemAt_self d l :
  size d <> 0 -> d ∈ l ->
  (0 < count (itemAt (baseOffset + segmentNum d)) l)%nat.
Proof.
  intros Hnz Hin. induction l as [|d' l IH]; [by apply elem_of_nil in Hin|].
  unfold count in *. cbn [sum_list_with].
  apply elem_of_cons in Hin as [<-|Hin].
  - unfold itemAt at 1.
    destruct (Z.eqb_spec (size d) 0); [done|].
    rewrite Z.eqb_refl. cbn. lia.
  - specialize (IH Hin). lia.
Qed.

Lemma poolReach_workers sent numThreads p :
  poolReach true (initPool sent numThreads) p ->
  length (workers p) = numThreads.
Proof.
  intros Hreach. induction Hreach as [|q r _ IH Hstep].
  - cbn. apply length_replicate.
  - destruct Hstep; cbn [workers]; by rewrite ?length_insert.
Qed.

Lemma count_all {A} (f : A -> bool) l :
  Forall (fun a => f a = true) l -> count f l = length l.
Proof.
  intros H. unfold count. induction H as [|a l Ha _ IH]; [done|].
  cbn [sum_list_with length]. rewrite Ha, IH. done.
Qed.

Lemma count_none {A} (f : A -> bool) l :
  Forall (fun a => f a = false) l -> count f l = 0%nat.
Proof.
  intros H. unfold count. induction H as [|a l Ha _ IH]; [done|].
  cbn [sum_list_with]. rewrite Ha, IH. done.
Qed.

(** When the poison comes last and as many workers have returned as
    there is poison, nothing is left on the channel. *)
Lemma channel_drained received rest items psn n :
  received ++ rest = items ++ replicate n psn ->
  Forall (fun d => size d <> 0) items -> size psn = 0 -> (0 < n)%nat ->
  count isPoison received = n ->
  rest = [].
Proof.
  intros Heq Hitems Hpsn Hn Hcount.
  assert (Htot : count isPoison (received ++ rest) = n).
  { rewrite Heq, count_app.
    rewrite (count_none isPoison items).
    - rewrite count_all, length_replicate; [done|].
      apply Forall_replicate. unfold isPoison. by rewrite Hpsn.
    - eapply Forall_impl; [exact Hitems|]. intros d Hd. unfold isPoison.
      by destruct (Z.eqb_spec (size d) 0). }
  rewrite count_app, Hcount in Htot.
  destruct (decide (rest = [])) as [|Hne]; [done|]. exfalso.
  destruct (exists_last Hne) as (rest' & x & ->).
  destruct n as [|n]; [lia|].
  rewrite replicate_S_end, !app_assoc in Heq.
  apply app_inj_tail in Heq as [_ ->].
  rewrite count_app in Htot.
  assert (count isPoison [psn] = 1%nat) as Hp
    by (unfold count, isPoison; cbn; by rewrite Hpsn).
  lia.
Qed.

(** The mark calls of every pool reached from a plan: work items, then
    one poison item per worker. *)
Lemma poolReach_markCalls (sent items : list Download) (psn : Download)
  (numThreads : nat) (p : pool) :
  wfSent sent -> sent = items ++ replicate numThreads psn ->
  Forall (fun d => size d <> 0) items -> size psn = 0 ->
  (0 < numThreads)%nat ->
  poolReach true (initPool sent numThreads) p ->
  markCalls items p.
Proof.
  intros Hwf Hplan Hitems Hpsn Hn Hreach.
  destruct (poolInv_reach sent numThreads p Hwf Hreach) as [flights Hinv].
  destruct Hinv as [Hlen Hck Hnone Hcp Hcnt (rest & Hsent & Hrest) Hstop Hmk].
  assert (Hone : forall off,
            (count (itemAt off) (recvItems (map snd (trace p))) <= 1)%nat).
  { intros off. destruct Hwf as [_ Hnd].
    pose proof (count_itemAt_NoDup off sent Hnd) as H1.
    rewrite <- Hsent, count_app in H1. lia. }
  split_and!.
  - intros t. destruct (decide (t < length (workers p))%nat) as [Ht|Ht].
    + destruct (lookup_lt_is_Some_2 flights t) as [fl Hfl]; [lia|].
      eapply checkEvents_marksAfterWrites. by apply Hck.
    + rewrite Hnone by lia. intros pre off b post Heq. by destruct pre.
  - intros off. specialize (Hcnt off). specialize (Hone off). lia.
  - intros Hex Hall d Hd. subst sent.
    specialize (Hrest Hex). subst rest.
    assert (Hflights : Forall (fun fl => fl = Idle) flights).
    { apply Forall_lookup. intros t fl Hfl.
      destruct (lookup_lt_is_Some_2 (workers p) t) as [o Ho].
      { rewrite <- Hlen. by eapply lookup_lt_Some. }
      pose proof (Hcp Hex t fl o Hfl Ho) as Hc.
      rewrite Forall_lookup in Hall. by rewrite (Hall t o Ho) in Hc. }
    assert (Hret : count hasReturned (workers p) = numThreads).
    { rewrite count_all.
      - by eapply poolReach_workers.
      - eapply Forall_impl; [exact Hall|]. by intros o ->. }
    pose proof (channel_drained _ _ _ _ _ Hsent Hitems Hpsn Hn
                  ltac:(by rewrite (Hstop Hex))) as Hnil.
    rewrite Hnil, app_nil_r in Hsent.
    specialize (Hcnt (baseOffset + segmentNum d)).
    specialize (Hone (baseOffset + segmentNum d)).
    rewrite Forall_forall in Hitems.
    pose proof (count_itemAt_self d (items ++ replicate numThreads psn)
                  (Hitems d Hd) ltac:(apply elem_of_app; by left)) as Hself.
    rewrite <- Hsent in Hself.
    assert (Hz : sum_list_with
                   (fun fl => b2n (inflightAt (baseOffset + segmentNum d) fl))
                   flights = 0%nat).
    { clear -Hflights. induction Hflights as [|fl l -> _ IH]; [done|].
      cbn. exact IH. }
    lia.
Qed.

Lemma poolDo_step p t resp :
  wfBody (bodyOf resp) ->
  poolDo p t resp = p \/ poolStep true p (poolDo p t resp).
Proof.
  intros Hbody. unfold poolDo.
  destruct (exited p) eqn:Hex; [by left|].
  destruct (workers p !! t) as [[w|]|] eqn:Hw; try by left.
  destruct (workerIter _ _ _ w _ resp) eqn:Hit; [right..|by left].
  - by eapply StepContinue.
  - by eapply StepStopped.
  - by eapply StepExited.
Qed.

Lemma poolDo_reach p0 p t resp :
  wfBody (bodyOf resp) ->
  poolReach true p0 p -> poolReach true p0 (poolDo p t resp).
Proof.
  intros Hbody Hreach.
  destruct (poolDo_step p t resp Hbody) as [->|Hstep]; [done|].
  by eapply ReachStep.
Qed.

(** The run ends with the item marked and the worker returned. *)
Example examplePool_trace :
  map snd (trace examplePool)
  = [EvRecv (mkDownload 0 2 0); EvGet 0 1;
     EvWrite 0 [Byte.x41; Byte.x42];
     EvUpdate (mkProgressUpdate 0 2); EvMark 256 finishedSegment;
     EvRecv (mkDownload 2 0 0)]
  /\ workers examplePool = [None] /\ exited examplePool = false.
Proof. by vm_compute. Qed.

(** ** Failed attempts and the retry budget *)

Lemma attempt_failed tn failed w d ch evs resp :
  failed resp = true -> countedAsFailed tn failed w d ch evs resp.
Proof.
  intros Hf. unfold countedAsFailed, attempt. cbn [negb]. by rewrite Hf.
Qed.

Lemma attempt_succeeded tn failed w d ch evs resp :
  failed resp = false ->
  exists w' evs',
    attempt tn true failed w d ch evs resp = Continue w' ch evs'
    /\ errorCount w' = 0.
Proof.
  intros Hf. unfold attempt. cbn [negb]. rewrite Hf.
  destruct (readBody tn d (bodyOf resp) 0 (total w)) as [[r t] evs2].
  destruct (r >=? size d); eexists _, _; split; done.
Qed.

(** Failures in a row on the item in hand. *)
Lemma failing_attempts tn failed ch script w :
  finished w = false -> 0 <= errorCount w <= 3 ->
  Forall (fun r => failed r = true) script ->
  download_segments tn true failed w ch script
  = if decide (errorCount w + Z.of_nat (length script) <= 3)
    then (replicate (length script) (getOf (down w)),
          Running (mkWorker false (down w) (total w)
                     (errorCount w + Z.of_nat (length script))) ch)
    else (replicate (Z.to_nat (4 - errorCount w)) (getOf (down w))
            ++ [EvExit], RunExited).
Proof.
  intros Hfin He Hall. revert w Hfin He.
  induction Hall as [|resp script Hresp _ IH]; intros w Hfin He.
  { cbn [download_segments length]. rewrite decide_True by lia. cbn [replicate].
    do 2 f_equal. destruct w; cbn in *. subst. f_equal. lia. }
  cbn [download_segments length]. unfold workerIter. rewrite Hfin.
  rewrite (attempt_failed tn failed w (down w) ch [] resp Hresp).
  unfold Int64.add. rewrite (wrap_id (errorCount w + 1)) by in_range_solver.
  destruct (Z.gtb_spec (errorCount w + 1) 3) as [Hgt|Hle].
  - rewrite decide_False by lia.
    replace (Z.to_nat (4 - errorCount w)) with 1%nat by lia. done.
  - rewrite IH by (cbn; (done || lia)). cbn [errorCount down total].
    destruct (decide (errorCount w + 1 + Z.of_nat (length script) <= 3)).
    + rewrite decide_True by lia. cbn [app replicate].
      do 3 f_equal. lia.
    + rewrite decide_False by lia.
      replace (Z.to_nat (4 - errorCount w))
        with (S (Z.to_nat (4 - (errorCount w + 1)))) by lia.
      done.
Qed.

(** C5: a worker that takes an item and whose every attempt for it fails
    makes exactly four range requests and then ends the process; the item
    is never marked; before the fourth failure it keeps the item, with the
    failures counted. A successful attempt sets the counter to zero, and
    so the counter is zero whenever an item is taken. *)
Theorem retry_budget (tn : Z) (failed : response -> bool) (w : worker)
  (d : Download) (ch : list Download) (script : list response) :
  finished w = true -> errorCount w = 0 -> size d <> 0 ->
  script <> [] -> Forall (fun r => failed r = true) script ->
  retryBudget tn failed w d ch script
  /\ (forall w0 d0 ch0 evs0 resp,
        failed resp = false ->
        exists w' evs',
          attempt tn true failed w0 d0 ch0 evs0 resp = Continue w' ch0 evs'
          /\ errorCount w' = 0)
  /\ (forall w0 ch0 resp w' ch' evs,
        workerIter tn true failed w0 ch0 resp = Continue w' ch' evs ->
        finished w' = true -> errorCount w' = 0).
Proof.
  intros Hfin He Hsz Hne Hall. split_and!.
  - unfold retryBudget.
    destruct script as [|resp script]; [done|].
    apply Forall_cons in Hall as [Hresp Hall].
    cbn [download_segments length]. unfold workerIter. rewrite Hfin.
    destruct (Z.eqb_spec (size d) 0); [done|].
    rewrite (attempt_failed tn failed w d ch [EvRecv d] resp Hresp).
    rewrite He. change (Int64.add 0 1 >? 3) with false. cbv iota.
    change (Int64.add 0 1) with 1.
    rewrite (failing_attempts tn failed ch script) by (cbn; (done || lia)).
    cbn [errorCount down total].
    destruct (decide (1 + Z.of_nat (length script) <= 3)).
    + rewrite decide_True by lia. cbn [app replicate].
      do 4 f_equal. lia.
    + rewrite decide_False by lia. done.
  - intros. by apply attempt_succeeded.
  - intros w0 ch0 resp w' ch' evs Hit Hf.
    unfold workerIter in Hit.
    assert (Hat : forall d0 c0 e0,
              attempt tn true failed w0 d0 c0 e0 resp = Continue w' ch' evs ->
              errorCount w' = 0).
    { intros d0 c0 e0. unfold attempt. cbn [negb].
      destruct (failed resp).
      - destruct (_ >? 3); [done|]. intros [= <- _ _]. done.
      - destruct (readBody _ _ _ _ _) as [[r t] evs2].
        destruct (r >=? size d0); by intros [= <- _ _]. }
    destruct (finished w0); [|by eapply Hat].
    destruct ch0 as [|d0 c0]; [done|].
    destruct (size d0 =? 0); [done|]. by eapply Hat.
Qed.

Lemma retry_budget_witness :
  retryBudget 0 failedAttempt initWorker (mkDownload 0 5 0) []
    [TransportError; Response 404 []; Response 500 []; Response 503 [];
     TransportError].
Proof.
  apply (retry_budget 0 failedAttempt initWorker (mkDownload 0 5 0) []
           [TransportError; Response 404 []; Response 500 [];
            Response 503 []; TransportError]);
    [reflexivity | reflexivity | by vm_compute | done
    | by repeat constructor].
Defined.

(** ** Which responses count as failed *)

Lemma failedAttempt_iff resp :
  failedAttempt resp = true
  <-> resp = TransportError
      \/ exists status body,
           resp = Response status body /\ status <> 206 /\ status <> 200.
Proof.
  destruct resp as [|status body]; cbn [failedAttempt].
  - split; [by left|done].
  - destruct (Z.eqb_spec status 206), (Z.eqb_spec status 200); cbn;
      split; try done.
    + intros [?|(s & b & [= -> ->] & ? & ?)]; done.
    + intros [?|(s & b & [= -> ->] & ? & ?)]; done.
    + intros [?|(s & b & [= -> ->] & ? & ?)]; done.
    + intros _. right. by eauto.
Qed.

(** C6 (as amended): in [main.go] an attempt counts as failed (the counter
    goes up by one, nothing is read or written, and the process exits once
    the counter passes three) exactly when the request fails in transport
    or the status is neither 206 nor 200; a response with status 200 or
    206 is read, and sets the counter to zero. *)
Theorem failed_unless_206_or_200 (tn : Z) (w : worker) (d : Download)
  (ch : list Download) (evs : list event) (resp : response) :
  (resp = TransportError
   \/ exists status body,
        resp = Response status body /\ status <> 206 /\ status <> 200) ->
  countedAsFailed tn failedAttempt w d ch evs resp
  /\ (forall status body,
        status = 206 \/ status = 200 ->
        exists w' evs',
          attempt tn true failedAttempt w d ch evs (Response status body)
          = Continue w' ch evs'
          /\ errorCount w' = 0).
Proof.
  intros Hresp. split.
  - apply attempt_failed. by apply failedAttempt_iff.
  - intros status body Hst. apply attempt_succeeded.
    cbn [failedAttempt]. destruct Hst as [-> | ->]; done.
Qed.

Lemma failed_unless_206_or_200_witness :
  countedAsFailed 0 failedAttempt initWorker (mkDownload 0 5 0) []
    [EvRecv (mkDownload 0 5 0)] (Response 404 [[Byte.x41]]).
Proof.
  apply (failed_unless_206_or_200 0 initWorker (mkDownload 0 5 0) []
           [EvRecv (mkDownload 0 5 0)] (Response 404 [[Byte.x41]])).
  right. exists 404, [[Byte.x41]]. split; [reflexivity|]. split; lia.
Defined.

(** The second variant of the program does what the claim says: there
    only a 206 is not a failure. *)
Lemma strict_variant_fails_unless_206 : fetchFailureClaim failedAttemptStrict.
Proof.
  intros tn w d ch evs resp Hresp. apply attempt_failed.
  destruct resp as [|status body]; [done|]. cbn [failedAttemptStrict].
  destruct (Z.eqb_spec status 206) as [->|]; [|done].
  by destruct (Hresp body).
Qed.

(** C6 as stated fails in [main.go]: a response with status 200 is not a
    206, yet the attempt is not counted as failed. Here the counter stood
    at two; the body is read and written, the counter goes back to zero
    and the segment is marked. *)
Lemma status_200_counterexample :
  (forall body, Response 200 [[Byte.x41]] <> Response 206 body)
  /\ workerIter 0 true failedAttempt
       (mkWorker false (mkDownload 0 1 0) 0 2) [] (Response 200 [[Byte.x41]])
     = Continue (mkWorker true (mkDownload 0 1 0) 1 0) []
         [EvGet 0 0; EvWrite 0 [Byte.x41];
          EvUpdate (mkProgressUpdate 0 1); EvMark 256 finishedSegment]
  /\ ~ fetchFailureClaim failedAttempt.
Proof.
  split_and!; [done|by vm_compute|].
  intros Hclaim.
  specialize (Hclaim 0 (mkWorker false (mkDownload 0 1 0) 0 2)
                (mkDownload 0 1 0) [] [] (Response 200 [[Byte.x41]])
                ltac:(done)).
  vm_compute in Hclaim. discriminate Hclaim.
Qed.

(** ** Partial completion *)







(** Half of the bytes, then the rest: the second request is for the second
    half only, and the mark comes last. *)
Example partial_completion_example :
  download_segments 0 true failedAttempt
    (mkWorker false (mkDownload 0 4 7) 0 0) []
    [Response 206 [[Byte.x41; Byte.x42]];
     Response 206 [[Byte.x43; Byte.x44]]]
  = ([EvGet 0 3; EvWrite 0 [Byte.x41; Byte.x42];
      EvUpdate (mkProgressUpdate 0 2);
      EvGet 2 3; EvWrite 2 [Byte.x43; Byte.x44];
      EvUpdate (mkProgressUpdate 0 4);
      EvMark 263 finishedSegment],
     Running (mkWorker true (mkDownload 2 2 7) 4 0) []).
Proof. by vm_compute. Qed.

(** ** The supervisor *)

Lemma findFileLength_ok length :
  length <> -1 -> findFileLength (HeadResponse 200 length) = Ret (Some length).
Proof.
  intros Hne. cbn [findFileLength]. rewrite Z.eqb_refl.
  by destruct (Z.eqb_spec length (-1)).
Qed.

Section SupervisorFacts.
Context `{codec : GobCodec}.

Lemma download_clean d length numThreads forceClean info err :
  writable d = true ->
  0 <= length -> length + defaultSegmentSize - 1 <= Int64.max_int ->
  forceClean = negb (bool_decide (is_Some (outputFile d))) ->
  (forceClean = false -> is_Some (progressFile d)) ->
  (forceClean = false ->
   readProgressInfo (progressFile d) = Ret (info, err)) ->
  forceClean = true \/ is_Some err \/ Length info <> length ->
  download (HeadResponse 200 length) d numThreads
  = Ret (cleanStart length numThreads).
Proof.
  intros Hw Hl Hmax Hfc Hprog Hread Hwhy.
  unfold download. rewrite findFileLength_ok by lia.
  cbn [obind]. rewrite <- Hfc.
  assert (Hshort : negb forceClean && sizeIs (outputFile d) length
                   && negb (bool_decide (is_Some (progressFile d)))
                   = false).
  { destruct forceClean; [done|].
    rewrite (bool_decide_eq_true_2 _ (Hprog eq_refl)).
    by rewrite andb_false_r. }
  rewrite Hshort.
  destruct (setupProgressFile_decides d length defaultSegmentSize forceClean
              info err Hw Hl ltac:(done) Hmax Hread)
    as (r & -> & Herr & Hclean & Hfresh & _).
  cbn [obind]. rewrite Herr.
  assert (Hc : sr_clean r = true)
    by (apply Hclean; destruct Hwhy as [?|[?|?]]; by eauto).
  destruct (Hfresh Hc) as [Hinfo Hfile].
  rewrite Hc.
  unfold openOutput. rewrite Hw, Hinfo, Hfile.
  unfold cleanStart, instructionsSent.
  rewrite enqueueSegments_fresh by done. done.
Qed.

(** C8: when a stored resume state is read back and its [totalLength]
    is not the probed length, the run starts clean: the progress file is
    written anew, the state has every segment pending, the output file is
    empty when the workers start, and every segment of the plan is
    sent. *)
Theorem length_mismatch_starts_clean (d : disk) (out : list byte)
  (info : ProgressInfo) (length : Z) (numThreads : nat) :
  outputFile d = Some out -> writable d = true ->
  0 <= length -> length + defaultSegmentSize - 1 <= Int64.max_int ->
  readProgressInfo (progressFile d) = Ret (info, None) ->
  Length info <> length ->
  download (HeadResponse 200 length) d numThreads
  = Ret (cleanStart length numThreads).
Proof.
  intros Hout Hw Hl Hmax Hread Hne.
  apply (download_clean d length numThreads false info None);
    try done.
  - by rewrite Hout, bool_decide_eq_true_2.
  - intros _. destruct (progressFile d); [done|]. by cbn in Hread.
  - by right; right.
Qed.

(** C9: when the output file is there with exactly the probed length
    and there is no progress file, [download] returns at once: no worker
    is started (so no range is requested and nothing is written) and the
    disk is as it was. *)
Theorem already_downloaded (d : disk) (out : list byte) (length : Z)
  (numThreads : nat) :
  outputFile d = Some out -> Z.of_nat (List.length out) = length ->
  progressFile d = None ->
  download (HeadResponse 200 length) d numThreads
  = Ret (AlreadyDownloaded d)
  /\ startedPool (AlreadyDownloaded d) numThreads = None.
Proof.
  intros Hout Hlen Hprog. split; [|done].
  unfold download. rewrite findFileLength_ok by lia.
  cbn [obind]. rewrite Hout, Hprog. cbn [sizeIs].
  rewrite bool_decide_eq_true_2 by done.
  rewrite bool_decide_eq_false_2 by (by intros [? ?]).
  rewrite (proj2 (Z.eqb_eq _ _) Hlen). cbn [negb andb].
  unfold removeProgress. destruct d; cbn in *. by subst.
Qed.

Lemma setupProgressFile_forced d length segmentSize r :
  setupProgressFile d length segmentSize true = Ret r -> sr_clean r = true.
Proof.
  unfold setupProgressFile. cbn [negb obind].
  destruct (findSegmentCount length segmentSize); [|done]. cbn [obind].
  destruct (beginProgressFile _ _ _); [|by intros [= <-]].
  destruct (makeBools _); [|done]. by intros [= <-].
Qed.

(** C10: when the output file is missing, the run starts clean whatever
    the progress file holds; and a run that resumes (does not truncate)
    has found the output file. *)
Theorem missing_output_starts_clean (d : disk) (length : Z)
  (numThreads : nat) :
  outputFile d = None -> writable d = true ->
  0 <= length -> length + defaultSegmentSize - 1 <= Int64.max_int ->
  download (HeadResponse 200 length) d numThreads
  = Ret (cleanStart length numThreads)
  /\ (forall h d0 n d' info sent,
        download h d0 n = Ret (Started d' info false sent) ->
        is_Some (outputFile d0)).
Proof.
  intros Hout Hw Hl Hmax. split.
  - apply (download_clean d length numThreads true zeroInfo None);
      try done.
    + rewrite Hout. by rewrite bool_decide_eq_false_2 by (by intros [? ?]).
    + by left.
  - clear. intros h d0 n d' info sent. unfold download.
    destruct (findFileLength h) as [[len|]|]; cbn [obind]; try done.
    destruct (outputFile d0) as [out|] eqn:Hout; [by eauto|].
    rewrite bool_decide_eq_false_2 by (by intros [? ?]).
    cbn [negb andb].
    destruct (setupProgressFile d0 len defaultSegmentSize true)
      as [r|] eqn:Hsetup; cbn [obind]; [|done].
    rewrite (setupProgressFile_forced _ _ _ _ Hsetup).
    destruct (sr_err r); [done|].
    destruct (openOutput _ _); [|done]. by intros [= _ _].
Qed.
End SupervisorFacts.

Lemma length_mismatch_starts_clean_witness :
  @download gobCodec (HeadResponse 200 7)
    (mkDisk (Some [Byte.x41]) (Some exampleStored) true) 2
  = Ret (cleanStart 7 2).
Proof.
  apply (@length_mismatch_starts_clean gobCodec
           (mkDisk (Some [Byte.x41]) (Some exampleStored) true)
           [Byte.x41] (mkProgressInfo 5 2 [true; false; false]) 7 2).
  - reflexivity.
  - reflexivity.
  - lia.
  - unfold Int64.max_int, defaultSegmentSize. lia.
  - by vm_compute.
  - cbn. lia.
Defined.

Lemma already_downloaded_witness :
  @download gobCodec (HeadResponse 200 3)
    (mkDisk (Some [Byte.x41; Byte.x42; Byte.x43]) None true) 4
  = Ret (AlreadyDownloaded
           (mkDisk (Some [Byte.x41; Byte.x42; Byte.x43]) None true)).
Proof.
  apply (@already_downloaded gobCodec
           (mkDisk (Some [Byte.x41; Byte.x42; Byte.x43]) None true)
           [Byte.x41; Byte.x42; Byte.x43] 3 4);
    reflexivity.
Defined.

Lemma missing_output_starts_clean_witness :
  @download gobCodec (HeadResponse 200 7)
    (mkDisk None (Some exampleStored) true) 2
  = Ret (cleanStart 7 2).
Proof.
  apply (@missing_output_starts_clean gobCodec
           (mkDisk None (Some exampleStored) true) 7 2).
  - reflexivity.
  - reflexivity.
  - lia.
  - unfold Int64.max_int, defaultSegmentSize. lia.
Defined.

(** With the output file in place and the stored length equal to the
    probed one, the run resumes: nothing is truncated and only the
    segments that are not marked are sent. *)
Example resume_example :
  @download gobCodec (HeadResponse 200 5)
    (mkDisk (Some [Byte.x41; Byte.x42]) (Some exampleStored) true) 1
  = Ret (Started
           (mkDisk (Some [Byte.x41; Byte.x42]) (Some exampleStored) true)
           (mkProgressInfo 5 2 [true; false; false]) false
           [mkDownload 2 2 1; mkDownload 4 1 2; mkDownload 5 0 0]).
Proof. by vm_compute. Qed.

(** ** What is sent is what the pool expects *)

Lemma segmentSpec_wf length segmentSize i :
  0 < segmentSize -> 0 <= i -> i * segmentSize < length ->
  length + Z.of_nat bufSize <= Int64.max_int ->
  wfItem (segmentSpec length segmentSize i).
Proof.
  intros Hs Hi Hlt Hmax. unfold wfItem, segmentSpec, baseOffset, bufSize in *.
  cbn [position size segmentNum]. rewrite max_int_val in *.
  assert (i <= i * segmentSize) by nia.
  split_and!; lia.
Qed.

Lemma enqueueFrom_wf length segmentSize segs0 segs seg :
  0 <= length -> 0 < segmentSize ->
  length + segmentSize - 1 <= Int64.max_int ->
  length + Z.of_nat bufSize <= Int64.max_int ->
  0 <= seg ->
  (forall i, seg <= i < seg + Z.of_nat (List.length segs) ->
             i * segmentSize < length) ->
  Forall (fun d => wfItem d /\ seg <= segmentNum d)
    (enqueueFrom (mkProgressInfo length segmentSize segs0) seg segs)
  /\ NoDup (map segmentNum
             (enqueueFrom (mkProgressInfo length segmentSize segs0) seg segs)).
Proof.
  intros Hl Hs Hmax Hbuf. revert seg.
  induction segs as [|done segs IH]; intros seg Hseg Hall.
  { split; constructor. }
  cbn [enqueueFrom].
  destruct (IH (seg + 1) ltac:(lia)) as [Hwf Hnd].
  { intros i Hi. apply Hall. cbn [List.length]. lia. }
  assert (Hwf' : Forall (fun d => wfItem d /\ seg <= segmentNum d)
                   (enqueueFrom (mkProgressInfo length segmentSize segs0)
                      (seg + 1) segs)).
  { eapply Forall_impl; [exact Hwf|]. intros d [? ?]. split; [done|lia]. }
  destruct done; [done|].
  assert (Hlt : seg * segmentSize < length)
    by (apply Hall; cbn [List.length]; lia).
  rewrite segmentInstruction_spec by done.
  split.
  - constructor; [|done]. split; [by apply segmentSpec_wf|]. cbn. lia.
  - cbn [map]. apply NoDup_cons. split; [|done].
    cbn [segmentSpec segmentNum]. intros Hin.
    apply list_elem_of_fmap in Hin as (d & Hd & Hin).
    rewrite Forall_forall in Hwf. destruct (Hwf d Hin) as [_ Hge]. lia.
Qed.

Lemma filter_all {A} (P : A -> Prop) `{forall a, Decision (P a)} (l : list A) :
  Forall P l -> filter P l = l.
Proof.
  intros Hl. induction Hl as [|a l Ha _ IH]; [done|].
  by rewrite filter_cons_True, IH.
Qed.

Lemma filter_none {A} (P : A -> Prop) `{forall a, Decision (P a)} (l : list A) :
  Forall (fun a => ~ P a) l -> filter P l = [].
Proof.
  intros Hl. induction Hl as [|a l Ha _ IH]; [done|].
  by rewrite filter_cons_False.
Qed.

(** What [download] sends for a state whose bitmap has the length its
    header gives is what the pool expects: items of the plan, no segment
    twice, then the poison. *)
Lemma instructionsSent_wf length segmentSize segs numThreads :
  0 <= length -> 0 < segmentSize ->
  length + segmentSize - 1 <= Int64.max_int ->
  length + Z.of_nat bufSize <= Int64.max_int ->
  Z.of_nat (List.length segs) = ceilDiv length segmentSize ->
  wfSent (instructionsSent (mkProgressInfo length segmentSize segs)
            numThreads).
Proof.
  intros Hl Hs Hmax Hbuf Hlen.
  pose proof (ceilDiv_spec length segmentSize Hl Hs) as [Hn Hc].
  destruct (enqueueFrom_wf length segmentSize segs segs 0 Hl Hs Hmax Hbuf)
    as [Hwf Hnd]; [lia| |].
  { intros i Hi. rewrite Hlen in Hi.
    assert (i * segmentSize <= (ceilDiv length segmentSize - 1) * segmentSize)
      by (apply Z.mul_le_mono_nonneg_r; lia).
    lia. }
  unfold wfSent, instructionsSent, enqueueSegments. cbn [segments]. split.
  - apply Forall_app. split.
    + eapply Forall_impl; [exact Hwf|]. intros d [? _]. by right.
    + apply Forall_replicate. by left.
  - rewrite filter_app, filter_all, filter_none, app_nil_r; [done| |].
    + apply Forall_replicate. cbn. by intros H.
    + eapply Forall_impl; [exact Hwf|]. intros d [(_ & ? & _) _]. lia.
Qed.

(** The bitmap that is read back says, place by place, whether the byte of
    the segment in the file is [finishedSegment]: the segments [download]
    sends after a resume are those whose byte is not. *)
Lemma readProgressInfo_bitmap `{GobCodec} f info :
  readProgressInfo (Some f) = Ret (info, None) ->
  segments info = map (doneAt f) (seq 0 (List.length (segments info))).
Proof.
  unfold readProgressInfo. intros Hread.
  destruct (negb _); [done|].
  destruct (gobDecode (drop 4 f)) as [[l s]|]; [|done].
  destruct (findSegmentCount l s) as [c|]; [|done].
  cbn [obind] in Hread.
  destruct (c >? maxSegments); [done|].
  unfold makeBools in Hread.
  destruct (Z.ltb_spec c 0); [done|].
  cbn [obind] in Hread. injection Hread as <-. cbn [segments].
  rewrite readSegments_fresh by done.
  by rewrite length_fmap, length_seq.
Qed.

Lemma enqueueFrom_pending info segs seg item :
  item ∈ enqueueFrom info seg segs ->
  exists k : nat,
    segs !! k = Some false /\ segmentNum item = seg + Z.of_nat k.
Proof.
  revert seg. induction segs as [|done segs IH]; intros seg Hin.
  { by apply elem_of_nil in Hin. }
  cbn [enqueueFrom] in Hin.
  assert (Hrest : item ∈ enqueueFrom info (seg + 1) segs ->
                  exists k : nat,
                    (done :: segs) !! k = Some false
                    /\ segmentNum item = seg + Z.of_nat k).
  { intros H. destruct (IH _ H) as (k & Hk & Hseg).
    exists (S k). split; [done|]. lia. }
  destruct done; [by apply Hrest|].
  apply elem_of_cons in Hin as [->|Hin]; [|by apply Hrest].
  exists 0%nat. split; [done|]. cbn. lia.
Qed.

(** X16: the items [download] sends, on a clean start or a resume, are
    segments whose byte in the progress file the workers start on does not
    say "done": a mark turns such a byte from pending to done. *)
Lemma sent_items_pending `{GobCodec} h d numThreads d' info truncate sent f
  item :
  (forall length, h = HeadResponse 200 length -> Int64.in_range length) ->
  download h d numThreads = Ret (Started d' info truncate sent) ->
  progressFile d' = Some f ->
  item ∈ sent -> size item <> 0 ->
  doneAt f (Z.to_nat (segmentNum item)) = false.
Proof.
  intros Hrange Hdl Hf Hin Hsz. unfold download in Hdl.
  destruct h as [|status len]; [done|]. cbn [findFileLength] in Hdl.
  destruct (Z.eqb_spec status 200) as [->|]; [|done].
  specialize (Hrange len eq_refl).
  destruct (len =? -1); [done|]. cbn [negb orb obind] in Hdl.
  destruct (_ && _); [done|].
  destruct (setupProgressFile d len defaultSegmentSize _) as [r|] eqn:Hsetup;
    cbn [obind] in Hdl; [|done].
  destruct (sr_err r) eqn:Herr; [done|].
  destruct (openOutput d (sr_clean r)); [|done].
  injection Hdl as <- <- <- <-. cbn [progressFile] in Hf.
  assert (Hitem : item ∈ enqueueSegments (sr_info r)).
  { unfold instructionsSent in Hin. apply elem_of_app in Hin as [?|Hp]; [done|].
    apply elem_of_replicate in Hp as [-> _]. done. }
  apply enqueueFrom_pending in Hitem as (k & Hk & Hseg).
  rewrite Hseg, Z.add_0_l, Nat2Z.id.
  unfold setupProgressFile in Hsetup.
  set (fc := negb (bool_decide (is_Some (outputFile d)))) in *.
  assert (Hcleanpath :
    forall i0,
      (let! segmentCount := findSegmentCount len defaultSegmentSize in
       match beginProgressFile (writable d) len defaultSegmentSize with
       | inr e => Ret (mkSetupResult (progressFile d) i0 true (Some e))
       | inl f0 =>
           let! segs := makeBools segmentCount in
           Ret (mkSetupResult (Some f0)
                  (mkProgressInfo len defaultSegmentSize segs) true None)
       end) = Ret r ->
      doneAt f k = false).
  { intros i0 Hc.
    destruct (findSegmentCount len defaultSegmentSize); [|done].
    cbn [obind] in Hc. unfold beginProgressFile in Hc.
    destruct (writable d); [|injection Hc as <-; done].
    destruct (makeBools _); [|done]. cbn [obind] in Hc.
    injection Hc as <-. cbn [sr_progress] in Hf. injection Hf as <-.
    apply doneAt_short.
    pose proof (gob_header_fits len defaultSegmentSize Hrange
                  ltac:(by vm_compute)) as Hfit.
    change (length magic) with 4%nat in Hfit. cbn [length]. lia. }
  destruct fc; cbn [negb obind] in Hsetup; [by eapply Hcleanpath|].
  destruct (readProgressInfo (progressFile d)) as [[i0 err]|] eqn:Hread;
    cbn [obind] in Hsetup; [|done].
  destruct err as [e|]; cbn [obind] in Hsetup; [by eapply Hcleanpath|].
  destruct (negb (len =? Length i0)); cbn [obind] in Hsetup;
    [by eapply Hcleanpath|].
  destruct (findSegmentCount len (SegmentSize i0)); [|done].
  cbn [obind] in Hsetup.
  destruct (negb _); [by eapply Hcleanpath|].
  destruct (writable d); injection Hsetup as <-; [|done].
  cbn [sr_progress sr_info] in *.
  rewrite Hf in Hread.
  rewrite (readProgressInfo_bitmap f i0 Hread) in Hk.
  rewrite list_lookup_fmap in Hk.
  destruct (seq 0 (List.length (segments i0)) !! k) as [j|] eqn:Hj; [|done].
  apply lookup_seq in Hj as [-> _]. cbn in Hk. by injection Hk.
Qed.

(** * More of the program *)

(** ** [countTrue] and the enqueue loop *)

Lemma countTrue_from c arr :
  foldl (fun count b => if b : bool then count + 1 else count) c arr
  = c + countTrue arr.
Proof.
  unfold countTrue. revert c. induction arr as [|b arr IH]; intros c.
  { cbn. lia. }
  cbn [foldl]. rewrite IH, (IH (if b then 0 + 1 else 0)).
  destruct b; lia.
Qed.

Lemma countTrue_nonneg arr : 0 <= countTrue arr.
Proof.
  induction arr as [|b arr IH]; [done|].
  unfold countTrue. cbn [foldl]. rewrite countTrue_from. destruct b; lia.
Qed.

Lemma enqueueFrom_length info seg segs :
  Z.of_nat (length (enqueueFrom info seg segs)) + countTrue segs
  = Z.of_nat (length segs).
Proof.
  revert seg. induction segs as [|b segs IH]; intros seg; [done|].
  unfold countTrue. cbn [enqueueFrom foldl length].
  rewrite countTrue_from. specialize (IH (seg + 1)).
  destruct b; cbn [length]; rewrite ?Nat2Z.inj_succ; revert IH;
    generalize (length (enqueueFrom info (seg + 1) segs)) (countTrue segs)
      (length segs); intros l c n IH; lia.
Qed.

(** X1: what [download] sends and what [countTrue] counts add up to the
    bitmap: the number of segments enqueued plus the number of segments
    already done is the number of segments, so "Resuming a/b" is followed
    by [b - a] work items; and [countTrue] lies between 0 and the length. *)
Theorem enqueued_plus_done (info : ProgressInfo) :
  Z.of_nat (length (enqueueSegments info)) + countTrue (segments info)
  = Z.of_nat (length (segments info))
  /\ 0 <= countTrue (segments info) <= Z.of_nat (length (segments info)).
Proof.
  pose proof (enqueueFrom_length info 0 (segments info)) as H.
  pose proof (countTrue_nonneg (segments info)).
  unfold enqueueSegments. split; [done|]. lia.
Qed.

(** ** Positioned writes *)

Lemma writeAt_length f off data :
  0 <= off -> data <> [] ->
  length (writeAt f off data)
  = (length f `max` (Z.to_nat off + length data))%nat.
Proof.
  intros Hoff Hdata. unfold writeAt.
  destruct (Z.ltb_spec off 0); [lia|].
  destruct data as [|b data]; [done|].
  rewrite !length_app, length_take, length_replicate, length_drop. lia.
Qed.

Lemma writeAt_lookup f off data (j : nat) :
  0 <= off -> data <> [] ->
  writeAt f off data !! j
  = if decide (Z.to_nat off <= j < Z.to_nat off + length data)%nat
    then data !! (j - Z.to_nat off)%nat
    else if decide (j < length f)%nat then f !! j
    else if decide (j < Z.to_nat off)%nat then Some Byte.x00
    else None.
Proof.
  intros Hoff Hdata. unfold writeAt.
  destruct (Z.ltb_spec off 0); [lia|].
  destruct data as [|b0 data0]; [done|].
  generalize (b0 :: data0) as data. clear b0 data0 Hdata. intros data.
  generalize (Z.to_nat off) as o. intros o.
  assert (Hlt : (length (take o f) = o `min` length f)%nat)
    by apply length_take.
  destruct (decide (j < o `min` length f)%nat) as [Hj|Hj].
  { rewrite lookup_app_l by lia.
    rewrite lookup_take_lt by lia. repeat case_decide; try lia; done. }
  rewrite lookup_app_r by lia. rewrite Hlt.
  destruct (decide (j < o)%nat) as [Hjo|Hjo].
  { rewrite lookup_app_l by (rewrite length_replicate; lia).
    rewrite lookup_replicate_2 by lia.
    repeat case_decide; try lia; done. }
  rewrite lookup_app_r by (rewrite length_replicate; lia).
  rewrite length_replicate.
  replace (j - o `min` length f - (o - length f))%nat with (j - o)%nat by lia.
  destruct (decide (j < o + length data)%nat) as [Hin|Hout].
  { rewrite lookup_app_l by lia. rewrite decide_True by lia. done. }
  rewrite lookup_app_r by lia. rewrite lookup_drop.
  replace (o + length data + (j - o - length data))%nat with j by lia.
  rewrite decide_False by lia.
  destruct (decide (j < length f)%nat); [done|].
  apply lookup_ge_None. lia.
Qed.

(** X2: two positioned writes to ranges that do not meet can be done in
    either order: the file is the same. This is what lets the workers
    write their items to the one output file without a lock. *)
Theorem writeAt_disjoint_commute (f : list byte) (off1 off2 : Z)
  (data1 data2 : list byte) :
  off1 + Z.of_nat (length data1) <= off2
  \/ off2 + Z.of_nat (length data2) <= off1 ->
  writeAt (writeAt f off1 data1) off2 data2
  = writeAt (writeAt f off2 data2) off1 data1.
Proof.
  intros Hdisj.
  destruct (Z.ltb_spec off1 0) as [Hneg1|Hpos1].
  { unfold writeAt at 2 3. by destruct (Z.ltb_spec off1 0); [|lia]. }
  destruct (Z.ltb_spec off2 0) as [Hneg2|Hpos2].
  { unfold writeAt at 1 4. by destruct (Z.ltb_spec off2 0); [|lia]. }
  destruct (decide (data1 = [])) as [->|Hd1].
  { unfold writeAt at 2 3. by destruct (off1 <? 0). }
  destruct (decide (data2 = [])) as [->|Hd2].
  { unfold writeAt at 1 4. by destruct (off2 <? 0). }
  apply list_eq. intros j.
  rewrite !writeAt_lookup, !writeAt_length by done.
  repeat case_decide; try lia; done.
Qed.

(** X3: marking a segment done twice is the same as marking it once, and
    the marks of two segments can be written in either order. *)
Theorem markSegment_idempotent_commute (f : list byte) (i j : Z) :
  markSegment (markSegment f i) i = markSegment f i
  /\ markSegment (markSegment f i) j = markSegment (markSegment f j) i.
Proof.
  unfold markSegment.
  set (a := Int64.add baseOffset i). set (b := Int64.add baseOffset j).
  clearbody a b. clear i j.
  assert (Hneg : forall g off, off < 0 -> writeAt g off [finishedSegment] = g).
  { intros g off Hoff. unfold writeAt.
    by destruct (Z.ltb_spec off 0); [|lia]. }
  split.
  - destruct (Z.ltb_spec a 0) as [Ha|Ha]; [by rewrite !Hneg|].
    apply list_eq. intros k.
    rewrite !writeAt_byte_lookup, !writeAt_byte_length by done.
    repeat case_decide; try lia; done.
  - destruct (Z.ltb_spec a 0) as [Ha|Ha]; [by rewrite !(Hneg _ a)|].
    destruct (Z.ltb_spec b 0) as [Hb|Hb]; [by rewrite !(Hneg _ b)|].
    apply list_eq. intros k.
    rewrite !writeAt_byte_lookup, !writeAt_byte_length by done.
    repeat case_decide; try lia; done.
Qed.

Lemma writeAt_disjoint_commute_witness :
  writeAt (writeAt [Byte.x41] 0 [Byte.x42]) 3 [Byte.x43]
  = writeAt (writeAt [Byte.x41] 3 [Byte.x43]) 0 [Byte.x42].
Proof. apply writeAt_disjoint_commute. left. simpl. lia. Defined.

(** ** Reading the resume state, and resuming *)

Lemma enqueueFrom_sends info segs seg (k : nat) :
  segs !! k = Some false ->
  segmentInstruction info (seg + Z.of_nat k) ∈ enqueueFrom info seg segs.
Proof.
  revert seg k. induction segs as [|b segs IH]; intros seg k Hk; [done|].
  cbn [enqueueFrom]. destruct k as [|k].
  - cbn in Hk. injection Hk as ->.
    replace (seg + Z.of_nat 0) with seg by lia. by left.
  - cbn in Hk. specialize (IH (seg + 1) k Hk).
    replace (seg + Z.of_nat (S k)) with (seg + 1 + Z.of_nat k) by lia.
    destruct b; [done|by right].
Qed.

Section ResumeFacts.
Context `{codec : GobCodec}.

(** X4: what [readProgressInfo] makes of any file that starts with the
    magic number and a header it can decode, for a length and a segment
    size in range and at most [maxSegments] segments: the header's two
    fields, and a bitmap whose entry [k] says whether the byte at
    [baseOffset + k] is [finishedSegment]; a byte that is missing (the
    file ends before it) or has another value reads as pending. *)
Theorem readProgressInfo_reads (f : list byte) (l s : Z) :
  fileRead f 0 4%nat = magic -> gobDecode (drop 4 f) = Some (l, s) ->
  0 <= l -> 0 < s -> l + s - 1 <= Int64.max_int ->
  ceilDiv l s <= maxSegments ->
  readProgressInfo (Some f)
  = Ret (mkProgressInfo l s
           (map (doneAt f) (seq 0 (Z.to_nat (ceilDiv l s)))), None).
Proof.
  intros Hmagic Hdec Hl Hs Hmax Hcap.
  unfold readProgressInfo.
  rewrite (bool_decide_eq_true_2 _ Hmagic). cbn [negb].
  rewrite Hdec, findSegmentCount_exact by done. cbn [obind].
  destruct (Z.gtb_spec (ceilDiv l s) maxSegments); [lia|].
  pose proof (ceilDiv_spec l s Hl Hs) as [Hc _].
  unfold makeBools. destruct (Z.ltb_spec (ceilDiv l s) 0); [lia|].
  cbn [obind]. by rewrite readSegments_fresh.
Qed.

(** X5: resuming. When the output file is there, the progress file reads
    back without error and its length is the probed one, [download]
    leaves both files as they are (nothing is truncated or rewritten),
    keeps the stored segment size rather than its own, starts the workers
    on the stored state, and sends a work item for segment [n] exactly
    when the byte of segment [n] in the progress file does not say
    "done". *)
Theorem download_resumes (d : disk) (out f : list byte) (info : ProgressInfo)
  (numThreads : nat) :
  outputFile d = Some out -> progressFile d = Some f -> writable d = true ->
  readProgressInfo (Some f) = Ret (info, None) ->
  Length info <> -1 ->
  download (HeadResponse 200 (Length info)) d numThreads
  = Ret (Started d info false
           (enqueueSegments info ++ replicate numThreads (poison info)))
  /\ forall n : nat,
       (exists item,
          item ∈ enqueueSegments info /\ segmentNum item = Z.of_nat n)
       <-> (n < length (segments info))%nat /\ doneAt f n = false.
Proof.
  intros Hout Hprog Hw Hread Hlen. split.
  - unfold download. rewrite findFileLength_ok by done. cbn [obind].
    rewrite Hout, Hprog.
    rewrite !bool_decide_eq_true_2 by done. cbn [negb andb].
    rewrite andb_false_r.
    unfold setupProgressFile. cbn [negb]. rewrite Hprog, Hread.
    cbn [obind]. rewrite Z.eqb_refl. cbn [negb].
    destruct (readProgressInfo_consistent _ _ Hread) as [-> _].
    cbn [obind]. rewrite Z.eqb_refl. cbn [negb]. rewrite Hw.
    cbn [sr_err sr_clean sr_progress sr_info].
    unfold openOutput. rewrite ?Hw, ?Hout, ?Hprog. cbn [default].
    destruct d; cbn in *. by subst.
  - intros n. pose proof (readProgressInfo_bitmap f info Hread) as Hbits.
    assert (Hlook : segments info !! n = Some false
                    <-> (n < length (segments info))%nat
                        /\ doneAt f n = false).
    { rewrite Hbits at 1. rewrite list_lookup_fmap. split.
      - intros Hn.
        destruct (seq 0 (length (segments info)) !! n) as [j|] eqn:Hj;
          [|done].
        apply lookup_seq in Hj as [-> Hlt]. cbn in Hn.
        split; [done|]. by injection Hn.
      - intros [Hlt Hd]. rewrite lookup_seq_lt by done. cbn. by rewrite Hd. }
    rewrite <- Hlook. unfold enqueueSegments. split.
    + intros (item & Hin & Hnum).
      apply enqueueFrom_pending in Hin as (k & Hk & Hseg).
      assert (k = n) as -> by lia. done.
    + intros Hn. exists (segmentInstruction info (0 + Z.of_nat n)).
      split; [by apply enqueueFrom_sends|]. cbn. lia.
Qed.

(** X6: a progress file that cannot be used (it is missing while the
    output file has another size than the probed one, or it does not start
    with the magic number, or its header does not decode, or it has more
    than [maxSegments] segments) makes the run start clean, as a length
    that differs does. *)
Theorem unreadable_progress_starts_clean (d : disk) (out : list byte)
  (info : ProgressInfo) (e : string) (length : Z) (numThreads : nat) :
  outputFile d = Some out -> writable d = true ->
  0 <= length -> length + defaultSegmentSize - 1 <= Int64.max_int ->
  readProgressInfo (progressFile d) = Ret (info, Some e) ->
  (progressFile d = None -> Z.of_nat (List.length out) <> length) ->
  download (HeadResponse 200 length) d numThreads
  = Ret (cleanStart length numThreads).
Proof.
  intros Hout Hw Hl Hmax Hread Hsize.
  unfold download. rewrite findFileLength_ok by lia. cbn [obind].
  rewrite Hout, (bool_decide_eq_true_2 (is_Some (Some out))) by done.
  cbn [negb andb sizeIs].
  assert (Hshort : (Z.of_nat (List.length out) =? length)
                   && negb (bool_decide (is_Some (progressFile d))) = false).
  { destruct (progressFile d) as [f|] eqn:Hprog.
    - rewrite bool_decide_eq_true_2 by done. apply andb_false_r.
    - destruct (Z.eqb_spec (Z.of_nat (List.length out)) length);
        [by destruct Hsize|done]. }
  rewrite Hshort.
  destruct (setupProgressFile_decides d length defaultSegmentSize false
              info (Some e) Hw Hl ltac:(done) Hmax ltac:(done))
    as (r & -> & Herr & Hclean & Hfresh & _).
  cbn [obind]. rewrite Herr.
  assert (Hc : sr_clean r = true) by (apply Hclean; right; left; done).
  destruct (Hfresh Hc) as [Hinfo Hfile].
  rewrite Hc. unfold openOutput. rewrite Hw, Hinfo, Hfile.
  unfold cleanStart, instructionsSent.
  rewrite enqueueSegments_fresh by done. done.
Qed.
End ResumeFacts.

Lemma readProgressInfo_reads_witness :
  @readProgressInfo gobCodec (Some exampleStored)
  = Ret (mkProgressInfo 5 2 (map (doneAt exampleStored) (seq 0 3)), None).
Proof.
  apply (@readProgressInfo_reads gobCodec exampleStored 5 2);
    by vm_compute.
Defined.

Lemma download_resumes_witness :
  @download gobCodec (HeadResponse 200 5)
    (mkDisk (Some [Byte.x41; Byte.x42]) (Some exampleStored) true) 1
  = Ret (Started
           (mkDisk (Some [Byte.x41; Byte.x42]) (Some exampleStored) true)
           (mkProgressInfo 5 2 [true; false; false]) false
           (enqueueSegments (mkProgressInfo 5 2 [true; false; false])
              ++ replicate 1 (poison (mkProgressInfo 5 2 [true; false; false])))).
Proof.
  apply (@download_resumes gobCodec
           (mkDisk (Some [Byte.x41; Byte.x42]) (Some exampleStored) true)
           [Byte.x41; Byte.x42] exampleStored
           (mkProgressInfo 5 2 [true; false; false]) 1);
    by vm_compute.
Defined.

Lemma unreadable_progress_starts_clean_witness :
  @download gobCodec (HeadResponse 200 7)
    (mkDisk (Some [Byte.x41]) (Some [Byte.x4d; Byte.x55]) true) 2
  = Ret (cleanStart 7 2).
Proof.
  apply (@unreadable_progress_starts_clean gobCodec
           (mkDisk (Some [Byte.x41]) (Some [Byte.x4d; Byte.x55]) true)
           [Byte.x41] zeroInfo "invalid magic number" 7 2);
    try done; by vm_compute.
Defined.

(** ** The two variants of the supervisor *)

Lemma countFinished_runs segs (fuel : nat) seg acc :
  0 <= seg -> (Z.to_nat seg + fuel <= length segs)%nat ->
  exists n, Variant.countFinished segs seg fuel acc = Ret n.
Proof.
  revert seg acc. induction fuel as [|fuel IH]; intros seg acc Hseg Hlen.
  { by eexists. }
  cbn [Variant.countFinished].
  destruct (lookup_lt_is_Some_2 segs (Z.to_nat seg) ltac:(lia)) as [b ->].
  apply IH; lia.
Qed.

Lemma enqueueLoop_runs info (fuel : nat) seg :
  0 <= seg -> (Z.to_nat seg + fuel = length (segments info))%nat ->
  Variant.enqueueLoop info seg fuel
  = Ret (enqueueFrom info seg (drop (Z.to_nat seg) (segments info))).
Proof.
  revert seg. induction fuel as [|fuel IH]; intros seg Hseg Hlen.
  { cbn. rewrite drop_ge by lia. done. }
  cbn [Variant.enqueueLoop].
  destruct (lookup_lt_is_Some_2 (segments info) (Z.to_nat seg) ltac:(lia))
    as [b Hb].
  rewrite Hb, IH by lia. cbn [obind].
  rewrite (drop_S _ _ _ Hb). cbn [enqueueFrom].
  replace (Z.to_nat (seg + 1)) with (S (Z.to_nat seg)) by lia.
  by destruct b.
Qed.

Section VariantFacts.
Context `{codec : GobCodec}.

Lemma variant_setup_agrees d len inc fc :
  match setupProgressFile d len inc fc with
  | Panic m => Variant.setupProgressFile d len inc fc = Panic m
  | Ret r =>
      exists ssz c segs,
        Variant.setupProgressFile d len inc fc
        = Ret (Variant.mkSetup (sr_progress r) ssz c segs (sr_err r))
        /\ (sr_err r = None ->
            sr_info r = mkProgressInfo len ssz segs
            /\ Z.to_nat c = length segs)
  end.
Proof.
  assert (Hclean : forall info0,
    match
      (let! segmentCount := findSegmentCount len inc in
       match beginProgressFile (writable d) len inc with
       | inr e => Ret (mkSetupResult (progressFile d) info0 true (Some e))
       | inl f =>
           let! segs := makeBools segmentCount in
           Ret (mkSetupResult (Some f) (mkProgressInfo len inc segs)
                  true None)
       end)
    with
    | Panic m =>
        (let! segmentCount := findSegmentCount len inc in
         match beginProgressFile (writable d) len inc with
         | inr e =>
             Ret (Variant.mkSetup (progressFile d) inc segmentCount []
                    (Some e))
         | inl f =>
             let! segs' := makeBools segmentCount in
             Ret (Variant.mkSetup (Some f) inc segmentCount segs' None)
         end) = Panic m
    | Ret r =>
        exists ssz c segs,
          (let! segmentCount := findSegmentCount len inc in
           match beginProgressFile (writable d) len inc with
           | inr e =>
               Ret (Variant.mkSetup (progressFile d) inc segmentCount []
                      (Some e))
           | inl f =>
               let! segs' := makeBools segmentCount in
               Ret (Variant.mkSetup (Some f) inc segmentCount segs' None)
           end)
          = Ret (Variant.mkSetup (sr_progress r) ssz c segs (sr_err r))
          /\ (sr_err r = None ->
              sr_info r = mkProgressInfo len ssz segs
              /\ Z.to_nat c = length segs)
    end).
  { intros info0.
    destruct (findSegmentCount len inc) as [c|m]; cbn [obind]; [|done].
    destruct (beginProgressFile (writable d) len inc) as [f|e].
    - unfold makeBools. destruct (c <? 0); cbn [obind]; [done|].
      eexists _, _, _. split; [done|]. intros _. cbn [sr_info].
      split; [done|]. by rewrite length_replicate.
    - eexists _, _, _. split; [done|]. done. }
  unfold setupProgressFile, Variant.setupProgressFile.
  destruct fc; cbn [negb obind]; [apply Hclean|].
  destruct (readProgressInfo (progressFile d)) as [[info err]|m] eqn:Hread;
    cbn [obind]; [|done].
  destruct err as [e|]; cbn [obind]; [apply Hclean|].
  destruct (Z.eqb_spec len (Length info)) as [->|Hne];
    cbn [negb obind]; [|apply Hclean].
  destruct (readProgressInfo_consistent _ _ Hread) as [-> _].
  cbn [obind]. rewrite Z.eqb_refl. cbn [negb].
  destruct (countFinished_runs (segments info) (length (segments info)) 0 0)
    as [n Hn]; [done|simpl; lia|].
  rewrite Nat2Z.id, Hn. cbn [obind].
  destruct (writable d); eexists _, _, _; (split; [done|]); [|done].
  intros _. cbn [sr_info]. split; [by destruct info|]. lia.
Qed.

(** X7: the two variants of the supervisor decide alike. For every probe
    answer, disk and number of threads, the second variant's [download]
    panics or exits where the first does, and otherwise starts the workers
    on the same progress file and the same state and sends the same work
    items and poison; the one difference is that it never truncates the
    output file. So the third test of [clean] in the first variant (the
    segment count against the length of the bitmap) never changes the
    decision, and the loops of the second variant that index [segments]
    up to [segmentCount] never run out of it. *)
Theorem variant_download_agrees (h : headResponse) (d : disk)
  (numThreads : nat) :
  Variant.download h d numThreads
  = let! r := download h d numThreads in Ret (keepOutput d r).
Proof.
  unfold Variant.download, download.
  destruct (findFileLength h) as [[len|]|]; cbn [obind]; try done.
  destruct (_ && _); [done|].
  pose proof (variant_setup_agrees d len defaultSegmentSize
                (negb (bool_decide (is_Some (outputFile d))))) as Hsetup.
  destruct (setupProgressFile d len defaultSegmentSize _) as [r|m];
    [|by rewrite Hsetup].
  destruct Hsetup as (ssz & c & segs & -> & Hinfo). cbn [obind Variant.su_err].
  destruct (sr_err r) as [e|] eqn:Herr; [done|].
  destruct (Hinfo eq_refl) as [Hi Hc].
  cbn [Variant.su_progress Variant.su_segmentSize Variant.su_segments
       Variant.su_segmentCount].
  unfold openOutput. destruct (writable d) eqn:Hw; [|by destruct (sr_clean r)].
  rewrite enqueueLoop_runs by (cbn [segments]; simpl; lia).
  cbn [obind keepOutput progressFile writable].
  rewrite Hi. unfold instructionsSent, enqueueSegments, poison.
  cbn [segments Length]. rewrite drop_0. by destruct (sr_clean r).
Qed.
End VariantFacts.

(** ** More on the pool of workers *)

Lemma count_le_length {A} (f : A -> bool) l : (count f l <= length l)%nat.
Proof.
  induction l as [|a l IH]; [done|].
  unfold count in *. cbn. destruct (f a); cbn; lia.
Qed.

Lemma count_lt_length {A} (f : A -> bool) l i a :
  l !! i = Some a -> f a = false -> (count f l < length l)%nat.
Proof.
  revert i. induction l as [|a0 l IH]; intros i Hi Hf; [done|].
  destruct i as [|i].
  - cbn in Hi. injection Hi as ->.
    pose proof (count_le_length f l). unfold count in *. cbn.
    rewrite Hf. cbn. lia.
  - cbn in Hi. specialize (IH i Hi Hf).
    unfold count in *. cbn. destruct (f a0); cbn; lia.
Qed.

Lemma attempt_not_blocked tn urlOk failed w d ch evs resp :
  attempt tn urlOk failed w d ch evs resp <> Blocked.
Proof.
  unfold attempt. destruct (negb urlOk); [done|].
  destruct (failed resp).
  - by destruct (_ >? 3).
  - destruct (readBody _ _ _ _ _) as [[r t] evs2]. by destruct (_ >=? _).
Qed.

(** X8: there is a poison item for every worker. In a pool reached from
    [download]'s plan (work items, then one poison item per worker) in
    which no worker has ended the process, the poison items still on the
    channel and the workers that have returned add up to the number of
    workers; so a worker that is still running never finds the channel
    empty. *)
Theorem poison_for_every_worker (sent items : list Download) (psn : Download)
  (numThreads : nat) (p : pool) :
  sent = items ++ replicate numThreads psn ->
  Forall (fun d => size d <> 0) items -> size psn = 0 ->
  wfSent sent ->
  poolReach true (initPool sent numThreads) p -> exited p = false ->
  (count isPoison (channel p) + count hasReturned (workers p))%nat
  = numThreads
  /\ forall t w resp,
       workers p !! t = Some (Some w) ->
       workerIter (Z.of_nat t) true failedAttempt w (channel p) resp
       <> Blocked.
Proof.
  intros Hsent Hitems Hpsn Hwf Hreach Hex.
  destruct (poolInv_reach sent numThreads p Hwf Hreach) as [flights Hinv].
  destruct Hinv as [_ _ _ _ _ (rest & Hrecv & Hrest) Hstop _].
  specialize (Hrest Hex). subst rest. specialize (Hstop Hex).
  assert (Hall : count isPoison sent = numThreads).
  { rewrite Hsent, count_app, count_none, count_all, length_replicate.
    - done.
    - apply Forall_replicate. unfold isPoison. by rewrite Hpsn.
    - eapply Forall_impl; [exact Hitems|]. intros d Hd. unfold isPoison.
      by apply Z.eqb_neq. }
  rewrite <- Hrecv, count_app, Hstop in Hall.
  split; [lia|].
  intros t w resp Hw.
  pose proof (count_lt_length hasReturned (workers p) t (Some w) Hw eq_refl)
    as Hlt.
  rewrite (poolReach_workers sent numThreads p Hreach) in Hlt.
  unfold workerIter. destruct (finished w); [|apply attempt_not_blocked].
  destruct (channel p) as [|d ch]; [cbn in Hall; lia|].
  destruct (size d =? 0); [done|apply attempt_not_blocked].
Qed.

Lemma poison_for_every_worker_witness :
  (count isPoison (channel examplePair)
   + count hasReturned (workers examplePair))%nat = 2%nat
  /\ forall t w resp,
       workers examplePair !! t = Some (Some w) ->
       workerIter (Z.of_nat t) true failedAttempt w (channel examplePair) resp
       <> Blocked.
Proof.
  apply (poison_for_every_worker
           [mkDownload 0 2 0; mkDownload 2 0 0; mkDownload 2 0 0]
           [mkDownload 0 2 0] (mkDownload 2 0 0) 2 examplePair).
  - done.
  - by apply Forall_cons.
  - done.
  - split.
    + apply Forall_cons. split.
      * right. unfold wfItem, baseOffset, bufSize. cbn.
        rewrite max_int_val. lia.
      * repeat (apply Forall_cons; split; [by left|]). constructor.
    + vm_compute. apply NoDup_singleton.
  - unfold examplePair.
    apply poolDo_reach; [constructor|].
    apply poolDo_reach;
      [apply Forall_cons; split; [unfold bufSize; cbn; lia|constructor]|].
    apply ReachRefl.
  - done.
Defined.

Lemma elem_of_eventsOf t e tr : e ∈ eventsOf t tr <-> (t, e) ∈ tr.
Proof.
  unfold eventsOf. rewrite list_elem_of_fmap. split.
  - intros ([t' e'] & -> & Hin). apply list_elem_of_filter in Hin as [Ht Hin].
    cbn in Ht. by subst.
  - intros Hin. exists (t, e). split; [done|].
    by apply list_elem_of_filter.
Qed.

Lemma elem_of_recvItems d evs : d ∈ recvItems evs <-> EvRecv d ∈ evs.
Proof.
  unfold recvItems. rewrite list_elem_of_omap. split.
  - intros (e & Hin & He). destruct e; try done. by injection He as ->.
  - intros Hin. by exists (EvRecv d).
Qed.

Lemma checkEvents_writes_in_item evs fl fl' :
  checkEvents fl evs = Some fl' ->
  (forall d g, fl = InFlight d g -> 0 <= g) ->
  forall off data,
    EvWrite off data ∈ evs ->
    (exists d,
       d ∈ recvItems evs /\ size d <> 0
       /\ position d <= off < position d + size d)
    \/ (exists d g,
          fl = InFlight d g /\ position d <= off < position d + size d).
Proof.
  revert fl. induction evs as [|e evs IH]; intros fl Hck Hg off data Hin.
  { by apply elem_of_nil in Hin. }
  cbn [checkEvents] in Hck.
  destruct (checkEvent fl e) as [fl1|] eqn:He; [|done].
  assert (Hkeep : fl1 = fl -> e <> EvWrite off data ->
                  recvItems (e :: evs) = recvItems evs ->
                  (exists d,
                     d ∈ recvItems (e :: evs) /\ size d <> 0
                     /\ position d <= off < position d + size d)
                  \/ (exists d g,
                        fl = InFlight d g
                        /\ position d <= off < position d + size d)).
  { intros -> Hne ->. apply elem_of_cons in Hin as [Hin|Hin]; [by subst|].
    by apply (IH fl Hck Hg off data). }
  destruct e as [d|a b|off' data'|u|off' b|].
  - destruct fl as [|d0 g0]; [|done]. cbn in He. injection He as <-.
    apply elem_of_cons in Hin as [Hin|Hin]; [done|].
    left. change (recvItems (EvRecv d :: evs)) with (d :: recvItems evs).
    destruct (Z.eqb_spec (size d) 0) as [Hz|Hnz].
    + destruct (IH Idle Hck ltac:(done) off data Hin)
        as [(d' & ? & ? & ?)|(d' & g & ? & _)]; [|done].
      exists d'. split; [by right|done].
    + destruct (IH (InFlight d 0) Hck ltac:(by intros ? ? [= <- <-])
                  off data Hin)
        as [(d' & ? & ? & ?)|(d' & g & [= <- <-] & ?)].
      * exists d'. split; [by right|done].
      * exists d. split; [by left|done].
  - destruct fl as [|d0 g0]; [done|]. cbn in He.
    destruct (_ && _); [|done]. injection He as <-.
    by apply Hkeep.
  - destruct fl as [|d0 g0]; [done|]. cbn in He.
    destruct (Z.ltb_spec g0 (size d0)); [|done].
    destruct (Z.eqb_spec off' (position d0 + g0)) as [->|]; [|done].
    cbn in He. injection He as <-.
    pose proof (Hg d0 g0 eq_refl) as Hg0.
    apply elem_of_cons in Hin as [Hin|Hin].
    + injection Hin as -> ->. right. exists d0, g0. split; [done|lia].
    + destruct (IH _ Hck ltac:(intros ? ? [= <- <-]; lia) off data Hin)
        as [(d' & ? & ? & ?)|(d' & g & [= <- <-] & ?)].
      * left. by exists d'.
      * right. by exists d0, g0.
  - cbn in He. injection He as <-. by apply Hkeep.
  - destruct fl as [|d0 g0]; [done|]. cbn in He.
    destruct (_ && _); [|done]. injection He as <-.
    apply elem_of_cons in Hin as [Hin|Hin]; [done|].
    destruct (IH Idle Hck ltac:(done) off data Hin)
      as [(d' & ? & ? & ?)|(d' & g & ? & _)]; [|done].
    left. by exists d'.
  - cbn in He. injection He as <-. by apply Hkeep.
Qed.

Lemma readBody_small tn d body read total :
  wfBody body -> Forall smallWrite (readBody tn d body read total).2.
Proof.
  intros Hwf. revert read total.
  induction Hwf as [|chunk body Hchunk _ IH]; intros read total; [done|].
  cbn [readBody]. destruct (read <? size d); [|done].
  specialize (IH (Int64.add read (Z.of_nat (length chunk)))
                (Int64.add total (Z.of_nat (length chunk)))).
  destruct (readBody _ _ _ _ _) as [[r t] evs]. cbn [snd] in *.
  apply Forall_cons. split; [done|]. by apply Forall_cons.
Qed.

Lemma attempt_small tn urlOk failed w d ch evs0 resp :
  wfBody (bodyOf resp) -> Forall smallWrite evs0 ->
  Forall smallWrite (iterEvents (attempt tn urlOk failed w d ch evs0 resp)).
Proof.
  intros Hwf H0. unfold attempt.
  destruct (negb urlOk).
  { cbn. apply Forall_app. split; [done|]. by apply Forall_cons. }
  assert (H1 : Forall smallWrite
                 (evs0 ++ [EvGet (position d)
                             (Int64.sub (Int64.add (position d) (size d)) 1)])).
  { apply Forall_app. split; [done|]. by apply Forall_cons. }
  destruct (failed resp).
  { destruct (_ >? 3); cbn; [|done].
    apply Forall_app. split; [done|]. by apply Forall_cons. }
  pose proof (readBody_small tn d (bodyOf resp) 0 (total w) Hwf) as H2.
  destruct (readBody _ _ _ _ _) as [[r t] evs2]. cbn [snd] in H2.
  destruct (_ >=? _); cbn.
  - apply Forall_app. split; [done|]. apply Forall_app. split; [done|].
    by apply Forall_cons.
  - apply Forall_app. by split.
Qed.

Lemma workerIter_small tn urlOk failed w ch resp :
  wfBody (bodyOf resp) ->
  Forall smallWrite (iterEvents (workerIter tn urlOk failed w ch resp)).
Proof.
  intros Hwf. unfold workerIter.
  destruct (finished w); [|by apply attempt_small].
  destruct ch as [|d ch]; [done|].
  destruct (size d =? 0).
  - cbn. by apply Forall_cons.
  - apply attempt_small; [done|]. by apply Forall_cons.
Qed.

Lemma poolStep_trace urlOk p q :
  poolStep urlOk p q ->
  exists t w resp,
    exited p = false /\ wfBody (bodyOf resp)
    /\ workers p !! t = Some (Some w)
    /\ trace q
       = trace p
         ++ tag t (iterEvents
                     (workerIter (Z.of_nat t) urlOk failedAttempt w
                        (channel p) resp)).
Proof.
  intros [t w resp w' ch' evs Hex Hwf Hw Hit
         |t w resp ch' evs Hex Hwf Hw Hit
         |t w resp evs Hex Hwf Hw Hit];
    exists t, w, resp; rewrite Hit; done.
Qed.

Lemma poolReach_small urlOk p0 p :
  poolReach urlOk p0 p ->
  Forall (fun te => smallWrite te.2) (trace p0) ->
  Forall (fun te => smallWrite te.2) (trace p).
Proof.
  intros Hreach H0. induction Hreach as [|q r _ IH Hstep]; [done|].
  destruct (poolStep_trace _ _ _ Hstep) as (t & w & resp & _ & Hwf & _ & ->).
  apply Forall_app. split; [done|].
  unfold tag. apply Forall_fmap.
  eapply Forall_impl; [by apply workerIter_small|]. done.
Qed.

(** X9: where the workers write. In a pool reached from a plan, every
    write to the output file starts inside a work item that was sent (at
    or after its first byte, before its end) and is at most one buffer of
    8192 bytes long: no byte is written before the item, and none more
    than a buffer past its end. *)
Theorem writes_start_inside_items (sent : list Download) (numThreads : nat)
  (p : pool) (t : nat) (off : Z) (data : list byte) :
  wfSent sent ->
  poolReach true (initPool sent numThreads) p ->
  (t, EvWrite off data) ∈ trace p ->
  (length data <= bufSize)%nat
  /\ exists d,
       d ∈ sent /\ size d <> 0
       /\ position d <= off < position d + size d.
Proof.
  intros Hwf Hreach Hin. split.
  { pose proof (poolReach_small _ _ _ Hreach ltac:(constructor)) as Hsmall.
    rewrite Forall_forall in Hsmall. exact (Hsmall _ Hin). }
  destruct (poolInv_reach sent numThreads p Hwf Hreach) as [flights Hinv].
  destruct Hinv as [Hlen Hck Hnone _ _ (rest & Hrecv & _) _ _].
  apply elem_of_eventsOf in Hin.
  destruct (decide (t < length (workers p))%nat) as [Ht|Ht];
    [|rewrite Hnone in Hin by lia; by apply elem_of_nil in Hin].
  destruct (lookup_lt_is_Some_2 flights t) as [fl Hfl]; [lia|].
  destruct (checkEvents_writes_in_item _ _ _ (Hck t fl Hfl) ltac:(done)
              off data Hin)
    as [(d & Hd & Hsz & Hoff)|(d & g & ? & _)]; [|done].
  exists d. split; [|done].
  rewrite <- Hrecv. apply elem_of_app. left.
  apply elem_of_recvItems. apply list_elem_of_fmap.
  exists (t, EvRecv d). split; [done|].
  apply elem_of_eventsOf. by apply elem_of_recvItems.
Qed.

Lemma writes_start_inside_items_witness :
  (length [Byte.x41; Byte.x42] <= bufSize)%nat
  /\ exists d,
       d ∈ exampleSent /\ size d <> 0
       /\ position d <= 0 < position d + size d.
Proof.
  apply (writes_start_inside_items exampleSent 1 examplePool 0 0
           [Byte.x41; Byte.x42]).
  - split.
    + apply Forall_cons. split.
      * right. unfold wfItem, baseOffset, bufSize. cbn.
        rewrite max_int_val. lia.
      * apply Forall_cons. split; [by left|constructor].
    + vm_compute. apply NoDup_singleton.
  - unfold examplePool.
    apply poolDo_reach; [constructor|].
    apply poolDo_reach;
      [apply Forall_cons; split; [unfold bufSize; cbn; lia|constructor]|].
    apply ReachRefl.
  - vm_compute. do 2 apply list_elem_of_further. apply list_elem_of_here.
Defined.

(** ** A run against an honest server *)

Lemma honestReach_poolReach resource p0 p :
  honestReach resource p0 p -> poolReach true p0 p.
Proof.
  induction 1 as [|q t w resp _ IH _ Hwf _]; [apply ReachRefl|].
  by apply poolDo_reach.
Qed.

Lemma poolDo_trace p t resp :
  trace (poolDo p t resp)
  = trace p
    ++ (if exited p then []
        else match workers p !! t with
             | Some (Some w) =>
                 tag t (iterEvents
                          (workerIter (Z.of_nat t) true failedAttempt w
                             (channel p) resp))
             | _ => []
             end).
Proof.
  unfold poolDo. destruct (exited p); [by rewrite app_nil_r|].
  destruct (workers p !! t) as [[w|]|]; try by rewrite app_nil_r.
  destruct (workerIter _ _ _ _ _ _); try done. by rewrite app_nil_r.
Qed.

Lemma readBody_honest resource tn d body read total :
  wfItem d -> wfBody body -> 0 <= read ->
  (forall (i : nat) b,
     concat body !! i = Some b ->
     resource !! (Z.to_nat (position d + read) + i)%nat = Some b) ->
  Forall (honestWrite resource) (readBody tn d body read total).2.
Proof.
  intros (Hpos & Hsz & Hmax & _) Hwf. revert read total.
  induction Hwf as [|chunk body Hchunk _ IH]; intros read total Hread Hres;
    [done|].
  cbn [readBody]. destruct (Z.ltb_spec read (size d)) as [Hlt|]; [|done].
  assert (Hn : Z.of_nat (length chunk) <= Z.of_nat bufSize) by lia.
  assert (Hadd : Int64.add read (Z.of_nat (length chunk))
                 = read + Z.of_nat (length chunk)).
  { unfold Int64.add. apply wrap_id. in_range_solver. }
  assert (Hoff : Int64.add (position d) read = position d + read).
  { unfold Int64.add. apply wrap_id. in_range_solver. }
  specialize (IH (Int64.add read (Z.of_nat (length chunk)))
                (Int64.add total (Z.of_nat (length chunk)))).
  destruct (readBody _ _ _ _ _) as [[r t] evs]. cbn [snd] in *.
  apply Forall_cons. split; [|apply Forall_cons; split; [done|]].
  - cbn [honestWrite]. rewrite Hoff. split; [lia|].
    intros i b Hi. apply Hres. cbn [concat].
    by apply lookup_app_l_Some.
  - apply IH; [rewrite Hadd; lia|].
    intros i b Hi. rewrite Hadd.
    replace (Z.to_nat (position d + (read + Z.of_nat (length chunk))) + i)%nat
      with (Z.to_nat (position d + read) + (length chunk + i))%nat by lia.
    apply Hres. cbn [concat].
    rewrite lookup_app_r by lia.
    by replace (length chunk + i - length chunk)%nat with i by lia.
Qed.

Lemma attempt_honest resource tn urlOk failed w d ch evs0 resp :
  wfItem d -> wfBody (bodyOf resp) ->
  failed resp = true \/ honestBody resource d (bodyOf resp) ->
  Forall (honestWrite resource) evs0 ->
  Forall (honestWrite resource)
    (iterEvents (attempt tn urlOk failed w d ch evs0 resp)).
Proof.
  intros Hd Hwf Hhonest H0. unfold attempt.
  destruct (negb urlOk).
  { cbn. apply Forall_app. split; [done|]. by apply Forall_cons. }
  assert (H1 : Forall (honestWrite resource)
                 (evs0 ++ [EvGet (position d)
                             (Int64.sub (Int64.add (position d) (size d)) 1)])).
  { apply Forall_app. split; [done|]. by apply Forall_cons. }
  destruct (failed resp) eqn:Hf.
  { destruct (_ >? 3); cbn; [|done].
    apply Forall_app. split; [done|]. by apply Forall_cons. }
  destruct Hhonest as [?|Hbody]; [done|].
  pose proof (readBody_honest resource tn d (bodyOf resp) 0 (total w) Hd Hwf
                ltac:(done)) as H2.
  destruct (readBody _ _ _ _ _) as [[r t] evs2]. cbn [snd] in H2.
  assert (H3 : Forall (honestWrite resource) evs2).
  { apply H2. intros i b Hi.
    pose proof (prefix_lookup_Some _ _ _ _ Hi Hbody) as Hl.
    rewrite lookup_drop in Hl. destruct Hd as (? & _).
    by replace (Z.to_nat (position d + 0)) with (Z.to_nat (position d))
      by lia. }
  destruct (_ >=? _); cbn.
  - apply Forall_app. split; [done|]. apply Forall_app. split; [done|].
    by apply Forall_cons.
  - apply Forall_app. by split.
Qed.

Lemma shrink_wf d got : wfItem d -> 0 <= got < size d -> wfItem (shrink d got).
Proof. unfold wfItem, shrink. cbn. lia. Qed.

Lemma workerIter_honest resource tn w fl ch resp :
  couple w fl -> Forall (fun d => size d = 0 \/ wfItem d) ch ->
  wfBody (bodyOf resp) -> honest resource w ch resp ->
  Forall (honestWrite resource)
    (iterEvents (workerIter tn true failedAttempt w ch resp)).
Proof.
  intros Hc Hch Hwf Hhonest. unfold workerIter, honest, nextItem in *.
  destruct (finished w) eqn:Hfin.
  - destruct ch as [|d ch]; [done|].
    destruct (Z.eqb_spec (size d) 0) as [Hz|Hnz].
    { cbn. by apply Forall_cons. }
    apply Forall_cons in Hch as [[?|Hd] _]; [done|].
    apply attempt_honest; [done|done| |by apply Forall_cons].
    destruct Hhonest as [?|Hb]; [by left|right; by apply Hb].
  - destruct fl as [|d0 got]; [cbn in Hc; congruence|].
    destruct Hc as (_ & Hd0 & Hgot & Hdown).
    apply attempt_honest; [|done| |done].
    + rewrite Hdown. by apply shrink_wf.
    + destruct Hhonest as [?|Hb]; [by left|right; by apply Hb].
Qed.

Lemma honestReach_writes resource sent numThreads p :
  wfSent sent ->
  honestReach resource (initPool sent numThreads) p ->
  Forall (fun te => honestWrite resource te.2) (trace p).
Proof.
  intros Hwf Hreach.
  induction Hreach as [|q t w resp Hq IH Hw Hbody Hhonest]; [constructor|].
  rewrite poolDo_trace. apply Forall_app. split; [done|].
  destruct (exited q) eqn:Hex; [constructor|]. rewrite Hw.
  destruct (poolInv_reach sent numThreads q Hwf
              (honestReach_poolReach _ _ _ Hq)) as [flights Hinv].
  destruct Hinv as [Hlen _ _ Hcp _ (rest & Hrecv & Hrest) _ _].
  specialize (Hrest Hex). subst rest.
  destruct (lookup_lt_is_Some_2 flights t) as [fl Hfl].
  { rewrite Hlen. by eapply lookup_lt_Some. }
  pose proof (Hcp Hex t fl (Some w) Hfl Hw) as Hc.
  unfold tag. apply Forall_fmap.
  eapply Forall_impl;
    [eapply (workerIter_honest resource (Z.of_nat t) w fl); try done|done].
  destruct Hwf as [Hitems _]. rewrite <- Hrecv in Hitems.
  by apply Forall_app in Hitems as [_ ?].
Qed.

Lemma writesTo_cons f e evs :
  writesTo f (e :: evs)
  = writesTo (match e with EvWrite off data => writeAt f off data | _ => f end)
      evs.
Proof. done. Qed.

Lemma marksTo_cons f e evs :
  marksTo f (e :: evs)
  = marksTo (match e with EvMark off b => writeAt f off [b] | _ => f end) evs.
Proof. done. Qed.

(** What the events make of the two open files: a file opened with
    [O_APPEND] stays as it is, one opened without takes the positioned
    writes. *)
Lemma applyEvents_files files evs :
  (applyEvents files evs).1
  = (if h_append files.1 then files.1
     else mkHandle (writesTo (h_bytes files.1) evs) false)
  /\ (applyEvents files evs).2
     = (if h_append files.2 then files.2
        else mkHandle (marksTo (h_bytes files.2) evs) false).
Proof.
  revert files. induction evs as [|e evs IH]; intros [[o oa] [g ga]].
  { cbn. by destruct oa, ga. }
  cbn [applyEvents foldl]. fold (applyEvents (applyEvent (mkHandle o oa,
                                                            mkHandle g ga) e)
                                   evs).
  rewrite writesTo_cons, marksTo_cons.
  destruct (IH (applyEvent (mkHandle o oa, mkHandle g ga) e)) as [-> ->].
  destruct e as [d|a c|off data|u|off c|]; cbn; try done;
    unfold handleWriteAt; cbn; by destruct oa, ga.
Qed.

Lemma applyEvents_append_output files evs :
  h_append files.1 = true -> (applyEvents files evs).1 = files.1.
Proof.
  intros Ha. destruct (applyEvents_files files evs) as [-> _].
  by rewrite Ha.
Qed.

Lemma applyEvents_append_progress files evs :
  h_append files.2 = true -> (applyEvents files evs).2 = files.2.
Proof.
  intros Ha. destruct (applyEvents_files files evs) as [_ ->].
  by rewrite Ha.
Qed.

Lemma writesTo_agree resource evs f (x : nat) :
  Forall (honestWrite resource) evs ->
  (x < length resource)%nat ->
  f !! x = resource !! x
  \/ (exists off data,
        EvWrite off data ∈ evs
        /\ off <= Z.of_nat x < off + Z.of_nat (length data)) ->
  writesTo f evs !! x = resource !! x.
Proof.
  intros Hevs Hx. revert f.
  induction Hevs as [|e evs He _ IH]; intros f Hcase.
  { destruct Hcase as [?|(off & data & Hin & _)]; [done|].
    by apply elem_of_nil in Hin. }
  rewrite writesTo_cons. apply IH.
  destruct (lookup_lt_is_Some_2 resource x Hx) as [b Hb].
  assert (Hother : (forall off data, e <> EvWrite off data) ->
                   f !! x = resource !! x
                   \/ (exists off data,
                         EvWrite off data ∈ evs
                         /\ off <= Z.of_nat x
                               < off + Z.of_nat (length data))).
  { intros Hnw.
    destruct Hcase as [?|(off & data & Hin & Hr)]; [by left|].
    apply elem_of_cons in Hin as [Hin|Hin]; [by destruct (Hnw off data)|].
    right. by exists off, data. }
  destruct e as [d|a c|off data|u|off c|]; try (by apply Hother).
  destruct He as [Hoff Hdata].
  assert (Hhere : off <= Z.of_nat x < off + Z.of_nat (length data) ->
                  writeAt f off data !! x = resource !! x).
  { intros Hr. assert (data <> []) by (intros ->; cbn in Hr; lia).
    rewrite writeAt_lookup by done. rewrite decide_True by lia.
    destruct (lookup_lt_is_Some_2 data (x - Z.to_nat off)) as [c Hc];
      [lia|].
    rewrite Hc, <- (Hdata _ _ Hc). f_equal. lia. }
  destruct (decide (off <= Z.of_nat x < off + Z.of_nat (length data)))
    as [Hr|Hr]; [left; by apply Hhere|].
  destruct Hcase as [Hf|(off' & data' & Hin & Hr')].
  - left. destruct (decide (data = [])) as [->|Hne].
    { unfold writeAt. by destruct (off <? 0). }
    rewrite writeAt_lookup by done. rewrite decide_False by lia.
    rewrite decide_True; [done|].
    rewrite Hb in Hf. by eapply lookup_lt_Some.
  - apply elem_of_cons in Hin as [Hin|Hin].
    + injection Hin as -> ->. done.
    + right. by exists off', data'.
Qed.

Lemma writesTo_length resource evs f :
  Forall (honestWrite resource) evs ->
  (length f <= length resource)%nat ->
  (length (writesTo f evs) <= length resource)%nat.
Proof.
  intros Hevs. revert f.
  induction Hevs as [|e evs He _ IH]; intros f Hlen; [done|].
  rewrite writesTo_cons. apply IH.
  destruct e as [d|a c|off data|u|off c|]; try done.
  destruct He as [Hoff Hdata].
  destruct (decide (data = [])) as [->|Hne].
  { unfold writeAt. by destruct (off <? 0). }
  rewrite writeAt_length by done.
  destruct (lookup_lt_is_Some_2 data (length data - 1)) as [c Hc].
  { destruct data; [done|]. cbn. lia. }
  apply Hdata in Hc. apply lookup_lt_Some in Hc.
  destruct data; [done|]. cbn [length] in *. lia.
Qed.

Lemma checkEvents_covers evs fl :
  checkEvents fl evs = Some Idle ->
  (forall d, d ∈ recvItems evs -> size d <> 0 ->
             coveredBy evs (position d) (position d + size d))
  /\ (forall d g, fl = InFlight d g ->
                  coveredBy evs (position d + g) (position d + size d)).
Proof.
  revert fl. induction evs as [|e evs IH]; intros fl Hck.
  { cbn in Hck. injection Hck as ->. split; [|done].
    intros d Hd. by apply elem_of_nil in Hd. }
  cbn [checkEvents] in Hck.
  destruct (checkEvent fl e) as [fl1|] eqn:He; [|done].
  destruct (IH fl1 Hck) as [IH1 IH2].
  assert (Hkeep : fl1 = fl -> recvItems (e :: evs) = recvItems evs ->
    (forall d, d ∈ recvItems (e :: evs) -> size d <> 0 ->
               coveredBy (e :: evs) (position d) (position d + size d))
    /\ (forall d g, fl = InFlight d g ->
                    coveredBy (e :: evs) (position d + g)
                      (position d + size d))).
  { intros Hfl ->. subst fl1. split.
    - intros d Hd Hsz. apply coveredBy_skip. by apply IH1.
    - intros d g Hfl. apply coveredBy_skip. by eapply IH2. }
  destruct e as [d|a b|off data|u|off b|].
  - destruct fl as [|d0 g0]; [|done]. cbn in He. injection He as <-.
    split; [|done]. intros d' Hd' Hsz. apply coveredBy_skip.
    change (recvItems (EvRecv d :: evs)) with (d :: recvItems evs) in Hd'.
    apply elem_of_cons in Hd' as [->|Hd']; [|by apply IH1].
    destruct (Z.eqb_spec (size d) 0); [done|].
    pose proof (IH2 d 0 eq_refl) as Hcov. by rewrite Z.add_0_r in Hcov.
  - destruct fl as [|d0 g0]; [done|]. cbn in He.
    destruct (_ && _); [|done]. injection He as <-. by apply Hkeep.
  - destruct fl as [|d0 g0]; [done|]. cbn in He.
    destruct (Z.ltb_spec g0 (size d0)); [|done].
    destruct (Z.eqb_spec off (position d0 + g0)) as [->|]; [|done].
    cbn in He. injection He as <-. split.
    + intros d Hd Hsz. apply coveredBy_skip. by apply IH1.
    + intros d g [= <- <-]. apply coveredBy_write.
      pose proof (IH2 d0 _ eq_refl) as Hcov.
      by rewrite Z.add_assoc in Hcov.
  - cbn in He. injection He as <-. by apply Hkeep.
  - destruct fl as [|d0 g0]; [done|]. cbn in He.
    destruct (Z.leb_spec (size d0) g0); [|done].
    destruct (_ =? _); [|done]. destruct (bool_decide _); [|done].
    cbn in He. injection He as <-. split.
    + intros d Hd Hsz. apply coveredBy_skip. by apply IH1.
    + intros d g [= <- <-] x Hx. lia.
  - cbn in He. injection He as <-. by apply Hkeep.
Qed.

Lemma honest_run_agrees resource sent items psn numThreads p f
  (x : nat) :
  wfSent sent -> sent = items ++ replicate numThreads psn ->
  Forall (fun d => size d <> 0) items -> size psn = 0 ->
  (0 < numThreads)%nat ->
  honestReach resource (initPool sent numThreads) p ->
  exited p = false -> Forall (fun o => o = None) (workers p) ->
  (x < length resource)%nat ->
  f !! x = resource !! x
  \/ (exists d,
        d ∈ items /\ position d <= Z.of_nat x < position d + size d) ->
  writesTo f (map snd (trace p)) !! x = resource !! x.
Proof.
  intros Hwf Hplan Hitems Hpsn Hn Hhonest Hex Hall Hx Hcase.
  pose proof (honestReach_poolReach _ _ _ Hhonest) as Hreach.
  pose proof (honestReach_writes _ _ _ _ Hwf Hhonest) as Hwrites.
  assert (Hw : Forall (honestWrite resource) (map snd (trace p)))
    by (by apply Forall_fmap).
  apply writesTo_agree; [done|done|].
  destruct Hcase as [?|(d & Hd & Hr)]; [by left|right].
  destruct (poolInv_reach _ numThreads p Hwf Hreach) as [flights Hinv].
  destruct Hinv as [Hlen Hck Hnone Hcp _ (rest & Hsent & Hrest) Hstop _].
  specialize (Hrest Hex). subst rest. specialize (Hstop Hex).
  assert (Hret : count hasReturned (workers p) = numThreads).
  { rewrite count_all.
    - by eapply poolReach_workers.
    - eapply Forall_impl; [exact Hall|]. by intros o ->. }
  rewrite Hplan in Hsent.
  pose proof (channel_drained _ _ _ _ _ Hsent Hitems Hpsn Hn
                ltac:(by rewrite Hstop)) as Hnil.
  rewrite Hnil, app_nil_r in Hsent.
  assert (Hrecv : EvRecv d ∈ map snd (trace p)).
  { apply elem_of_recvItems. rewrite Hsent. apply elem_of_app. by left. }
  apply list_elem_of_fmap in Hrecv as ([t e] & He & Hin).
  cbn in He. subst e. apply elem_of_eventsOf in Hin.
  destruct (decide (t < length (workers p))%nat) as [Ht|Ht];
    [|rewrite Hnone in Hin by lia; by apply elem_of_nil in Hin].
  destruct (lookup_lt_is_Some_2 flights t) as [fl Hfl]; [lia|].
  destruct (lookup_lt_is_Some_2 (workers p) t Ht) as [o Ho].
  pose proof (Hcp Hex t fl o Hfl Ho) as Hc.
  rewrite Forall_lookup in Hall. rewrite (Hall t o Ho) in Hc. subst fl.
  destruct (checkEvents_covers _ _ (Hck t Idle Hfl)) as [Hcov _].
  rewrite Forall_forall in Hitems.
  destruct (Hcov d ltac:(by apply elem_of_recvItems) (Hitems d Hd)
              (Z.of_nat x) Hr) as (off & data & Hwin & Hoff).
  exists off, data. split; [|done].
  apply list_elem_of_fmap. exists (t, EvWrite off data).
  split; [done|]. by apply elem_of_eventsOf.
Qed.

Lemma honest_run_length resource sent numThreads p f :
  wfSent sent -> honestReach resource (initPool sent numThreads) p ->
  (length f <= length resource)%nat ->
  (length (writesTo f (map snd (trace p))) <= length resource)%nat.
Proof.
  intros Hwf Hhonest Hlen.
  pose proof (honestReach_writes _ _ _ _ Hwf Hhonest) as Hwrites.
  apply writesTo_length; [|done]. by apply Forall_fmap.
Qed.

(** ** [print_progress] *)

Lemma sumZ_insert l (i : nat) c x :
  l !! i = Some c -> sumZ (<[i := x]> l) = sumZ l - c + x.
Proof.
  revert i. induction l as [|a l IH]; intros i Hi; [done|].
  destruct i as [|i].
  - cbn in Hi. injection Hi as ->. cbn. lia.
  - simpl in Hi. specialize (IH i Hi). unfold sumZ in *. simpl in *. lia.
Qed.

Lemma wrap_add_sub a b c :
  Int64.add (Int64.wrap a) (Int64.sub b c) = Int64.wrap (a - c + b).
Proof.
  unfold Int64.add, Int64.sub.
  rewrite wrap_wrap_add, Z.add_comm, wrap_wrap_add. f_equal. lia.
Qed.

Lemma printLoop_total (n : nat) st updates :
  length (counts st) = n ->
  shown st = Int64.wrap (sumZ (counts st)) ->
  Forall (fun u => 0 <= threadnum u < Z.of_nat n) updates ->
  exists e,
    printLoop st updates = Ret e
    /\ length (counts (printerOf e)) = n
    /\ shown (printerOf e) = Int64.wrap (sumZ (counts (printerOf e)))
    /\ match e with
       | PrintReturned _ => Exists (fun u => downloaded u < 0) updates
       | PrintWaiting _ => Forall (fun u => 0 <= downloaded u) updates
       end.
Proof.
  intros Hn Hst Hall. revert st Hn Hst.
  induction Hall as [|u updates Hu _ IH]; intros st Hn Hst.
  { exists (PrintWaiting st). by split_and!. }
  cbn [printLoop]. destruct (Z.ltb_spec (downloaded u) 0) as [Hneg|Hpos].
  { exists (PrintReturned st). split_and!; try done. by apply Exists_cons_hd. }
  destruct (lookup_lt_is_Some_2 (counts st) (Z.to_nat (threadnum u)))
    as [c Hc]; [lia|].
  rewrite Hc.
  destruct (IH (mkPrinter (<[Z.to_nat (threadnum u) := downloaded u]>
                             (counts st))
                  (Int64.add (shown st) (Int64.sub (downloaded u) c))))
    as (e & -> & Hlen & Hsum & Hend).
  { cbn [counts]. by rewrite length_insert. }
  { cbn [shown counts]. rewrite Hst, wrap_add_sub.
    by rewrite (sumZ_insert _ _ c). }
  exists e. split_and!; try done.
  destruct e; [by apply Exists_cons_tl|by apply Forall_cons].
Qed.

Lemma quietLoop_ends st updates :
  exists e,
    quietLoop st updates = Ret e /\ printerOf e = st
    /\ match e with
       | PrintReturned _ => Exists (fun u => downloaded u < 0) updates
       | PrintWaiting _ => Forall (fun u => 0 <= downloaded u) updates
       end.
Proof.
  induction updates as [|u updates IH].
  { exists (PrintWaiting st). by split_and!. }
  cbn [quietLoop]. destruct (Z.geb_spec (downloaded u) 0) as [Hpos|Hneg].
  - destruct IH as (e & -> & ? & Hend). exists e. split_and!; try done.
    destruct e; [by apply Exists_cons_tl|by apply Forall_cons].
  - exists (PrintReturned st). split_and!; try done. by apply Exists_cons_hd.
Qed.

Lemma sumZ_replicate_0 n : sumZ (replicate n 0) = 0.
Proof.
  induction n as [|n IH]; [done|]. unfold sumZ in *. cbn. by rewrite IH.
Qed.

(** X11: the printer's sum. For updates whose thread numbers are below
    [numThreads], [print_progress] never indexes [counts] out of range; it
    leaves its loop exactly when an update with a negative count arrives,
    in quiet mode as in normal mode; and whenever it stops or waits,
    [total] is the sum of [counts] (as an [int64]): each thread is counted
    with its latest update only. *)
Theorem print_progress_total (updates : list ProgressUpdate)
  (numThreads : nat) :
  Forall (fun u => 0 <= threadnum u < Z.of_nat numThreads) updates ->
  exists e e',
    print_progress updates numThreads false = Ret e
    /\ print_progress updates numThreads true = Ret e'
    /\ length (counts (printerOf e)) = numThreads
    /\ shown (printerOf e) = Int64.wrap (sumZ (counts (printerOf e)))
    /\ match e, e' with
       | PrintReturned _, PrintReturned _ =>
           Exists (fun u => downloaded u < 0) updates
       | PrintWaiting _, PrintWaiting _ =>
           Forall (fun u => 0 <= downloaded u) updates
       | _, _ => False
       end.
Proof.
  intros Hall. unfold print_progress.
  destruct (printLoop_total numThreads
              (mkPrinter (replicate numThreads 0) 0) updates)
    as (e & He & Hlen & Hsum & Hend).
  { cbn [counts]. by rewrite length_replicate. }
  { cbn [counts shown]. by rewrite sumZ_replicate_0. }
  { done. }
  destruct (quietLoop_ends (mkPrinter [] 0) updates) as (e' & He' & _ & Hend').
  exists e, e'. split_and!; try done.
  destruct e, e'; try done.
  - apply Exists_exists in Hend as (u & Hin & Hu).
    rewrite Forall_forall in Hend'. specialize (Hend' u Hin). lia.
  - apply Exists_exists in Hend' as (u & Hin & Hu).
    rewrite Forall_forall in Hend. specialize (Hend u Hin). lia.
Qed.

Lemma print_progress_total_witness :
  exists e e',
    print_progress [mkProgressUpdate 0 5; mkProgressUpdate 1 3;
                    mkProgressUpdate 0 9] 2 false = Ret e
    /\ print_progress [mkProgressUpdate 0 5; mkProgressUpdate 1 3;
                       mkProgressUpdate 0 9] 2 true = Ret e'
    /\ length (counts (printerOf e)) = 2%nat
    /\ shown (printerOf e) = Int64.wrap (sumZ (counts (printerOf e)))
    /\ match e, e' with
       | PrintReturned _, PrintReturned _ =>
           Exists (fun u => downloaded u < 0)
             [mkProgressUpdate 0 5; mkProgressUpdate 1 3;
              mkProgressUpdate 0 9]
       | PrintWaiting _, PrintWaiting _ =>
           Forall (fun u => 0 <= downloaded u)
             [mkProgressUpdate 0 5; mkProgressUpdate 1 3;
              mkProgressUpdate 0 9]
       | _, _ => False
       end.
Proof.
  apply (print_progress_total
           [mkProgressUpdate 0 5; mkProgressUpdate 1 3; mkProgressUpdate 0 9]
           2).
  repeat (apply Forall_cons; split; [cbn; lia|]). constructor.
Defined.

(** *** The printer fed by the workers *)

Lemma updatesOf_app evs1 evs2 :
  updatesOf (evs1 ++ evs2) = updatesOf evs1 ++ updatesOf evs2.
Proof. apply omap_app. Qed.

Lemma bytesHanded_app evs1 evs2 :
  bytesHanded (evs1 ++ evs2) = bytesHanded evs1 + bytesHanded evs2.
Proof.
  induction evs1 as [|e evs1 IH]; [done|].
  cbn. destruct e; rewrite ?IH; try done. unfold bytesHanded in *. lia.
Qed.

Lemma bytesHanded_nonneg evs : 0 <= bytesHanded evs.
Proof.
  induction evs as [|e evs IH]; [done|].
  cbn. destruct e; try done. unfold bytesHanded in *. lia.
Qed.

Lemma bytesHanded_eventsOf_le t tr :
  bytesHanded (eventsOf t tr) <= bytesHanded (map snd tr).
Proof.
  induction tr as [|[t' e] tr IH]; [done|].
  unfold eventsOf in *. rewrite filter_cons. cbn [fst].
  pose proof (bytesHanded_nonneg (map snd tr)).
  destruct (decide (t' = t));
    cbn; destruct e; try done; unfold bytesHanded in *; cbn in *; lia.
Qed.

Lemma printLoop_app st us1 us2 st1 :
  printLoop st us1 = Ret (PrintWaiting st1) ->
  printLoop st (us1 ++ us2) = printLoop st1 us2.
Proof.
  revert st. induction us1 as [|u us1 IH]; intros st Hrun.
  { cbn in Hrun. by injection Hrun as ->. }
  cbn [printLoop app] in *.
  destruct (downloaded u <? 0); [done|].
  destruct (counts st !! Z.to_nat (threadnum u)); [|done].
  by apply IH.
Qed.

Lemma readBody_print (t : nat) d body read total st :
  counts st !! t = Some total -> 0 <= total <= shown st ->
  shown st + bytesHanded (readBody (Z.of_nat t) d body read total).2
    <= Int64.max_int ->
  (readBody (Z.of_nat t) d body read total).1.2
  = total + bytesHanded (readBody (Z.of_nat t) d body read total).2
  /\ printLoop st (updatesOf (readBody (Z.of_nat t) d body read total).2)
     = Ret (PrintWaiting
              (mkPrinter
                 (<[t := total
                          + bytesHanded
                              (readBody (Z.of_nat t) d body read total).2]>
                    (counts st))
                 (shown st
                  + bytesHanded
                      (readBody (Z.of_nat t) d body read total).2))).
Proof.
  revert read total st.
  induction body as [|chunk body IH]; intros read total st Hc Htot Hmax.
  { cbn. rewrite !Z.add_0_r, list_insert_id by done. by destruct st. }
  cbn [readBody] in *. destruct (read <? size d).
  2:{ cbn. rewrite !Z.add_0_r, list_insert_id by done. by destruct st. }
  set (n := Z.of_nat (length chunk)) in *.
  specialize (IH (Int64.add read n) (Int64.add total n)
                (mkPrinter (<[t := Int64.add total n]> (counts st))
                   (Int64.add (shown st)
                      (Int64.sub (Int64.add total n) total)))).
  destruct (readBody (Z.of_nat t) d body (Int64.add read n)
              (Int64.add total n)) as [[r t'] evs].
  cbn [fst snd] in *.
  pose proof (bytesHanded_nonneg evs) as Hnn.
  change (bytesHanded
            (EvWrite (Int64.add (position d) read) chunk
               :: EvUpdate (mkProgressUpdate (Z.of_nat t) (Int64.add total n))
               :: evs))
    with (n + bytesHanded evs) in *.
  assert (Hadd : Int64.add total n = total + n).
  { unfold Int64.add. apply wrap_id. subst n. in_range_solver. }
  assert (Hshown : Int64.add (shown st)
                     (Int64.sub (total + n) total) = shown st + n).
  { unfold Int64.add, Int64.sub.
    replace (total + n - total) with n by lia.
    rewrite (wrap_id n) by (subst n; in_range_solver).
    apply wrap_id. subst n. in_range_solver. }
  rewrite Hadd, Hshown in IH.
  destruct IH as [IHt IHp].
  { cbn [counts]. apply list_lookup_insert_eq. by eapply lookup_lt_Some. }
  { cbn [shown]. lia. }
  { cbn [shown]. lia. }
  split; [lia|].
  change (updatesOf
            (EvWrite (Int64.add (position d) read) chunk
               :: EvUpdate (mkProgressUpdate (Z.of_nat t) (Int64.add total n))
               :: evs))
    with (mkProgressUpdate (Z.of_nat t) (Int64.add total n) :: updatesOf evs).
  cbn [printLoop downloaded threadnum].
  rewrite Hadd, Nat2Z.id, Hc, Hshown.
  destruct (Z.ltb_spec (total + n) 0); [lia|].
  rewrite IHp. cbn [counts shown].
  rewrite list_insert_insert_eq, !Z.add_assoc. done.
Qed.

Lemma attempt_print (t : nat) urlOk failed w d ch evs0 resp st :
  updatesOf evs0 = [] -> bytesHanded evs0 = 0 ->
  counts st !! t = Some (total w) -> 0 <= total w <= shown st ->
  shown st
  + bytesHanded
      (iterEvents (attempt (Z.of_nat t) urlOk failed w d ch evs0 resp))
    <= Int64.max_int ->
  printLoop st
    (updatesOf
       (iterEvents (attempt (Z.of_nat t) urlOk failed w d ch evs0 resp)))
  = Ret (PrintWaiting
           (mkPrinter
              (<[t := total w
                       + bytesHanded
                           (iterEvents
                              (attempt (Z.of_nat t) urlOk failed w d ch evs0
                                 resp))]> (counts st))
              (shown st
               + bytesHanded
                   (iterEvents
                      (attempt (Z.of_nat t) urlOk failed w d ch evs0
                         resp)))))
  /\ match attempt (Z.of_nat t) urlOk failed w d ch evs0 resp with
     | Continue w' _ evs => total w' = total w + bytesHanded evs
     | Stopped _ evs | Exited evs => bytesHanded evs = 0
     | Blocked => True
     end.
Proof.
  intros Hu0 Hb0 Hc Htot.
  assert (Hidle : printLoop st []
                  = Ret (PrintWaiting
                           (mkPrinter (<[t := total w + 0]> (counts st))
                              (shown st + 0)))).
  { cbn. rewrite !Z.add_0_r, list_insert_id by done. by destruct st. }
  unfold attempt. destruct (negb urlOk).
  { cbn [iterEvents]. rewrite updatesOf_app, bytesHanded_app, Hu0, Hb0.
    intros _. split; [exact Hidle|done]. }
  destruct (failed resp).
  { destruct (_ >? 3); cbn [iterEvents];
      rewrite ?updatesOf_app, ?bytesHanded_app, Hu0, Hb0;
      intros _; (split; [exact Hidle|]); cbn; lia. }
  pose proof (readBody_print t d (bodyOf resp) 0 (total w) st Hc Htot) as Hrb.
  destruct (readBody _ _ _ _ _) as [[r t'] evs2]. cbn [fst snd] in Hrb.
  destruct (_ >=? _); cbn [iterEvents total];
    rewrite ?updatesOf_app, ?bytesHanded_app, Hu0, Hb0;
    cbn [updatesOf omap bytesHanded foldr app];
    rewrite ?app_nil_r, ?Z.add_0_r, ?Z.add_0_l;
    fold (bytesHanded evs2); fold (updatesOf evs2);
    change (updatesOf [EvGet (position d)
                         (Int64.sub (Int64.add (position d) (size d)) 1)])
      with (@nil ProgressUpdate);
    cbn [app];
    intros Hmax; destruct (Hrb Hmax) as [-> ->]; done.
Qed.

Lemma workerIter_print (t : nat) urlOk failed w ch resp st :
  counts st !! t = Some (total w) -> 0 <= total w <= shown st ->
  shown st
  + bytesHanded
      (iterEvents (workerIter (Z.of_nat t) urlOk failed w ch resp))
    <= Int64.max_int ->
  printLoop st
    (updatesOf (iterEvents (workerIter (Z.of_nat t) urlOk failed w ch resp)))
  = Ret (PrintWaiting
           (mkPrinter
              (<[t := total w
                       + bytesHanded
                           (iterEvents
                              (workerIter (Z.of_nat t) urlOk failed w ch
                                 resp))]> (counts st))
              (shown st
               + bytesHanded
                   (iterEvents
                      (workerIter (Z.of_nat t) urlOk failed w ch resp)))))
  /\ match workerIter (Z.of_nat t) urlOk failed w ch resp with
     | Continue w' _ evs => total w' = total w + bytesHanded evs
     | Stopped _ evs | Exited evs => bytesHanded evs = 0
     | Blocked => True
     end.
Proof.
  intros Hc Htot.
  assert (Hidle : printLoop st []
                  = Ret (PrintWaiting
                           (mkPrinter (<[t := total w + 0]> (counts st))
                              (shown st + 0)))).
  { cbn. rewrite !Z.add_0_r, list_insert_id by done. by destruct st. }
  unfold workerIter. destruct (finished w); [|by apply attempt_print].
  destruct ch as [|d ch]; [by intros _|].
  destruct (size d =? 0); [by intros _|]. by apply attempt_print.
Qed.

Lemma printLoop_waiting st updates st' :
  printLoop st updates = Ret (PrintWaiting st') ->
  Forall (fun u => 0 <= downloaded u) updates.
Proof.
  revert st. induction updates as [|u updates IH]; intros st Hrun;
    [constructor|].
  cbn [printLoop] in Hrun.
  destruct (Z.ltb_spec (downloaded u) 0); [done|].
  destruct (counts st !! Z.to_nat (threadnum u)); [|done].
  apply Forall_cons. split; [done|]. by eapply IH.
Qed.

Lemma printerFollows_step numThreads q r t w resp :
  length (workers q) = numThreads ->
  workers q !! t = Some (Some w) ->
  trace r
  = trace q
    ++ tag t (iterEvents
                (workerIter (Z.of_nat t) true failedAttempt w (channel q)
                   resp)) ->
  (forall t' w',
     workers r !! t' = Some (Some w') ->
     if decide (t' = t)
     then match workerIter (Z.of_nat t) true failedAttempt w (channel q)
                  resp with
          | Continue w'' _ _ => w' = w''
          | Exited _ => w' = w
          | _ => False
          end
     else workers q !! t' = Some (Some w')) ->
  bytesHanded (map snd (trace r)) <= Int64.max_int ->
  (bytesHanded (map snd (trace q)) <= Int64.max_int ->
   printerFollows numThreads q) ->
  printerFollows numThreads r.
Proof.
  intros Hn Hw Htrace Hworkers Hmax IH.
  unfold printerFollows, print_progress in *.
  set (res := workerIter (Z.of_nat t) true failedAttempt w (channel q) resp)
    in *.
  pose proof (bytesHanded_nonneg (iterEvents res)) as Hnn.
  rewrite Htrace, map_app, map_snd_tag, bytesHanded_app in Hmax.
  destruct (IH ltac:(lia)) as (st & Hrun & Hlen & Hshown & Hcounts & Htotals).
  assert (Ht : (t < numThreads)%nat).
  { rewrite <- Hn. by eapply lookup_lt_Some. }
  pose proof (Htotals t w Hw) as Htot.
  pose proof (bytesHanded_nonneg (eventsOf t (trace q))) as Hnn'.
  pose proof (bytesHanded_eventsOf_le t (trace q)) as Hle.
  destruct (workerIter_print t true failedAttempt w (channel q) resp st)
    as [Hprint Hres].
  { rewrite Htot. by apply Hcounts. }
  { lia. }
  { fold res. lia. }
  fold res in Hprint, Hres.
  eexists. split_and!.
  - rewrite Htrace, map_app, map_snd_tag, updatesOf_app.
    rewrite (printLoop_app _ _ _ _ Hrun). exact Hprint.
  - cbn [counts]. by rewrite length_insert.
  - cbn [shown]. rewrite Htrace, map_app, map_snd_tag, bytesHanded_app. lia.
  - intros t' Ht'. cbn [counts]. rewrite Htrace, eventsOf_app.
    destruct (decide (t' = t)) as [->|Hne].
    + rewrite list_lookup_insert_eq by lia.
      rewrite eventsOf_tag_same, bytesHanded_app. do 2 f_equal. done.
    + rewrite list_lookup_insert_ne by done.
      rewrite eventsOf_tag_other, app_nil_r by done. by apply Hcounts.
  - intros t' w' Hw'. specialize (Hworkers t' w' Hw').
    rewrite Htrace, eventsOf_app.
    destruct (decide (t' = t)) as [->|Hne].
    + rewrite eventsOf_tag_same, bytesHanded_app, <- Htot.
      destruct res; try done; subst w'; cbn [iterEvents] in *; lia.
    + rewrite eventsOf_tag_other, app_nil_r by done. by apply Htotals.
Qed.

(** X12: the progress display counts the bytes handed to [file.WriteAt].
    For a pool reached from the start, as long as the bytes the workers
    have read from the responses and handed to [file.WriteAt] are fewer
    than 2^63: [print_progress], having read every update the workers have
    sent, has not left its loop and has not indexed [counts] out of range;
    its [total] is the number of bytes handed over, its count for each
    thread the number that thread has handed over; and the [total] of
    each worker still running is what that worker has handed over. No
    worker ever sends the negative count that would end the printer. (The
    counts are of the calls: whether a byte reaches the output file is up
    to the open file, and the worker does not look at what [WriteAt]
    returns.) *)
Theorem progress_counts_bytes_handed (sent : list Download)
  (numThreads : nat) (p : pool) :
  poolReach true (initPool sent numThreads) p ->
  bytesHanded (map snd (trace p)) <= Int64.max_int ->
  printerFollows numThreads p
  /\ exists st',
       print_progress (updatesOf (map snd (trace p))) numThreads true
       = Ret (PrintWaiting st').
Proof.
  intros Hreach Hmax.
  assert (Hfollows : printerFollows numThreads p).
  { revert Hmax. induction Hreach as [|q r Hq IH Hstep]; intros Hmax.
    - exists (mkPrinter (replicate numThreads 0) 0). split_and!; try done.
      + cbn. by rewrite length_replicate.
      + intros t Ht. cbn. by rewrite lookup_replicate_2.
      + intros t w Hw. cbn in Hw.
        apply lookup_replicate in Hw as [[= ->] _]. done.
    - pose proof (poolReach_workers _ _ _ Hq) as Hn.
      destruct Hstep as [t w resp w' ch' evs Hex Hwf Hw Hit
                        |t w resp ch' evs Hex Hwf Hw Hit
                        |t w resp evs Hex Hwf Hw Hit];
        apply (printerFollows_step numThreads q _ t w resp Hn Hw);
        rewrite ?Hit; cbn [trace workers iterEvents]; try done.
      + intros t' w'' Hw''. case_decide as Ht'.
        * subst t'. rewrite list_lookup_insert_eq in Hw''
            by (by eapply lookup_lt_Some).
          by injection Hw'' as ->.
        * by rewrite list_lookup_insert_ne in Hw'' by done.
      + intros t' w'' Hw''. case_decide as Ht'.
        * subst t'. rewrite list_lookup_insert_eq in Hw''
            by (by eapply lookup_lt_Some).
          done.
        * by rewrite list_lookup_insert_ne in Hw'' by done.
      + intros t' w'' Hw''. case_decide as Ht'; [|done].
        subst t'. rewrite Hw in Hw''. by injection Hw'' as ->. }
  split; [done|].
  destruct Hfollows as (st & Hrun & _).
  unfold print_progress in *.
  apply printLoop_waiting in Hrun.
  destruct (quietLoop_ends (mkPrinter [] 0) (updatesOf (map snd (trace p))))
    as ([st'|st'] & He & _ & Hend); [|by exists st'].
  apply Exists_exists in Hend as (u & Hin & Hu).
  rewrite Forall_forall in Hrun. specialize (Hrun u Hin). lia.
Qed.

(** ** The progress file during a run *)

Lemma checkEvents_marks_in_item evs fl fl' :
  checkEvents fl evs = Some fl' ->
  forall off b,
    EvMark off b ∈ evs ->
    b = finishedSegment
    /\ ((exists d,
           d ∈ recvItems evs /\ size d <> 0
           /\ off = baseOffset + segmentNum d)
        \/ (exists d g, fl = InFlight d g /\ off = baseOffset + segmentNum d)).
Proof.
  revert fl. induction evs as [|e evs IH]; intros fl Hck off b Hin.
  { by apply elem_of_nil in Hin. }
  cbn [checkEvents] in Hck.
  destruct (checkEvent fl e) as [fl1|] eqn:He; [|done].
  assert (Hkeep : fl1 = fl -> e <> EvMark off b ->
                  recvItems (e :: evs) = recvItems evs ->
                  b = finishedSegment
                  /\ ((exists d,
                         d ∈ recvItems (e :: evs) /\ size d <> 0
                         /\ off = baseOffset + segmentNum d)
                      \/ (exists d g,
                            fl = InFlight d g
                            /\ off = baseOffset + segmentNum d))).
  { intros -> Hne ->. apply elem_of_cons in Hin as [Hin|Hin]; [by subst|].
    by apply (IH fl Hck off b). }
  destruct e as [d|a c|off' data'|u|off' b'|].
  - destruct fl as [|d0 g0]; [|done]. cbn in He. injection He as <-.
    apply elem_of_cons in Hin as [Hin|Hin]; [done|].
    change (recvItems (EvRecv d :: evs)) with (d :: recvItems evs).
    destruct (Z.eqb_spec (size d) 0) as [Hz|Hnz].
    + destruct (IH Idle Hck off b Hin)
        as [? [(d' & ? & ? & ?)|(d' & g & ? & _)]]; [|done].
      split; [done|]. left. exists d'. split; [by right|done].
    + destruct (IH (InFlight d 0) Hck off b Hin)
        as [? [(d' & ? & ? & ?)|(d' & g & [= <- <-] & ?)]];
        (split; [done|]); left.
      * exists d'. split; [by right|done].
      * exists d. split; [by left|done].
  - destruct fl as [|d0 g0]; [done|]. cbn in He.
    destruct (_ && _); [|done]. injection He as <-.
    by apply Hkeep.
  - destruct fl as [|d0 g0]; [done|]. cbn in He.
    destruct (_ && _); [|done]. injection He as <-.
    apply elem_of_cons in Hin as [Hin|Hin]; [done|].
    destruct (IH _ Hck off b Hin)
      as [? [(d' & ? & ? & ?)|(d' & g & [= <- <-] & ?)]];
      (split; [done|]).
    + left. by exists d'.
    + right. by exists d0, g0.
  - cbn in He. injection He as <-. by apply Hkeep.
  - destruct fl as [|d0 g0]; [done|]. cbn in He.
    destruct (size d0 <=? g0); [|done].
    destruct (Z.eqb_spec off' (baseOffset + segmentNum d0)) as [->|]; [|done].
    destruct (bool_decide_reflect (b' = finishedSegment)) as [->|]; [|done].
    cbn in He. injection He as <-.
    apply elem_of_cons in Hin as [Hin|Hin].
    + injection Hin as -> ->. split; [done|]. right. by exists d0, g0.
    + destruct (IH Idle Hck off b Hin)
        as [? [(d' & ? & ? & ?)|(d' & g & ? & _)]]; [|done].
      split; [done|]. left. by exists d'.
  - cbn in He. injection He as <-. by apply Hkeep.
Qed.

Lemma poolReach_marks sent numThreads p :
  wfSent sent -> poolReach true (initPool sent numThreads) p ->
  Forall markInBitmap (map snd (trace p)).
Proof.
  intros Hwf Hreach.
  destruct (poolInv_reach sent numThreads p Hwf Hreach) as [flights Hinv].
  destruct Hinv as [Hlen Hck Hnone _ _ (rest & Hrecv & _) _ _].
  apply Forall_forall. intros e He off b ->.
  apply list_elem_of_fmap in He as ([t e] & He & Hin). cbn in He. subst e.
  apply elem_of_eventsOf in Hin.
  destruct (decide (t < length (workers p))%nat) as [Ht|Ht];
    [|rewrite Hnone in Hin by lia; by apply elem_of_nil in Hin].
  destruct (lookup_lt_is_Some_2 flights t) as [fl Hfl]; [lia|].
  destruct (checkEvents_marks_in_item _ _ _ (Hck t fl Hfl) off b Hin)
    as [Hb [(d & Hd & Hsz & Hoff)|(d & g & ? & _)]]; [|done].
  split; [done|].
  assert (Hsent : d ∈ sent).
  { rewrite <- Hrecv. apply elem_of_app. left.
    apply elem_of_recvItems. apply list_elem_of_fmap.
    exists (t, EvRecv d). split; [done|].
    apply elem_of_eventsOf. by apply elem_of_recvItems. }
  destruct Hwf as [Hitems _]. rewrite Forall_forall in Hitems.
  destruct (Hitems d Hsent) as [?|(_ & _ & _ & ? & ?)]; [done|]. lia.
Qed.

Lemma marksTo_progress f0 evs rest :
  (length f0 <= Z.to_nat baseOffset)%nat ->
  Forall markInBitmap evs ->
  exists rest',
    marksTo (f0 ++ rest) evs = f0 ++ rest'
    /\ forall k,
         doneAt (f0 ++ rest') k = doneAt (f0 ++ rest) k || markedIn evs k.
Proof.
  intros Hf0 Hevs. revert rest.
  induction Hevs as [|e evs He _ IH]; intros rest.
  { exists rest. split; [done|]. intros k. by rewrite orb_false_r. }
  rewrite marksTo_cons.
  assert (Hother : (forall off b, e <> EvMark off b) ->
                   exists rest',
                     marksTo (f0 ++ rest) evs = f0 ++ rest'
                     /\ forall k,
                          doneAt (f0 ++ rest') k
                          = doneAt (f0 ++ rest) k || markedIn (e :: evs) k).
  { intros Hnm.
    destruct (IH rest) as (rest' & Hrest & Hdone).
    exists rest'. split; [done|]. intros k. rewrite Hdone. f_equal.
    unfold markedIn. cbn [existsb].
    destruct e; try done. by destruct (Hnm off b). }
  destruct e as [d|a c|off data|u|off b|]; try (by apply Hother).
  destruct (He off b eq_refl) as [-> [Hlo Hhi]].
  assert (Hmark : writeAt (f0 ++ rest) off [finishedSegment]
                  = markSegment (f0 ++ rest) (off - baseOffset)).
  { unfold markSegment. f_equal. unfold Int64.add.
    replace (baseOffset + (off - baseOffset)) with off by lia.
    symmetry. apply wrap_id. unfold baseOffset in *. in_range_solver. }
  destruct (markSegment_prefix f0 rest (off - baseOffset) Hf0)
    as [rest1 Hrest1]; [lia|lia|].
  rewrite Hmark, Hrest1.
  destruct (IH rest1) as (rest' & Hrest & Hdone).
  exists rest'. split; [done|]. intros k. rewrite Hdone, <- Hrest1.
  rewrite markSegment_doneAt by lia.
  unfold markedIn. cbn [existsb isMarkAt].
  rewrite orb_assoc. f_equal. rewrite orb_comm. f_equal.
  destruct (Z.eqb_spec off (baseOffset + Z.of_nat k)).
  - apply bool_decide_eq_true_2. lia.
  - apply bool_decide_eq_false_2. lia.
Qed.

Lemma sent_items_pending_witness :
  doneAt (@exampleStored gobCodec) (Z.to_nat 1) = false.
Proof.
  apply (@sent_items_pending gobCodec (HeadResponse 200 5)
           (mkDisk (Some [Byte.x41; Byte.x42]) (Some exampleStored) true) 1
           (mkDisk (Some [Byte.x41; Byte.x42]) (Some exampleStored) true)
           (mkProgressInfo 5 2 [true; false; false]) false
           [mkDownload 2 2 1; mkDownload 4 1 2; mkDownload 5 0 0]
           exampleStored (mkDownload 2 2 1)).
  - intros length [= <-]. unfold Int64.in_range.
    rewrite max_int_val, min_int_val. lia.
  - by vm_compute.
  - reflexivity.
  - apply list_elem_of_here.
  - cbn. lia.
Defined.

(** ** Resuming against an honest server *)

Lemma enqueueFrom_items info segs seg item :
  item ∈ enqueueFrom info seg segs ->
  exists k : nat,
    segs !! k = Some false
    /\ item = segmentInstruction info (seg + Z.of_nat k).
Proof.
  revert seg. induction segs as [|b segs IH]; intros seg Hin.
  { by apply elem_of_nil in Hin. }
  cbn [enqueueFrom] in Hin.
  assert (Hrest : item ∈ enqueueFrom info (seg + 1) segs ->
                  exists k : nat,
                    (b :: segs) !! k = Some false
                    /\ item = segmentInstruction info (seg + Z.of_nat k)).
  { intros Hi. destruct (IH _ Hi) as (k & Hk & ->).
    exists (S k). split; [done|]. f_equal. lia. }
  destruct b; [by apply Hrest|].
  apply elem_of_cons in Hin as [->|Hin]; [|by apply Hrest].
  exists 0%nat. split; [done|]. f_equal. lia.
Qed.

Section ResumedRun.
Context `{codec : GobCodec}.

Lemma resumed_count f info :
  readProgressInfo (Some f) = Ret (info, None) ->
  0 <= Length info -> 0 < SegmentSize info ->
  Length info + SegmentSize info - 1 <= Int64.max_int ->
  Z.of_nat (length (segments info))
  = ceilDiv (Length info) (SegmentSize info).
Proof.
  intros Hread Hl Hs Hmax.
  destruct (readProgressInfo_consistent _ _ Hread) as [Hcount _].
  rewrite findSegmentCount_exact in Hcount by done.
  by injection Hcount.
Qed.

(** X14: the plan of a resumed run. When the progress file reads back
    without error, with a length and a segment size in range, every work
    item [download] sends is a segment of the plan for the stored length
    and the stored segment size (it starts at its number times the segment
    size and ends at the next segment or at the length), and what is sent
    is a plan as the workers need it: items inside the range of [int64],
    no segment twice, then the poison. *)
Theorem resumed_items_are_plan_segments (f : list byte)
  (info : ProgressInfo) (numThreads : nat) :
  readProgressInfo (Some f) = Ret (info, None) ->
  0 <= Length info -> 0 < SegmentSize info ->
  Length info + SegmentSize info - 1 <= Int64.max_int ->
  Length info + Z.of_nat bufSize <= Int64.max_int ->
  wfSent (instructionsSent info numThreads)
  /\ forall item,
       item ∈ enqueueSegments info ->
       0 <= segmentNum item < ceilDiv (Length info) (SegmentSize info)
       /\ item
          = segmentSpec (Length info) (SegmentSize info) (segmentNum item).
Proof.
  intros Hread Hl Hs Hmax Hbuf.
  pose proof (resumed_count f info Hread Hl Hs Hmax) as Hcount.
  destruct info as [L S segs]. cbn [Length SegmentSize segments] in *.
  split; [by apply instructionsSent_wf|].
  intros item Hin. unfold enqueueSegments in Hin. cbn [segments] in Hin.
  apply enqueueFrom_items in Hin as (k & Hk & ->).
  apply lookup_lt_Some in Hk.
  pose proof (ceilDiv_spec L S Hl Hs) as [_ Hc].
  assert (Hlt : (0 + Z.of_nat k) * S < L).
  { assert ((0 + Z.of_nat k) * S <= (ceilDiv L S - 1) * S)
      by (apply Z.mul_le_mono_nonneg_r; lia).
    lia. }
  rewrite segmentInstruction_spec by (done || lia).
  cbn [segmentNum segmentSpec]. split; [lia|done].
Qed.

End ResumedRun.

Lemma resumed_items_are_plan_segments_witness :
  wfSent (instructionsSent (mkProgressInfo 5 2 [true; false; false]) 1)
  /\ forall item,
       item ∈ enqueueSegments (mkProgressInfo 5 2 [true; false; false]) ->
       0 <= segmentNum item < ceilDiv 5 2
       /\ item = segmentSpec 5 2 (segmentNum item).
Proof.
  apply (@resumed_items_are_plan_segments gobCodec exampleStored
           (mkProgressInfo 5 2 [true; false; false]) 1).
  - by vm_compute.
  - cbn. lia.
  - cbn. lia.
  - rewrite max_int_val. cbn. lia.
  - rewrite max_int_val. unfold bufSize. cbn. lia.
Defined.

Lemma progress_counts_bytes_handed_witness :
  printerFollows 1 examplePool
  /\ exists st',
       print_progress (updatesOf (map snd (trace examplePool))) 1 true
       = Ret (PrintWaiting st').
Proof.
  apply (progress_counts_bytes_handed exampleSent 1 examplePool).
  - unfold examplePool.
    apply poolDo_reach; [constructor|].
    apply poolDo_reach;
      [apply Forall_cons; split; [unfold bufSize; cbn; lia|constructor]|].
    apply ReachRefl.
  - rewrite max_int_val. vm_compute. discriminate.
Defined.

(** * Runs of [download] *)

Section StartedFacts.
Context `{codec : GobCodec}.

Lemma setupProgressFile_started d len segmentSize fc r :
  setupProgressFile d len segmentSize fc = Ret r -> sr_err r = None ->
  (sr_clean r = true ->
   sr_progress r = Some (magic ++ gobEncode len segmentSize)
   /\ exists c,
        findSegmentCount len segmentSize = Ret c /\ 0 <= c
        /\ sr_info r
           = mkProgressInfo len segmentSize (replicate (Z.to_nat c) false))
  /\ (sr_clean r = false ->
      exists f,
        progressFile d = Some f /\ sr_progress r = Some f
        /\ Length (sr_info r) = len
        /\ readProgressInfo (Some f) = Ret (sr_info r, None)).
Proof.
  intros Hsetup Herr. unfold setupProgressFile in Hsetup.
  assert (Hcleanpath :
    forall i0,
      (let! segmentCount := findSegmentCount len segmentSize in
       match beginProgressFile (writable d) len segmentSize with
       | inr e => Ret (mkSetupResult (progressFile d) i0 true (Some e))
       | inl f0 =>
           let! segs := makeBools segmentCount in
           Ret (mkSetupResult (Some f0)
                  (mkProgressInfo len segmentSize segs) true None)
       end) = Ret r ->
      (sr_clean r = true ->
       sr_progress r = Some (magic ++ gobEncode len segmentSize)
       /\ exists c,
            findSegmentCount len segmentSize = Ret c /\ 0 <= c
            /\ sr_info r
               = mkProgressInfo len segmentSize
                   (replicate (Z.to_nat c) false))
      /\ (sr_clean r = false ->
          exists f,
            progressFile d = Some f /\ sr_progress r = Some f
            /\ Length (sr_info r) = len
            /\ readProgressInfo (Some f) = Ret (sr_info r, None))).
  { intros i0 Hc.
    destruct (findSegmentCount len segmentSize) as [c|]; [|done].
    cbn [obind] in Hc. unfold beginProgressFile in Hc.
    destruct (writable d).
    2:{ injection Hc as <-. cbn in Herr. done. }
    unfold makeBools in Hc. destruct (Z.ltb_spec c 0); [done|].
    cbn [obind] in Hc. injection Hc as <-. cbn. split; [|done].
    intros _. split; [done|]. by exists c. }
  destruct fc; cbn [negb obind] in Hsetup; [by eapply Hcleanpath|].
  destruct (readProgressInfo (progressFile d)) as [[i0 err]|] eqn:Hread;
    cbn [obind] in Hsetup; [|done].
  destruct err as [e|]; cbn [obind] in Hsetup; [by eapply Hcleanpath|].
  destruct (Z.eqb_spec len (Length i0)) as [Hlen|];
    cbn [negb obind] in Hsetup; [|by eapply Hcleanpath].
  destruct (findSegmentCount len (SegmentSize i0)); [|done].
  cbn [obind] in Hsetup.
  destruct (negb _); [by eapply Hcleanpath|].
  destruct (writable d); injection Hsetup as <-; [|done].
  cbn. split; [done|]. intros _.
  destruct (progressFile d) as [f|]; [|done].
  by exists f.
Qed.

(** What [download] has decided and opened when it starts the workers. *)
Lemma download_started h d numThreads d' info truncate sent :
  download h d numThreads = Ret (Started d' info truncate sent) ->
  sent = instructionsSent info numThreads
  /\ outputFile d' = Some (if truncate then [] else default [] (outputFile d))
  /\ (truncate = true ->
      SegmentSize info = defaultSegmentSize
      /\ progressFile d'
         = Some (magic ++ gobEncode (Length info) (SegmentSize info))
      /\ exists c,
           findSegmentCount (Length info) (SegmentSize info) = Ret c
           /\ 0 <= c /\ segments info = replicate (Z.to_nat c) false)
  /\ (truncate = false ->
      exists f,
        progressFile d = Some f /\ progressFile d' = Some f
        /\ readProgressInfo (Some f) = Ret (info, None)).
Proof.
  intros Hdl. unfold download in Hdl.
  destruct (findFileLength h) as [[len|]|]; cbn [obind] in Hdl; try done.
  destruct (_ && _); [done|].
  destruct (setupProgressFile d len defaultSegmentSize _) as [r|] eqn:Hsetup;
    cbn [obind] in Hdl; [|done].
  destruct (sr_err r) eqn:Herr; [done|].
  unfold openOutput in Hdl. destruct (writable d); [|done].
  injection Hdl as <- <- <- <-. cbn [outputFile progressFile].
  destruct (setupProgressFile_started _ _ _ _ _ Hsetup Herr)
    as [Hclean Hresume].
  split; [done|]. split; [done|]. split.
  - intros Hc. destruct (Hclean Hc) as [Hprog (c & Hcount & Hc0 & Hinfo)].
    rewrite Hinfo. cbn. split; [done|]. split; [done|]. by exists c.
  - intros Hc. destruct (Hresume Hc) as (f & Hf & Hprog & _ & Hread).
    by exists f.
Qed.

(** The number of segments of the state the workers are started on. *)
Lemma download_started_count h d numThreads d' info truncate sent :
  download h d numThreads = Ret (Started d' info truncate sent) ->
  0 <= Length info -> 0 < SegmentSize info ->
  Length info + SegmentSize info - 1 <= Int64.max_int ->
  Z.of_nat (length (segments info))
  = ceilDiv (Length info) (SegmentSize info).
Proof.
  intros Hdl Hl Hs Hmax.
  destruct (download_started _ _ _ _ _ _ _ Hdl) as (_ & _ & Hclean & Hresume).
  destruct truncate.
  - destruct (Hclean eq_refl) as (_ & _ & c & Hc & Hc0 & ->).
    rewrite findSegmentCount_exact in Hc by done. injection Hc as <-.
    rewrite length_replicate. lia.
  - destruct (Hresume eq_refl) as (f & _ & _ & Hread).
    destruct (readProgressInfo_consistent _ _ Hread) as [Hcount _].
    rewrite findSegmentCount_exact in Hcount by done.
    by injection Hcount.
Qed.
End StartedFacts.

(** The items of a plan lie inside the resource. *)
Lemma enqueueSegments_inside info :
  0 <= Length info -> 0 < SegmentSize info ->
  Length info + SegmentSize info - 1 <= Int64.max_int ->
  Length info + Z.of_nat bufSize <= Int64.max_int ->
  Z.of_nat (length (segments info))
  = ceilDiv (Length info) (SegmentSize info) ->
  Forall (fun d => wfItem d /\ position d + size d <= Length info)
    (enqueueSegments info).
Proof.
  intros Hl Hs Hmax Hbuf Hcount.
  destruct info as [L S segs]. cbn [Length SegmentSize segments] in *.
  apply Forall_forall. intros item Hin.
  unfold enqueueSegments in Hin. cbn [segments] in Hin.
  apply enqueueFrom_items in Hin as (k & Hk & ->).
  apply lookup_lt_Some in Hk.
  pose proof (ceilDiv_spec L S Hl Hs) as [_ Hc].
  assert (Hlt : (0 + Z.of_nat k) * S < L).
  { assert ((0 + Z.of_nat k) * S <= (ceilDiv L S - 1) * S)
      by (apply Z.mul_le_mono_nonneg_r; lia).
    lia. }
  rewrite segmentInstruction_spec by (done || lia).
  split; [apply segmentSpec_wf; (done || lia)|].
  cbn [position size segmentSpec]. lia.
Qed.

(** ** A run that ends *)

Lemma bodyLength_singletons (l : list byte) :
  bodyLength (map (fun b => [b]) l) = Z.of_nat (length l).
Proof.
  induction l as [|b l IH]; [done|].
  unfold bodyLength in *. cbn [map foldr length]. rewrite IH.
  cbn [length]. lia.
Qed.

Lemma concat_singletons (l : list byte) : concat (map (fun b => [b]) l) = l.
Proof. induction l as [|b l IH]; [done|]. cbn. by rewrite IH. Qed.

Lemma fullAnswer_ok resource d :
  0 <= position d -> 0 <= size d ->
  position d + size d <= Z.of_nat (length resource) ->
  failedAttempt (fullAnswer resource d) = false
  /\ wfBody (bodyOf (fullAnswer resource d))
  /\ bodyLength (bodyOf (fullAnswer resource d)) = size d
  /\ honestBody resource d (bodyOf (fullAnswer resource d)).
Proof.
  intros Hpos Hsz Hin. unfold fullAnswer. cbn [failedAttempt bodyOf].
  split; [done|]. split; [|split].
  - unfold wfBody. apply Forall_fmap, Forall_forall. intros b _.
    unfold bufSize. cbn. lia.
  - rewrite bodyLength_singletons, length_take, length_drop. lia.
  - unfold honestBody. rewrite concat_singletons.
    exists (drop (Z.to_nat (size d)) (drop (Z.to_nat (position d)) resource)).
    by rewrite take_drop.
Qed.

Lemma attempt_full tn failed w d ch evs0 resp :
  wfItem d -> wfBody (bodyOf resp) -> failed resp = false ->
  size d <= bodyLength (bodyOf resp) ->
  exists w' evs,
    attempt tn true failed w d ch evs0 resp = Continue w' ch evs
    /\ finished w' = true.
Proof.
  intros Hd Hwf Hfailed Hlen. unfold attempt. cbn [negb]. rewrite Hfailed.
  destruct (readBody_discipline tn d 0 (bodyOf resp) 0 (total w) Hd
              ltac:(done) ltac:(rewrite max_int_val; lia) Hwf)
    as (r & t & evs & Heq & _ & _ & _ & _ & Hshort & _).
  rewrite shrink_0 in Heq. rewrite Heq.
  destruct (Z.geb_spec r (size d)) as [_|Hlt]; [by eexists _, _|].
  specialize (Hshort ltac:(lia)). lia.
Qed.

Lemma serve_step resource p d ch w :
  exited p = false -> workers p !! 0%nat = Some (Some w) ->
  finished w = true -> channel p = d :: ch ->
  wfItem d -> position d + size d <= Z.of_nat (length resource) ->
  exists w' evs,
    poolDo p 0 (fullAnswer resource d)
    = mkPool ch (<[0%nat := Some w']> (workers p)) (trace p ++ tag 0 evs)
        false
    /\ finished w' = true
    /\ wfBody (bodyOf (fullAnswer resource d))
    /\ honest resource w (channel p) (fullAnswer resource d).
Proof.
  intros Hex Hw Hfin Hch Hd Hin.
  destruct Hd as (Hpos & Hsz & Hmax & Hseg).
  destruct (fullAnswer_ok resource d Hpos ltac:(lia) Hin)
    as (Hfail & Hwf & Hlen & Hhonest).
  destruct (attempt_full (Z.of_nat 0) failedAttempt w d ch [EvRecv d]
              (fullAnswer resource d) ltac:(done) Hwf Hfail ltac:(lia))
    as (w' & evs & Hatt & Hfin').
  exists w', evs. split_and!; try done.
  - unfold poolDo. rewrite Hex, Hw. unfold workerIter. rewrite Hfin, Hch.
    destruct (Z.eqb_spec (size d) 0); [lia|]. by rewrite Hatt.
  - right. unfold nextItem. rewrite Hfin, Hch. cbn. by intros ? [= <-].
Qed.

Lemma serveAll_run resource p0 items :
  forall p rest,
    honestReach resource p0 p -> exited p = false ->
    channel p = items ++ rest ->
    Forall idleWorker (workers p) -> (0 < length (workers p))%nat ->
    Forall (fun d => wfItem d
                     /\ position d + size d <= Z.of_nat (length resource))
      items ->
    honestReach resource p0 (serveAll resource p items)
    /\ exited (serveAll resource p items) = false
    /\ channel (serveAll resource p items) = rest
    /\ Forall idleWorker (workers (serveAll resource p items))
    /\ length (workers (serveAll resource p items)) = length (workers p).
Proof.
  induction items as [|d items IH]; intros p rest Hreach Hex Hch Hidle Hn Hit.
  { done. }
  apply Forall_cons in Hit as [[Hd Hin] Hit].
  destruct (lookup_lt_is_Some_2 (workers p) 0 Hn) as [o Ho].
  rewrite Forall_lookup in Hidle.
  destruct (Hidle 0%nat o Ho) as (w & -> & Hfin).
  destruct (serve_step resource p d (items ++ rest) w Hex Ho Hfin Hch Hd Hin)
    as (w' & evs & Hdo & Hfin' & Hwf & Hhonest).
  cbn [serveAll].
  destruct (IH (poolDo p 0 (fullAnswer resource d)) rest)
    as (Hreach' & Hex' & Hch' & Hidle' & Hlen'); try (rewrite Hdo; done).
  - by eapply HonestStep.
  - rewrite Hdo. cbn [workers]. apply Forall_lookup. intros i o' Hi.
    destruct (decide (i = 0%nat)) as [->|Hne].
    + rewrite list_lookup_insert_eq in Hi by done.
      injection Hi as <-. by exists w'.
    + rewrite list_lookup_insert_ne in Hi by done. by eapply Hidle.
  - rewrite Hdo. cbn [workers]. by rewrite length_insert.
  - done.
  - split_and!; try done. rewrite Hlen', Hdo. cbn [workers].
    by rewrite length_insert.
Qed.

Lemma stop_step resource p k w psn ch :
  exited p = false -> workers p !! k = Some (Some w) ->
  finished w = true -> channel p = psn :: ch -> size psn = 0 ->
  poolDo p k TransportError
  = mkPool ch (<[k := None]> (workers p)) (trace p ++ tag k [EvRecv psn])
      false
  /\ honest resource w (channel p) TransportError.
Proof.
  intros Hex Hw Hfin Hch Hpsn. split; [|by left].
  unfold poolDo. rewrite Hex, Hw. unfold workerIter. rewrite Hfin, Hch.
  by rewrite Hpsn.
Qed.

Lemma stopAll_run resource p0 p psn (n : nat) :
  honestReach resource p0 p -> exited p = false ->
  channel p = replicate n psn -> size psn = 0 ->
  Forall idleWorker (workers p) -> length (workers p) = n ->
  forall k, (k <= n)%nat ->
    honestReach resource p0 (stopAll p k)
    /\ exited (stopAll p k) = false
    /\ channel (stopAll p k) = replicate (n - k) psn
    /\ length (workers (stopAll p k)) = n
    /\ (forall i, (i < k)%nat -> workers (stopAll p k) !! i = Some None)
    /\ (forall i, (k <= i)%nat ->
          workers (stopAll p k) !! i = workers p !! i).
Proof.
  intros Hreach Hex Hch Hpsn Hidle Hlen.
  induction k as [|k IH]; intros Hk.
  { cbn [stopAll]. rewrite Nat.sub_0_r. split_and!; try done. lia. }
  destruct (IH ltac:(lia)) as (Hr & He & Hc & Hl & Hlow & Hhigh).
  cbn [stopAll].
  destruct (lookup_lt_is_Some_2 (workers p) k ltac:(lia)) as [o Ho].
  rewrite Forall_lookup in Hidle.
  destruct (Hidle k o Ho) as (w & -> & Hfin).
  assert (Hwk : workers (stopAll p k) !! k = Some (Some w))
    by (by rewrite Hhigh).
  assert (Hck : channel (stopAll p k) = psn :: replicate (n - S k) psn).
  { rewrite Hc. replace (n - k)%nat with (S (n - S k)) by lia. done. }
  destruct (stop_step resource (stopAll p k) k w psn _ He Hwk Hfin Hck Hpsn)
    as [Hdo Hhonest].
  split_and!.
  - eapply HonestStep; [done|done|constructor|done].
  - by rewrite Hdo.
  - by rewrite Hdo.
  - rewrite Hdo. cbn [workers]. by rewrite length_insert.
  - intros i Hi. rewrite Hdo. cbn [workers].
    destruct (decide (i = k)) as [->|Hne].
    + by rewrite list_lookup_insert_eq by lia.
    + rewrite list_lookup_insert_ne by done. apply Hlow. lia.
  - intros i Hi. rewrite Hdo. cbn [workers].
    rewrite list_lookup_insert_ne by lia. apply Hhigh. lia.
Qed.

(** Every plan (work items inside the resource, then one poison item per
    worker) has a run against an honest server in which every worker
    returns. *)
Lemma complete_run resource items psn numThreads :
  (0 < numThreads)%nat -> size psn = 0 ->
  Forall (fun d => wfItem d
                   /\ position d + size d <= Z.of_nat (length resource))
    items ->
  honestReach resource
    (initPool (items ++ replicate numThreads psn) numThreads)
    (completeRun resource items psn numThreads)
  /\ exited (completeRun resource items psn numThreads) = false
  /\ Forall (fun o => o = None)
       (workers (completeRun resource items psn numThreads)).
Proof.
  intros Hn Hpsn Hitems. unfold completeRun.
  set (p0 := initPool (items ++ replicate numThreads psn) numThreads).
  destruct (serveAll_run resource p0 items p0 (replicate numThreads psn))
    as (Hr & He & Hc & Hidle & Hlen); try done.
  { apply HonestRefl. }
  { cbn. apply Forall_replicate. by exists initWorker. }
  { cbn. by rewrite length_replicate. }
  cbn [p0 initPool workers] in Hlen. rewrite length_replicate in Hlen.
  destruct (stopAll_run resource p0 (serveAll resource p0 items) psn
              numThreads Hr He Hc Hpsn Hidle Hlen numThreads ltac:(lia))
    as (Hr' & He' & _ & Hl' & Hlow & _).
  split_and!; try done.
  apply Forall_lookup. intros i o Hi.
  pose proof (lookup_lt_Some _ _ _ Hi) as Hlt. rewrite Hl' in Hlt.
  rewrite (Hlow i Hlt) in Hi. by injection Hi.
Qed.

(** ** The done entries during a run *)

Lemma markedIn_take_mono evs (m m' k : nat) :
  (m <= m')%nat -> markedIn (take m evs) k = true ->
  markedIn (take m' evs) k = true.
Proof.
  intros Hm Hk. unfold markedIn in *.
  rewrite <- (take_drop m (take m' evs)), take_take, Nat.min_l by done.
  rewrite existsb_app, Hk. done.
Qed.

Lemma count_markedIn evs (k : nat) :
  (0 < count (isMarkAt (baseOffset + Z.of_nat k)) evs)%nat ->
  markedIn evs k = true.
Proof.
  unfold markedIn, count. induction evs as [|e evs IH]; [cbn; lia|].
  cbn [sum_list_with existsb].
  destruct (isMarkAt (baseOffset + Z.of_nat k) e); [done|].
  cbn [b2n orb]. intros Hc. apply IH. lia.
Qed.

Section RunFacts.
Context `{codec : GobCodec}.

Lemma clean_progress_entries totalLength segmentSize out evs :
  Int64.in_range totalLength -> Int64.in_range segmentSize ->
  Forall markInBitmap evs ->
  exists rest,
    h_bytes (applyEvents
               (out, mkHandle (magic ++ gobEncode totalLength segmentSize)
                       false) evs).2
    = (magic ++ gobEncode totalLength segmentSize) ++ rest
    /\ forall k,
         doneAt ((magic ++ gobEncode totalLength segmentSize) ++ rest) k
         = markedIn evs k.
Proof.
  intros Hl Hs Hevs.
  pose proof (gob_header_fits totalLength segmentSize Hl Hs) as Hfit.
  destruct (applyEvents_files
              (out, mkHandle (magic ++ gobEncode totalLength segmentSize)
                      false) evs) as [_ ->].
  cbn [snd h_append h_bytes].
  destruct (marksTo_progress (magic ++ gobEncode totalLength segmentSize)
              evs []) as (rest & Hpre & Hdone);
    [by rewrite length_app|done|].
  rewrite app_nil_r in Hpre, Hdone.
  exists rest. split; [done|]. intros k. rewrite Hdone.
  rewrite doneAt_short by (rewrite length_app; lia). done.
Qed.

(** C3: the done entries in a run of [download]. The workers were started
    by [download] on the two files as it opens them, with a length and a
    segment size in range, and have come to the pool [p].
    - A worker calls the mark of an item only after it has received the
      item and has issued writes that cover it from its first byte to its
      last; no place of the bitmap is marked twice; when every worker has
      returned every item sent has been marked exactly once; and the run
      can get there.
    - On a clean start the progress file comes from [os.Create]: the entry
      of a segment says "done" from its mark call on and never before, so
      it flips once, and at the end every entry says "done".
    - On a resume the progress file is opened with [O_APPEND], and the
      mark calls are refused: the file stays as it was, and the entry of a
      segment fetched in this run never flips.
    - In both cases an entry that says "done" keeps saying so, and the
      output file, opened with [O_APPEND], is what it was when opened. *)
Theorem marks_once_after_writes (h : headResponse) (d d' : disk)
  (numThreads : nat) (info : ProgressInfo) (truncate : bool)
  (sent : list Download) (files : handle * handle) (p : pool) :
  download h d numThreads = Ret (Started d' info truncate sent) ->
  openedFiles (Started d' info truncate sent) = Some files ->
  0 <= Length info -> 0 < SegmentSize info ->
  Length info + SegmentSize info - 1 <= Int64.max_int ->
  Length info + Z.of_nat bufSize <= Int64.max_int ->
  (0 < numThreads)%nat ->
  poolReach true (initPool sent numThreads) p ->
  markCalls (enqueueSegments info) p
  /\ canComplete sent numThreads
  /\ doneEntries truncate info files p.
Proof.
  intros Hdl Hfiles Hl Hs Hmax Hbuf Hn Hreach.
  pose proof (download_started_count _ _ _ _ _ _ _ Hdl Hl Hs Hmax) as Hcount.
  destruct (download_started _ _ _ _ _ _ _ Hdl)
    as (Hsent & Hout & Hclean & Hresume).
  pose proof (enqueueSegments_inside info Hl Hs Hmax Hbuf Hcount) as Hinside.
  assert (Hwf : wfSent sent).
  { rewrite Hsent. destruct info as [L S segs]. by apply instructionsSent_wf. }
  assert (Hitems : Forall (fun d => size d <> 0) (enqueueSegments info)).
  { eapply Forall_impl; [exact Hinside|]. intros x [(_ & ? & _) _]. lia. }
  assert (Hcalls : markCalls (enqueueSegments info) p).
  { by apply (poolReach_markCalls sent _ (poison info) numThreads). }
  pose proof (poolReach_marks sent numThreads p Hwf Hreach) as Hmarks.
  injection Hfiles as <-.
  split; [done|]. split.
  { destruct (complete_run (replicate (Z.to_nat (Length info)) Byte.x00)
                (enqueueSegments info) (poison info) numThreads Hn eq_refl)
      as (Hr & He & Hall).
    { eapply Forall_impl; [exact Hinside|]. intros x [? ?].
      split; [done|]. rewrite length_replicate. lia. }
    eexists. rewrite Hsent. split; [|done].
    eapply honestReach_poolReach. exact Hr. }
  assert (Hprog : forall evs,
            Forall markInBitmap evs ->
            if truncate
            then forall k,
                   doneAt (h_bytes
                             (applyEvents
                                (mkHandle (default [] (outputFile d')) true,
                                 mkHandle (default [] (progressFile d'))
                                   (negb truncate)) evs).2) k
                   = markedIn evs k
            else h_bytes
                   (applyEvents
                      (mkHandle (default [] (outputFile d')) true,
                       mkHandle (default [] (progressFile d'))
                         (negb truncate)) evs).2
                 = default [] (progressFile d')).
  { intros evs Hevs. destruct truncate.
    - destruct (Hclean eq_refl) as (HS & -> & _).
      cbn [default from_option id negb].
      destruct (clean_progress_entries (Length info) (SegmentSize info)
                  (mkHandle (default [] (outputFile d')) true) evs)
        as (rest & -> & Hdone); try done.
      + unfold Int64.in_range. rewrite max_int_val, min_int_val in *. lia.
      + rewrite HS. by vm_compute.
    - cbn [negb].
      by destruct (applyEvents_files
                     (mkHandle (default [] (outputFile d')) true,
                      mkHandle (default [] (progressFile d')) true) evs)
        as [_ ->]. }
  split_and!.
  - intros m k. specialize (Hprog _ (Forall_take _ m _ Hmarks)).
    by destruct truncate.
  - intros m m' k Hm.
    pose proof (Hprog _ (Forall_take _ m _ Hmarks)) as H1.
    pose proof (Hprog _ (Forall_take _ m' _ Hmarks)) as H2.
    destruct truncate.
    + rewrite H1, H2. by apply markedIn_take_mono.
    + cbn [snd h_bytes] in *. by rewrite H1, H2.
  - intros -> Hex Hall k Hk.
    rewrite (Hprog _ Hmarks k). apply count_markedIn.
    destruct Hcalls as (_ & _ & Hdone).
    destruct (Hclean eq_refl) as (_ & _ & c & _ & _ & Hsegs).
    assert (Hin : segmentInstruction info (0 + Z.of_nat k)
                  ∈ enqueueSegments info).
    { apply enqueueFrom_sends. rewrite Hsegs. apply lookup_replicate_2.
      rewrite Hsegs, length_replicate in Hcount. lia. }
    pose proof (Hdone Hex Hall _ Hin) as Hone.
    cbn [segmentNum segmentInstruction] in Hone.
    rewrite Z.add_0_l in Hone. lia.
  - intros m.
    by destruct (applyEvents_files
                   (mkHandle (default [] (outputFile d')) true,
                    mkHandle (default [] (progressFile d')) (negb truncate))
                   (take m (map snd (trace p)))) as [-> _].
Qed.
End RunFacts.

Lemma marks_once_after_writes_witness :
  markCalls (enqueueSegments exampleInfo) exampleResumed
  /\ canComplete (instructionsSent exampleInfo 1) 1
  /\ doneEntries false exampleInfo
       (mkHandle [Byte.x41; Byte.x42] true,
        mkHandle (@exampleStored gobCodec) true) exampleResumed.
Proof.
  apply (@marks_once_after_writes gobCodec (HeadResponse 200 5)
           exampleDisk exampleDisk 1 exampleInfo false
           (instructionsSent exampleInfo 1)
           (mkHandle [Byte.x41; Byte.x42] true,
            mkHandle exampleStored true) exampleResumed).
  - by vm_compute.
  - reflexivity.
  - cbn. lia.
  - cbn. lia.
  - rewrite max_int_val. cbn. lia.
  - rewrite max_int_val. unfold bufSize. cbn. lia.
  - lia.
  - unfold exampleResumed.
    apply poolDo_reach; [constructor|].
    apply poolDo_reach;
      [apply Forall_cons; split; [unfold bufSize; cbn; lia|constructor]|].
    apply poolDo_reach;
      [apply Forall_cons; split; [unfold bufSize; cbn; lia|constructor]|].
    apply ReachRefl.
Defined.

(** The resumed run of that disk, worked out: [download] resumes; the
    worker fetches segments 1 and 2 and calls their marks, and returns;
    the entries of segments 1 and 2 in the progress file still say
    "pending", and the output file still holds its two bytes. *)
Example resumed_marks_refused :
  @download gobCodec (HeadResponse 200 5) exampleDisk 1
  = Ret (Started exampleDisk exampleInfo false
           (instructionsSent exampleInfo 1))
  /\ openedFiles (Started (@exampleDisk gobCodec) exampleInfo false
                   (instructionsSent exampleInfo 1))
     = Some (mkHandle [Byte.x41; Byte.x42] true,
             mkHandle exampleStored true)
  /\ map snd (trace exampleResumed)
     = [EvRecv (mkDownload 2 2 1); EvGet 2 3;
        EvWrite 2 [Byte.x43; Byte.x44]; EvUpdate (mkProgressUpdate 0 2);
        EvMark 257 finishedSegment;
        EvRecv (mkDownload 4 1 2); EvGet 4 4;
        EvWrite 4 [Byte.x45]; EvUpdate (mkProgressUpdate 0 3);
        EvMark 258 finishedSegment;
        EvRecv (mkDownload 5 0 0)]
  /\ workers exampleResumed = [None] /\ exited exampleResumed = false
  /\ map (doneAt
            (h_bytes
               (applyEvents
                  (mkHandle [Byte.x41; Byte.x42] true,
                   mkHandle (@exampleStored gobCodec) true)
                  (map snd (trace exampleResumed))).2))
       [0; 1; 2]%nat
     = [true; false; false]
  /\ h_bytes
       (applyEvents
          (mkHandle [Byte.x41; Byte.x42] true,
           mkHandle (@exampleStored gobCodec) true)
          (map snd (trace exampleResumed))).1
     = [Byte.x41; Byte.x42].
Proof. by vm_compute. Qed.

(** ** Honest runs and the files *)

Lemma segment_of_byte info (x : nat) :
  0 <= Length info -> 0 < SegmentSize info ->
  Length info + SegmentSize info - 1 <= Int64.max_int ->
  Z.of_nat (length (segments info))
  = ceilDiv (Length info) (SegmentSize info) ->
  Z.of_nat x < Length info ->
  exists (k : nat) b,
    segments info !! k = Some b
    /\ Z.of_nat k * SegmentSize info <= Z.of_nat x
         < (Z.of_nat k + 1) * SegmentSize info
    /\ (b = false ->
        exists d,
          d ∈ enqueueSegments info
          /\ position d <= Z.of_nat x < position d + size d).
Proof.
  intros Hl Hs Hmax Hcount Hx.
  destruct info as [L S segs]. cbn [Length SegmentSize segments] in *.
  pose proof (ceilDiv_spec L S Hl Hs) as [Hc0 Hc].
  set (k := Z.to_nat (Z.of_nat x / S)).
  assert (Hk : Z.of_nat k * S <= Z.of_nat x < (Z.of_nat k + 1) * S).
  { subst k. rewrite Z2Nat.id by (apply Z.div_pos; lia).
    pose proof (Z.div_mod (Z.of_nat x) S ltac:(lia)).
    pose proof (Z.mod_pos_bound (Z.of_nat x) S Hs). nia. }
  assert (Hkc : Z.of_nat k < ceilDiv L S) by nia.
  destruct (lookup_lt_is_Some_2 segs k ltac:(lia)) as [b Hb].
  exists k, b. split; [done|]. split; [done|]. intros ->.
  exists (segmentInstruction (mkProgressInfo L S segs) (0 + Z.of_nat k)).
  split; [by apply enqueueFrom_sends|].
  rewrite segmentInstruction_spec by (done || nia).
  cbn [position size segmentSpec]. nia.
Qed.

Section HonestRuns.
Context `{codec : GobCodec}.

(** X10: a clean start against an honest server. [download] has started
    the workers clean for a resource whose length it has learnt (in
    range); the server answers every range request with bytes of the
    resource from the first byte asked for on, in pieces of any size,
    possibly stopping early, and any answer may also be a failure; the
    workers' iterations are interleaved in any way.
    - Such a run can end: there is one in which every worker returns.
    - When every worker has returned, the [file.WriteAt] calls of the run,
      done in order as positioned writes on an empty file, give the
      resource byte for byte: each call carries the right bytes for its
      offset and together they cover the resource.
    - Applied to the output file as [download] opens it, with [O_APPEND],
      every one of these calls is refused: the file is still empty. *)
Theorem honest_run_downloads (h : headResponse) (d d' : disk)
  (numThreads : nat) (info : ProgressInfo) (sent : list Download)
  (files : handle * handle) (resource : list byte) :
  download h d numThreads = Ret (Started d' info true sent) ->
  openedFiles (Started d' info true sent) = Some files ->
  Length info = Z.of_nat (length resource) ->
  Z.of_nat (length resource) + defaultSegmentSize - 1 <= Int64.max_int ->
  Z.of_nat (length resource) + Z.of_nat bufSize <= Int64.max_int ->
  (0 < numThreads)%nat ->
  completes resource sent numThreads
  /\ forall p,
       honestReach resource (initPool sent numThreads) p ->
       exited p = false -> Forall (fun o => o = None) (workers p) ->
       writesTo [] (map snd (trace p)) = resource
       /\ h_bytes (applyEvents files (map snd (trace p))).1 = [].
Proof.
  intros Hdl Hfiles HL Hmax Hbuf Hn.
  destruct (download_started _ _ _ _ _ _ _ Hdl)
    as (Hsent & Hout & Hclean & _).
  destruct (Hclean eq_refl) as (HS & _ & c & _ & _ & Hsegs).
  assert (Hl : 0 <= Length info) by lia.
  assert (Hs : 0 < SegmentSize info) by (by rewrite HS).
  rewrite <- HL, <- HS in Hmax. rewrite <- HL in Hbuf.
  pose proof (download_started_count _ _ _ _ _ _ _ Hdl Hl Hs Hmax) as Hcount.
  pose proof (enqueueSegments_inside info Hl Hs Hmax Hbuf Hcount) as Hinside.
  rewrite HL in Hinside.
  assert (Hwf : wfSent sent).
  { rewrite Hsent. destruct info as [L S segs]. by apply instructionsSent_wf. }
  assert (Hitems : Forall (fun d => size d <> 0) (enqueueSegments info)).
  { eapply Forall_impl; [exact Hinside|]. intros x [(_ & ? & _) _]. lia. }
  injection Hfiles as <-. split.
  { destruct (complete_run resource (enqueueSegments info) (poison info)
                numThreads Hn eq_refl Hinside) as (Hr & He & Hall).
    eexists. rewrite Hsent. by split. }
  intros p Hhonest Hex Hall. split.
  - apply list_eq. intros x.
    destruct (decide (x < length resource)%nat) as [Hx|Hx].
    + eapply (honest_run_agrees resource sent (enqueueSegments info)
                (poison info)); try done.
      right.
      destruct (segment_of_byte info x Hl Hs Hmax Hcount ltac:(lia))
        as (k & b & Hb & _ & Hcov).
      apply Hcov. rewrite Hsegs in Hb.
      by apply lookup_replicate in Hb as [-> _].
    + pose proof (honest_run_length resource sent numThreads p [] Hwf
                    Hhonest ltac:(cbn; lia)) as Hlen.
      rewrite !lookup_ge_None_2 by lia. done.
  - rewrite applyEvents_append_output by done. cbn. by rewrite Hout.
Qed.

(** X15: a resume against an honest server. [download] has resumed for
    the length of the resource, and the output file, as it finds it, is no
    longer than the resource and holds the bytes of the resource in every
    segment whose byte in the progress file says "done".
    - Such a run can end: there is one in which every worker returns.
    - When every worker has returned, the [file.WriteAt] calls of the run,
      done in order as positioned writes on the output file as it was
      found, give the resource.
    - Applied to the output file as [download] opens it, with [O_APPEND],
      every one of these calls is refused: the file is what it was. *)
Theorem honest_resume_downloads (h : headResponse) (d d' : disk)
  (numThreads : nat) (info : ProgressInfo) (sent : list Download)
  (files : handle * handle) (resource : list byte) :
  download h d numThreads = Ret (Started d' info false sent) ->
  openedFiles (Started d' info false sent) = Some files ->
  Length info = Z.of_nat (length resource) -> 0 < SegmentSize info ->
  Length info + SegmentSize info - 1 <= Int64.max_int ->
  Length info + Z.of_nat bufSize <= Int64.max_int ->
  (0 < numThreads)%nat ->
  (length (h_bytes files.1) <= length resource)%nat ->
  (forall k x : nat,
     doneAt (h_bytes files.2) k = true ->
     Z.of_nat k * SegmentSize info <= Z.of_nat x
       < (Z.of_nat k + 1) * SegmentSize info ->
     (x < length resource)%nat ->
     h_bytes files.1 !! x = resource !! x) ->
  completes resource sent numThreads
  /\ forall p,
       honestReach resource (initPool sent numThreads) p ->
       exited p = false -> Forall (fun o => o = None) (workers p) ->
       writesTo (h_bytes files.1) (map snd (trace p)) = resource
       /\ h_bytes (applyEvents files (map snd (trace p))).1
          = h_bytes files.1.
Proof.
  intros Hdl Hfiles HL Hs Hmax Hbuf Hn Hshort Hdone.
  destruct (download_started _ _ _ _ _ _ _ Hdl)
    as (Hsent & Hout & _ & Hresume).
  destruct (Hresume eq_refl) as (f & _ & Hprog & Hread).
  assert (Hl : 0 <= Length info) by lia.
  pose proof (download_started_count _ _ _ _ _ _ _ Hdl Hl Hs Hmax) as Hcount.
  pose proof (enqueueSegments_inside info Hl Hs Hmax Hbuf Hcount) as Hinside.
  rewrite HL in Hinside.
  pose proof (readProgressInfo_bitmap f info Hread) as Hbits.
  assert (Hwf : wfSent sent).
  { rewrite Hsent. destruct info as [L S segs]. by apply instructionsSent_wf. }
  assert (Hitems : Forall (fun d => size d <> 0) (enqueueSegments info)).
  { eapply Forall_impl; [exact Hinside|]. intros x [(_ & ? & _) _]. lia. }
  injection Hfiles as <-. cbn [fst snd h_bytes] in *. split.
  { destruct (complete_run resource (enqueueSegments info) (poison info)
                numThreads Hn eq_refl Hinside) as (Hr & He & Hall).
    eexists. rewrite Hsent. by split. }
  intros p Hhonest Hex Hall. split.
  - apply list_eq. intros x.
    destruct (decide (x < length resource)%nat) as [Hx|Hx].
    + eapply (honest_run_agrees resource sent (enqueueSegments info)
                (poison info)); try done.
      destruct (segment_of_byte info x Hl Hs Hmax Hcount ltac:(lia))
        as (k & b & Hb & Hk & Hcov).
      destruct b; [left|right; by apply Hcov].
      apply (Hdone k x); [|done|done].
      rewrite Hprog. cbn [default from_option id].
      pose proof (lookup_lt_Some _ _ _ Hb) as Hlt.
      rewrite Hbits, list_lookup_fmap, lookup_seq_lt in Hb by done.
      cbn in Hb. by injection Hb.
    + pose proof (honest_run_length resource sent numThreads p _ Hwf
                    Hhonest Hshort) as Hlen.
      rewrite !lookup_ge_None_2 by lia. done.
  - by rewrite applyEvents_append_output.
Qed.

(** X13: the progress file read back at any point of a run. [download]
    has started the workers, clean or on a resume, for a length and a
    segment size in range and at most [maxSegments] segments; the run,
    from a pool reached from the start, is stopped after any number [m]
    of its events, and [readProgressInfo] reads the progress file as the
    run has left it. It succeeds and returns the length and the segment
    size of the state the workers were started on.
    - After a clean start (the file comes from [os.Create]) the bitmap
      says "done" for a segment exactly when its mark call is among the
      events so far: the marks never touch the header.
    - After a resume (the file is opened with [O_APPEND]) the bitmap is
      the one the run was resumed from: no segment fetched in this run is
      recorded. *)
Theorem progress_file_follows_marks (h : headResponse) (d d' : disk)
  (numThreads : nat) (info : ProgressInfo) (truncate : bool)
  (sent : list Download) (files : handle * handle) (p : pool) (m : nat) :
  download h d numThreads = Ret (Started d' info truncate sent) ->
  openedFiles (Started d' info truncate sent) = Some files ->
  0 <= Length info -> 0 < SegmentSize info ->
  Length info + SegmentSize info - 1 <= Int64.max_int ->
  Length info + Z.of_nat bufSize <= Int64.max_int ->
  ceilDiv (Length info) (SegmentSize info) <= maxSegments ->
  poolReach true (initPool sent numThreads) p ->
  readProgressInfo
    (Some (h_bytes (applyEvents files (take m (map snd (trace p)))).2))
  = Ret (mkProgressInfo (Length info) (SegmentSize info)
           (if truncate
            then map (markedIn (take m (map snd (trace p))))
                   (seq 0 (Z.to_nat
                             (ceilDiv (Length info) (SegmentSize info))))
            else segments info),
         None).
Proof.
  intros Hdl Hfiles Hl Hs Hmax Hbuf Hcap Hreach.
  pose proof (download_started_count _ _ _ _ _ _ _ Hdl Hl Hs Hmax) as Hcount.
  destruct (download_started _ _ _ _ _ _ _ Hdl)
    as (Hsent & Hout & Hclean & Hresume).
  assert (Hwf : wfSent sent).
  { rewrite Hsent. destruct info as [L S segs]. by apply instructionsSent_wf. }
  pose proof (poolReach_marks sent numThreads p Hwf Hreach) as Hmarks.
  apply (Forall_take _ m) in Hmarks.
  injection Hfiles as <-. destruct truncate.
  - destruct (Hclean eq_refl) as (HS & -> & _).
    cbn [default from_option id negb].
    assert (Hrl : Int64.in_range (Length info)).
    { unfold Int64.in_range. rewrite max_int_val, min_int_val in *. lia. }
    assert (Hrs : Int64.in_range (SegmentSize info))
      by (rewrite HS; by vm_compute).
    destruct (clean_progress_entries (Length info) (SegmentSize info)
                (mkHandle (default [] (outputFile d')) true)
                (take m (map snd (trace p))) Hrl Hrs Hmarks)
      as (rest & -> & Hdone).
    pose proof (ceilDiv_spec _ _ Hl Hs) as [Hn _].
    unfold readProgressInfo.
    assert (Hmagic : fileRead
                       ((magic ++ gobEncode (Length info) (SegmentSize info))
                          ++ rest) 0 4%nat = magic).
    { unfold fileRead. change (Z.to_nat 0) with 0%nat.
      rewrite drop_0, <- app_assoc. by rewrite (take_app_length' magic). }
    rewrite Hmagic, bool_decide_eq_true_2 by done. cbn [negb].
    assert (Hdec : gobDecode
                     (drop 4 ((magic ++ gobEncode (Length info)
                                           (SegmentSize info)) ++ rest))
                   = Some (Length info, SegmentSize info)).
    { rewrite <- app_assoc. rewrite (drop_app_length' magic) by done.
      by apply gob_decode_encode. }
    rewrite Hdec, findSegmentCount_exact by done. cbn [obind].
    destruct (Z.gtb_spec (ceilDiv (Length info) (SegmentSize info))
                maxSegments); [lia|].
    unfold makeBools.
    destruct (Z.ltb_spec (ceilDiv (Length info) (SegmentSize info)) 0);
      [lia|].
    cbn [obind]. rewrite readSegments_fresh by done.
    do 3 f_equal. apply list_fmap_ext. intros _ k _. apply Hdone.
  - destruct (Hresume eq_refl) as (f & _ & -> & Hread).
    rewrite applyEvents_append_progress by done.
    cbn [snd h_bytes default from_option id]. rewrite Hread.
    by destruct info.
Qed.
End HonestRuns.

Lemma honest_run_downloads_witness :
  completes [Byte.x41; Byte.x42] exampleSent 1
  /\ forall p,
       honestReach [Byte.x41; Byte.x42] (initPool exampleSent 1) p ->
       exited p = false -> Forall (fun o => o = None) (workers p) ->
       writesTo [] (map snd (trace p)) = [Byte.x41; Byte.x42]
       /\ h_bytes
            (applyEvents
               (mkHandle [] true,
                mkHandle (magic ++ @gobEncode gobCodec 2 defaultSegmentSize)
                  false)
               (map snd (trace p))).1 = [].
Proof.
  apply (@honest_run_downloads gobCodec (HeadResponse 200 2)
           (mkDisk None None true) exampleFreshDisk 1 exampleFresh
           exampleSent
           (mkHandle [] true,
            mkHandle (magic ++ gobEncode 2 defaultSegmentSize) false)
           [Byte.x41; Byte.x42]).
  - by vm_compute.
  - reflexivity.
  - reflexivity.
  - rewrite max_int_val. unfold defaultSegmentSize. cbn. lia.
  - rewrite max_int_val. unfold bufSize. cbn. lia.
  - lia.
Defined.

(** The clean run of one worker on a resource of two bytes, worked out:
    the calls describe the resource, and the output file stays empty. *)
Example clean_run_example :
  @download gobCodec (HeadResponse 200 2) (mkDisk None None true) 1
  = Ret (Started exampleFreshDisk exampleFresh true exampleSent)
  /\ writesTo [] (map snd (trace examplePool)) = [Byte.x41; Byte.x42]
  /\ h_bytes
       (applyEvents
          (mkHandle [] true,
           mkHandle (magic ++ @gobEncode gobCodec 2 defaultSegmentSize)
             false)
          (map snd (trace examplePool))).1 = [].
Proof. by vm_compute. Qed.

Lemma honest_resume_downloads_witness :
  completes exampleResource (instructionsSent exampleInfo 1) 1
  /\ forall p,
       honestReach exampleResource
         (initPool (instructionsSent exampleInfo 1) 1) p ->
       exited p = false -> Forall (fun o => o = None) (workers p) ->
       writesTo [Byte.x41; Byte.x42] (map snd (trace p)) = exampleResource
       /\ h_bytes
            (applyEvents
               (mkHandle [Byte.x41; Byte.x42] true,
                mkHandle (@exampleStored gobCodec) true)
               (map snd (trace p))).1 = [Byte.x41; Byte.x42].
Proof.
  apply (@honest_resume_downloads gobCodec (HeadResponse 200 5)
           exampleDisk exampleDisk 1 exampleInfo
           (instructionsSent exampleInfo 1)
           (mkHandle [Byte.x41; Byte.x42] true,
            mkHandle exampleStored true)
           exampleResource).
  - by vm_compute.
  - reflexivity.
  - reflexivity.
  - cbn. lia.
  - rewrite max_int_val. cbn. lia.
  - rewrite max_int_val. unfold bufSize. cbn. lia.
  - lia.
  - cbn. lia.
  - intros k x Hd Hr Hx. cbn [SegmentSize exampleInfo] in Hr.
    cbn [fst snd h_bytes] in *.
    destruct k as [|k].
    + do 2 (destruct x as [|x]; [reflexivity|]). lia.
    + destruct k as [|k]; [by vm_compute in Hd|].
      destruct k as [|k]; [by vm_compute in Hd|].
      cbn in Hx. lia.
Defined.

Lemma progress_file_follows_marks_witness :
  @readProgressInfo gobCodec
    (Some (h_bytes
             (applyEvents
                (mkHandle [] true,
                 mkHandle (magic ++ gobEncode 2 defaultSegmentSize) false)
                (take 5 (map snd (trace examplePool)))).2))
  = Ret (mkProgressInfo 2 defaultSegmentSize
           (map (markedIn (take 5 (map snd (trace examplePool))))
              (seq 0 (Z.to_nat (ceilDiv 2 defaultSegmentSize)))),
         None).
Proof.
  apply (@progress_file_follows_marks gobCodec (HeadResponse 200 2)
           (mkDisk None None true) exampleFreshDisk 1 exampleFresh true
           exampleSent
           (mkHandle [] true,
            mkHandle (magic ++ gobEncode 2 defaultSegmentSize) false)
           examplePool 5).
  - by vm_compute.
  - reflexivity.
  - cbn. lia.
  - by vm_compute.
  - vm_compute. discriminate.
  - vm_compute. discriminate.
  - vm_compute. discriminate.
  - unfold examplePool.
    apply poolDo_reach; [constructor|].
    apply poolDo_reach;
      [apply Forall_cons; split; [unfold bufSize; cbn; lia|constructor]|].
    apply ReachRefl.
Defined.
